(** * shipit_static_analysis/clang.py: the clang-tidy runner and its output parser

    A shallow embedding of [ClangTidy.parse_issues], [ClangIssue] and the
    file filter and worker queue of [ClangTidy.run].

    Text is a list of characters with code points below 256 (Latin-1); the
    classes [\w], [\s] and [\d] are Python's Unicode classes on that range.
    Regular expressions are values of a small syntax tree, run by a
    backtracking matcher that tries alternatives in Python's priority order
    (greedy repetition longest first, the left branch of [|] first).
    Integers are unbounded, as Python's are; [int] refuses a string with
    more digits than the interpreter's limit, [max_str_digits] (the value
    of [sys.get_int_max_str_digits()]: 4300 unless it was changed, 0 for no
    limit and on interpreters that have none).
    Logging is left out.  The threads of [run] are a step relation over the
    caller, the workers and the two queues, in which every queue operation
    is a step of its own: an exception that leaves [run_clang_tidy] ends
    that worker thread and no other. *)

From Stdlib Require Import String Ascii List ZArith Lia Bool Permutation.
Import ListNotations.

Local Open Scope string_scope.
Local Open Scope list_scope.
Local Open Scope Z_scope.

(** ** Text and Python slices *)

Definition text := list ascii.

Definition str (s : string) : text := list_ascii_of_string s.

Definition nl : ascii := "010"%char.
Definition dquote : ascii := "034"%char.

Definition code (c : ascii) : Z := Z.of_N (N_of_ascii c).

Definition is_nl (c : ascii) : bool := Ascii.eqb c nl.

Fixpoint text_eqb (a b : text) : bool :=
  match a, b with
  | [], [] => true
  | x :: a', y :: b' => Ascii.eqb x y && text_eqb a' b'
  | _, _ => false
  end.

Definition len (s : text) : Z := Z.of_nat (length s).

(** A slice bound as Python normalises it: a negative index counts from the
    end, and the result is clipped to [0, len]. *)
Definition clip (n i : Z) : Z :=
  if i <? 0 then Z.max 0 (n + i) else Z.min n i.

(** [s[lo:hi]] *)
Definition py_slice (s : text) (lo hi : Z) : text :=
  let a := clip (len s) lo in
  let b := clip (len s) hi in
  firstn (Z.to_nat (b - a)) (skipn (Z.to_nat a) s).

(** [s[lo:]] and [s[:hi]] *)
Definition py_slice_from (s : text) (lo : Z) : text := py_slice s lo (len s).
Definition py_slice_to (s : text) (hi : Z) : text := py_slice s 0 hi.

(** [s.startswith(p)] *)
Fixpoint startswith (s p : text) {struct p} : bool :=
  match p with
  | [] => true
  | c :: p' =>
      match s with
      | x :: s' => Ascii.eqb x c && startswith s' p'
      | [] => false
      end
  end.

(** [sep.join(parts)] *)
Fixpoint join (sep : text) (parts : list text) : text :=
  match parts with
  | [] => []
  | [p] => p
  | p :: rest => p ++ sep ++ join sep rest
  end.

(** ** Character classes *)

Definition in_range (lo hi : Z) (c : ascii) : bool :=
  (lo <=? code c) && (code c <=? hi).

(** [\d]: the decimal digits. *)
Definition is_digit (c : ascii) : bool := in_range 48 57 c.

(** [str.isalnum] below 256: ASCII letters and digits, and the letters and
    numeric characters of the Latin-1 supplement. *)
Definition is_alnum (c : ascii) : bool :=
  in_range 48 57 c || in_range 65 90 c || in_range 97 122 c
  || (code c =? 170) || in_range 178 179 c || (code c =? 181)
  || in_range 185 186 c || in_range 188 190 c
  || in_range 192 214 c || in_range 216 246 c || in_range 248 255 c.

(** [\w] *)
Definition is_word (c : ascii) : bool := is_alnum c || Ascii.eqb c "_".

(** [\s] *)
Definition is_space (c : ascii) : bool :=
  in_range 9 13 c || in_range 28 32 c || (code c =? 133) || (code c =? 160).

(** [.] without DOTALL *)
Definition is_dot (c : ascii) : bool := negb (is_nl c).

(** The message class of REGEX_HEADER: word characters, whitespace, the
    dot, both quote characters, the caret, the underscore, the range that
    [,-<] denotes inside brackets (from the comma to the less-than sign),
    and the characters = > ( ). *)
Definition is_message (c : ascii) : bool :=
  is_word c || is_space c || Ascii.eqb c "." || Ascii.eqb c "'"
  || Ascii.eqb c dquote || Ascii.eqb c "^" || Ascii.eqb c "_"
  || in_range (code ",") (code "<") c
  || Ascii.eqb c "=" || Ascii.eqb c ">" || Ascii.eqb c "(" || Ascii.eqb c ")".

(** The check class [[\.\w-]] *)
Definition is_check (c : ascii) : bool :=
  Ascii.eqb c "." || is_word c || Ascii.eqb c "-".

(** ** Regular expressions *)

Inductive regex : Type :=
| Eps : regex                          (* the empty pattern *)
| Chr (cls : ascii -> bool) : regex    (* one character of a class *)
| Str (p : text) : regex               (* a literal string *)
| Bol : regex                          (* [^] under re.MULTILINE *)
| Cat (a b : regex) : regex
| Alt (a b : regex) : regex            (* [a|b] *)
| Plus (cls : ascii -> bool) : regex   (* [cls+], greedy *)
| Opt (a : regex) : regex              (* [(?:a)?], greedy *)
| Grp (n : nat) (a : regex) : regex.   (* capturing group number n *)

Definition captures := nat -> option text.

Definition no_captures : captures := fun _ => None.

Definition set_capture (n : nat) (v : text) (caps : captures) : captures :=
  fun m => if Nat.eqb m n then Some v else caps m.

(** Whether the position after the text [m] follows a newline. *)
Definition bol_after (bol : bool) (m : text) : bool :=
  match m with
  | [] => bol
  | _ :: _ => is_nl (last m nl)
  end.

(** The text consumed between a position [s] and a later position [s']. *)
Definition consumed (s s' : text) : text :=
  firstn (length s - length s') s.

Section Matcher.
Context {R : Type}.

(** The continuation gets the rest of the text, whether that position
    follows a newline, and the groups captured so far. *)
Definition cont := text -> bool -> captures -> option R.

(** [cls+]: take one character, then try to take more before trying the
    rest of the pattern. *)
Fixpoint plus_greedy (cls : ascii -> bool) (s : text)
    (k : text -> bool -> option R) : option R :=
  match s with
  | [] => None
  | c :: s' =>
      if cls c then
        match plus_greedy cls s' k with
        | Some r => Some r
        | None => k s' (is_nl c)
        end
      else None
  end.

(** A literal string, character by character. *)
Fixpoint lit (p : text) (s : text) (bol : bool)
    (k : text -> bool -> option R) : option R :=
  match p with
  | [] => k s bol
  | c :: p' =>
      match s with
      | x :: s' => if Ascii.eqb c x then lit p' s' (is_nl x) k else None
      | [] => None
      end
  end.

Fixpoint rmatch (r : regex) (s : text) (bol : bool) (caps : captures)
    (k : cont) : option R :=
  match r with
  | Eps => k s bol caps
  | Chr cls =>
      match s with
      | c :: s' => if cls c then k s' (is_nl c) caps else None
      | [] => None
      end
  | Str p => lit p s bol (fun s' bol' => k s' bol' caps)
  | Bol => if bol then k s bol caps else None
  | Cat a b => rmatch a s bol caps (fun s' bol' caps' => rmatch b s' bol' caps' k)
  | Alt a b =>
      match rmatch a s bol caps k with
      | Some x => Some x
      | None => rmatch b s bol caps k
      end
  | Plus cls => plus_greedy cls s (fun s' bol' => k s' bol' caps)
  | Opt a =>
      match rmatch a s bol caps k with
      | Some x => Some x
      | None => k s bol caps
      end
  | Grp n a =>
      rmatch a s bol caps
        (fun s' bol' caps' => k s' bol' (set_capture n (consumed s s') caps'))
  end.
End Matcher.

(** Number of capturing groups of a pattern. *)
Fixpoint ngroups (r : regex) : nat :=
  match r with
  | Eps | Chr _ | Str _ | Bol | Plus _ => 0
  | Cat a b | Alt a b => (ngroups a + ngroups b)%nat
  | Opt a => ngroups a
  | Grp _ a => S (ngroups a)
  end.

(** A match object: [start()], [end()] and [groups()]. *)
Record Match : Type := mkMatch {
  m_start : Z;
  m_end : Z;
  m_groups : list (option text)
}.

(** One attempt at one position. *)
Definition match_here (r : regex) (s : text) (pos : Z) (bol : bool) : option Match :=
  rmatch r s bol no_captures
    (fun s' _ caps =>
       Some {| m_start := pos;
               m_end := pos + Z.of_nat (length s - length s');
               m_groups := map caps (seq 1 (ngroups r)) |}).

(** [r.search(s)]: the first position, from the left, where an attempt
    succeeds; the position after the last character is tried too. *)
Fixpoint search_from (r : regex) (s : text) (pos : Z) (bol : bool) : option Match :=
  match match_here r s pos bol with
  | Some m => Some m
  | None =>
      match s with
      | [] => None
      | c :: s' => search_from r s' (pos + 1) (is_nl c)
      end
  end.

Definition re_search (r : regex) (s : text) : option Match :=
  search_from r s 0 true.

(** [r.finditer(s)]: the successive matches, each search starting where the
    previous match ended.  [skip] counts the characters still covered by the
    last match. *)
Fixpoint finditer_from (r : regex) (s : text) (pos : Z) (bol : bool)
    (skip : nat) : list Match :=
  match s with
  | [] =>
      match skip with
      | O => match match_here r s pos bol with Some m => [m] | None => [] end
      | S _ => []
      end
  | c :: s' =>
      match skip with
      | S n => finditer_from r s' (pos + 1) (is_nl c) n
      | O =>
          match match_here r s pos bol with
          | Some m =>
              m :: finditer_from r s' (pos + 1) (is_nl c)
                     (Z.to_nat (m_end m - m_start m) - 1)
          | None => finditer_from r s' (pos + 1) (is_nl c) 0
          end
      end
  end.

Definition finditer (r : regex) (s : text) : list Match :=
  finditer_from r s 0 true 0.

(** [sorted(ms, key=lambda h: h.start())], a stable insertion sort. *)
Fixpoint insert_by_start (m : Match) (ms : list Match) : list Match :=
  match ms with
  | [] => [m]
  | x :: ms' =>
      if m_start m <? m_start x then m :: ms
      else x :: insert_by_start m ms'
  end.

Definition sorted_by_start (ms : list Match) : list Match :=
  fold_left (fun acc m => insert_by_start m acc) ms [].

(** ** The two patterns of the module *)

(** A sequence of patterns. *)
Definition cat (rs : list regex) : regex := fold_right Cat Eps rs.

(** REGEX_HEADER, compiled with re.MULTILINE: the anchor, the path [(.+)],
    the line and the column [(\d+)], the kind, the message, the optional
    check in square brackets, and the newline that ends the header. *)
Definition REGEX_HEADER : regex :=
  cat [ Bol;
        Grp 1 (Plus is_dot); Str (str ":");
        Grp 2 (Plus is_digit); Str (str ":");
        Grp 3 (Plus is_digit); Str (str ": ");
        Grp 4 (Alt (Str (str "warning"))
                 (Alt (Str (str "error")) (Str (str "note"))));
        Str (str ": ");
        Grp 5 (Plus is_message);
        Opt (cat [Str (str " ["); Grp 6 (Plus is_check); Str (str "]")]);
        Chr is_nl ].

(** The pattern of the marker line, searched with re.MULTILINE. *)
Definition REGEX_END : regex :=
  cat [Bol; Str (str "Enabled checks:"); Chr is_nl].

(** ** Exceptions *)

Inductive exn : Type :=
| AssertionError | AttributeError | TypeError | ValueError | re_error
| CalledProcessError | UnicodeDecodeError.

Inductive result (A : Type) : Type :=
| Ok (a : A)
| Raise (e : exn).

Arguments Ok {A} a.
Arguments Raise {A} e.

Definition bind {A B : Type} (x : result A) (f : A -> result B) : result B :=
  match x with
  | Ok a => f a
  | Raise e => Raise e
  end.

Notation "x <- e ;; k" := (bind e (fun x => k))
  (at level 61, e at next level, right associativity).

(** ** ClangIssue *)

#[local] Set Warnings "-register-all".

Inductive ClangIssue : Type := mkClangIssue {
  path : text;
  line : Z;
  char : Z;
  type : option text;
  message : option text;
  check : option text;
  body : option text;
  notes : list ClangIssue
}.

(** The value of a string of decimal digits. *)
Fixpoint int_digits (s : text) (acc : Z) : result Z :=
  match s with
  | [] => Ok acc
  | c :: s' =>
      if is_digit c then int_digits s' (10 * acc + (code c - 48))
      else Raise ValueError
  end.

(** The string has more digits than [int] converts: the limit counts every
    digit, leading zeros too, and 0 stands for no limit.  (The interpreter
    takes 0 or a limit of at least 640.) *)
Definition over_limit (max_str_digits : nat) (s : text) : bool :=
  (0 <? max_str_digits)%nat && (max_str_digits <? length s)%nat.

(** [int(v)] for the strings the header pattern captures: a string of
    decimal digits, refused with ValueError when it is over the limit.  The
    other strings Python accepts (a sign, surrounding whitespace,
    underscores) raise ValueError here. *)
Definition int_ (max_str_digits : nat) (v : option text) : result Z :=
  match v with
  | None => Raise TypeError
  | Some [] => Raise ValueError
  | Some s =>
      if over_limit max_str_digits s then Raise ValueError
      else int_digits s 0
  end.

(** [ClangIssue.__init__(header_data, work_dir)] *)
Definition ClangIssue_init (max_str_digits : nat)
    (header_data : list (option text)) (work_dir : text)
    : result ClangIssue :=
  match header_data with
  | [path; line; char; type; message; check] =>
      path <- match path with
              | None => Raise AttributeError
              | Some p =>
                  Ok (if startswith p work_dir
                      then py_slice_from p (len work_dir) else p)
              end ;;
      line <- int_ max_str_digits line ;;
      char <- int_ max_str_digits char ;;
      Ok {| path := path; line := line; char := char; type := type;
            message := message; check := check; body := None; notes := [] |}
  | _ => Raise AssertionError
  end.

Definition opt_text_eqb (a : option text) (b : text) : bool :=
  match a with
  | Some s => text_eqb s b
  | None => false
  end.

(** [ClangIssue.is_problem] *)
Definition is_problem (i : ClangIssue) : bool :=
  opt_text_eqb (type i) (str "warning") || opt_text_eqb (type i) (str "error").

Definition set_body (i : ClangIssue) (b : text) : ClangIssue :=
  {| path := path i; line := line i; char := char i; type := type i;
     message := message i; check := check i; body := Some b;
     notes := notes i |}.

Definition append_note (i n : ClangIssue) : ClangIssue :=
  {| path := path i; line := line i; char := char i; type := type i;
     message := message i; check := check i; body := body i;
     notes := notes i ++ [n] |}.

(** ** ClangTidy.parse_issues *)

(** The check id of the records that are skipped. *)
Definition diagnostic_error : text := str "clang-diagnostic-error".

(** [issues[-1].notes.append(issue)], for a list that is not empty. *)
Fixpoint link_note (issues : list ClangIssue) (n : ClangIssue) : list ClangIssue :=
  match issues with
  | [] => []
  | [i] => [append_note i n]
  | i :: rest => i :: link_note rest n
  end.

(** The branches at the end of the loop body. *)
Definition classify (issues : list ClangIssue) (issue : ClangIssue)
    : list ClangIssue :=
  if is_problem issue then
    if opt_text_eqb (check issue) diagnostic_error then issues
    else issues ++ [issue]
  else
    match issues with
    | [] => issues
    | _ :: _ => link_note issues issue
    end.

(** The loop over the headers; [headers[i+1]] is the head of the rest. *)
Fixpoint parse_loop (max_str_digits : nat) (work_dir clang_output : text)
    (headers : list Match) (issues : list ClangIssue)
    : result (list ClangIssue) :=
  match headers with
  | [] => Ok issues
  | header :: rest =>
      issue <- ClangIssue_init max_str_digits (m_groups header) work_dir ;;
      let body :=
        match rest with
        | next_header :: _ =>
            py_slice clang_output (m_end header) (m_start next_header - 1)
        | [] => py_slice_from clang_output (m_end header)
        end in
      parse_loop max_str_digits work_dir clang_output rest
        (classify issues (set_body issue body))
  end.

(** The text that is scanned: cut at the first marker line, if any. *)
Definition limit_output (clang_output : text) : text :=
  match re_search REGEX_END clang_output with
  | Some e => py_slice_to clang_output (m_start e - 1)
  | None => clang_output
  end.

Definition parse_issues (max_str_digits : nat) (work_dir clang_output : text)
    : result (list ClangIssue) :=
  let clang_output := limit_output clang_output in
  let headers := sorted_by_start (finditer REGEX_HEADER clang_output) in
  parse_loop max_str_digits work_dir clang_output headers [].

(** The records the loop builds, one per header, before they are
    classified: the issue of the header with its body. *)
Fixpoint issue_records (max_str_digits : nat) (work_dir clang_output : text)
    (headers : list Match) : result (list ClangIssue) :=
  match headers with
  | [] => Ok []
  | header :: rest =>
      issue <- ClangIssue_init max_str_digits (m_groups header) work_dir ;;
      let body :=
        match rest with
        | next_header :: _ =>
            py_slice clang_output (m_end header) (m_start next_header - 1)
        | [] => py_slice_from clang_output (m_end header)
        end in
      more <- issue_records max_str_digits work_dir clang_output rest ;;
      Ok (set_body issue body :: more)
  end.

(** The headers the loop of [parse_issues] runs over. *)
Definition headers_of (clang_output : text) : list Match :=
  sorted_by_start (finditer REGEX_HEADER (limit_output clang_output)).

(** Groups 4 and 6 of a header: the kind and the check id. *)
Definition header_kind (h : Match) : option text := nth 3 (m_groups h) None.
Definition header_check (h : Match) : option text := nth 5 (m_groups h) None.

Definition problem_header (h : Match) : bool :=
  opt_text_eqb (header_kind h) (str "warning")
  || opt_text_eqb (header_kind h) (str "error").

Definition skipped_header (h : Match) : bool :=
  problem_header h && opt_text_eqb (header_check h) diagnostic_error.

(** Groups 2 and 3 of a header, the line and the column, are strings that
    [int] converts under the limit; and so are those of every header of
    the text. *)
Definition number_within (max_str_digits : nat) (v : option text) : bool :=
  match v with
  | Some s => negb (over_limit max_str_digits s)
  | None => true
  end.

Definition header_within (max_str_digits : nat) (h : Match) : bool :=
  number_within max_str_digits (nth 1 (m_groups h) None)
  && number_within max_str_digits (nth 2 (m_groups h) None).

Definition within_limit (max_str_digits : nat) (clang_output : text) : bool :=
  forallb (header_within max_str_digits) (headers_of clang_output).

(** ** ClangTidy.run: the file filter *)

(** [re.compile] on the patterns [run] builds from plain path fragments:
    ordinary characters, the dot, groups and alternation.  A pattern with
    any other special character is outside this model. *)
Inductive compiled : Type :=
| Compiled (r : regex)
| CompileError            (* re.error: unbalanced parentheses *)
| Unsupported.            (* syntax that is not modelled *)

Definition is_special (c : ascii) : bool :=
  existsb (Ascii.eqb c) (str "\^$*+?{}[]").

(** An open group while parsing: the alternatives closed so far, the
    sequence being read, and the number of the group. *)
Record frame : Type := mkFrame {
  f_alts : option regex;
  f_cur : regex;
  f_group : nat
}.

Definition close (f : frame) : regex :=
  match f_alts f with
  | None => f_cur f
  | Some a => Alt a (f_cur f)
  end.

Definition push_atom (f : frame) (a : regex) : frame :=
  {| f_alts := f_alts f; f_cur := Cat (f_cur f) a; f_group := f_group f |}.

Definition next_branch (f : frame) : frame :=
  {| f_alts := Some (close f); f_cur := Eps; f_group := f_group f |}.

Fixpoint compile_from (p : text) (stack : list frame) (top : frame)
    (next : nat) : compiled :=
  match p with
  | [] =>
      match stack with
      | [] => Compiled (close top)
      | _ :: _ => CompileError
      end
  | c :: p' =>
      if Ascii.eqb c "(" then
        compile_from p' (top :: stack)
          {| f_alts := None; f_cur := Eps; f_group := next |} (S next)
      else if Ascii.eqb c ")" then
        match stack with
        | [] => CompileError
        | f :: stack' =>
            compile_from p' stack' (push_atom f (Grp (f_group top) (close top))) next
        end
      else if Ascii.eqb c "|" then compile_from p' stack (next_branch top) next
      else if Ascii.eqb c "." then compile_from p' stack (push_atom top (Chr is_dot)) next
      else if is_special c then Unsupported
      else compile_from p' stack (push_atom top (Chr (Ascii.eqb c))) next
  end.

Definition re_compile (p : text) : compiled :=
  compile_from p [] {| f_alts := None; f_cur := Eps; f_group := 0 |} 1.

(** [re.compile('(' + ')|('.join(files) + ')')] *)
Definition file_name_pattern (files : list text) : text :=
  str "(" ++ join (str ")|(") files ++ str ")".

Definition file_name_re (files : list text) : compiled :=
  re_compile (file_name_pattern files).

(** [if file_name_re.search(name)] *)
Definition selects (r : regex) (name : text) : bool :=
  match re_search r name with
  | Some _ => true
  | None => false
  end.

(** The names the loop over [database_files] puts on the workers' queue,
    in order. *)
Definition enqueued (files database_files : list text) : option (result (list text)) :=
  match file_name_re files with
  | Compiled r => Some (Ok (filter (selects r) database_files))
  | CompileError => Some (Raise re_error)
  | Unsupported => None
  end.

(** [needle in s] *)
Fixpoint contains (s needle : text) : bool :=
  startswith s needle ||
  match s with
  | [] => false
  | _ :: s' => contains s' needle
  end.

(** ** ClangTidy.run_clang_tidy: the output of one invocation *)

(** What [subprocess.check_output] returns: the bytes the process wrote to
    its standard output. *)
Definition bytes := list Byte.byte.

Definition byte_code (b : Byte.byte) : Z := code (ascii_of_byte b).

Definition chr (n : Z) : ascii := ascii_of_N (Z.to_N n).

(** A continuation byte of UTF-8, 10xxxxxx. *)
Definition is_continuation (b : Byte.byte) : bool :=
  (128 <=? byte_code b) && (byte_code b <=? 191).

(** A character in front of the text decoded from the rest. *)
Definition decoded (c : ascii) (rest : option (result text))
    : option (result text) :=
  match rest with
  | Some (Ok t) => Some (Ok (c :: t))
  | other => other
  end.

(** [b.decode('utf-8')], for the bytes that give a text of this model: a
    byte below 128 is a character; the lead bytes 194 and 195 with one
    continuation byte give the characters from 128 to 255; a byte that can
    start no character (128 to 193, 245 to 255), and a lead byte without
    its continuation byte, raise UnicodeDecodeError.  The lead bytes from
    196 to 244 start characters above 255: from there on the output is
    outside the model, and the answer is None. *)
Fixpoint decode (b : bytes) : option (result text) :=
  match b with
  | [] => Some (Ok [])
  | x :: b' =>
      if byte_code x <? 128 then decoded (chr (byte_code x)) (decode b')
      else if (byte_code x =? 194) || (byte_code x =? 195) then
        match b' with
        | y :: b'' =>
            if is_continuation y then
              decoded (chr (Z.lor (Z.shiftl (Z.land (byte_code x) 31) 6)
                                  (Z.land (byte_code y) 63)))
                      (decode b'')
            else Some (Raise UnicodeDecodeError)
        | [] => Some (Raise UnicodeDecodeError)
        end
      else if (byte_code x <? 194) || (244 <? byte_code x) then
        Some (Raise UnicodeDecodeError)
      else None
  end.

(** ** ClangTidy.run: the threads and the queues *)

(** A worker thread: waiting in [queue_workers.get()]; holding a file name,
    between [get()] and the for loop (clang-tidy runs, its output is decoded
    and parsed); in the for loop over the issues of a file, with the issues
    already put on [queue_issues] and those still to put; or ended by an
    exception that left [run_clang_tidy]. *)
Inductive worker : Type :=
| Waiting
| Running (filename : text)
| Pushing (filename : text) (pushed rest : list ClangIssue)
| Dead.

(** The thread that called [run]: filling the queue with the names still to
    put, blocked in [queue_workers.join()], in the loop that empties
    [queue_issues] with the issues read so far, or back with its result. *)
Inductive caller : Type :=
| Filling (todo : list text)
| Joining
| Draining (issues : list ClangIssue)
| Returned (issues : list ClangIssue)
| Raised (e : exn).

Record state : Type := mkState {
  main : caller;
  queue_workers : list text;      (* the items of the bounded queue *)
  unfinished_tasks : nat;         (* puts not yet matched by task_done *)
  threads : list worker;
  queue_issues : list ClangIssue
}.

Section Run.
(** The limit of [int], the work directory, the number of workers, and what
    one clang-tidy process gives on a file: its exit status and the bytes
    it wrote to its standard output. *)
Variable max_str_digits : nat.
Variable work_dir : text.
Variable workers : nat.
Variable clang_tidy : text -> Z * bytes.

(** [subprocess.check_output(cmd, cwd=self.work_dir)] *)
Definition check_output (filename : text) : result bytes :=
  let (status, out) := clang_tidy filename in
  if status =? 0 then Ok out else Raise CalledProcessError.

(** The list the for loop of [run_clang_tidy] runs over,
    [self.parse_issues(clang_output.decode('utf-8'))]; None when the output
    is outside the model. *)
Definition tidy_issues (filename : text) : option (result (list ClangIssue)) :=
  match check_output filename with
  | Ok clang_output =>
      match decode clang_output with
      | Some (Ok s) => Some (parse_issues max_str_digits work_dir s)
      | Some (Raise e) => Some (Raise e)
      | None => None
      end
  | Raise e => Some (Raise e)
  end.

Inductive step : state -> state -> Prop :=
| step_put name todo q u ts qi :
    (* queue_workers.put(name) returns once the queue has room *)
    (length q < workers)%nat ->
    step (mkState (Filling (name :: todo)) q u ts qi)
         (mkState (Filling todo) (q ++ [name]) (S u) ts qi)
| step_filled q u ts qi :
    step (mkState (Filling []) q u ts qi) (mkState Joining q u ts qi)
| step_get m name q u l r qi :
    (* filename = self.queue_workers.get() *)
    step (mkState m (name :: q) u (l ++ Waiting :: r) qi)
         (mkState m q u (l ++ Running name :: r) qi)
| step_parsed m q u l name r qi issues :
    (* check_output returned, its output was decoded and parsed *)
    tidy_issues name = Some (Ok issues) ->
    step (mkState m q u (l ++ Running name :: r) qi)
         (mkState m q u (l ++ Pushing name [] issues :: r) qi)
| step_push m q u l name pushed issue rest r qi :
    (* self.queue_issues.put(issue) *)
    step (mkState m q u (l ++ Pushing name pushed (issue :: rest) :: r) qi)
         (mkState m q u (l ++ Pushing name (pushed ++ [issue]) rest :: r)
            (qi ++ [issue]))
| step_task_done m q u l name pushed r qi :
    (* the for loop is over: self.queue_workers.task_done() *)
    step (mkState m q (S u) (l ++ Pushing name pushed [] :: r) qi)
         (mkState m q u (l ++ Waiting :: r) qi)
| step_fail m q u l name r qi e :
    (* check_output, decode or parse_issues raised: the thread ends *)
    tidy_issues name = Some (Raise e) ->
    step (mkState m q u (l ++ Running name :: r) qi)
         (mkState m q u (l ++ Dead :: r) qi)
| step_join q ts qi :
    (* join() returns when every put has been matched by task_done *)
    step (mkState Joining q 0 ts qi) (mkState (Draining []) q 0 ts qi)
| step_drain issues q u ts issue qi :
    (* issue = self.queue_issues.get(); issues.append(issue) *)
    step (mkState (Draining issues) q u ts (issue :: qi))
         (mkState (Draining (issues ++ [issue])) q u ts qi)
| step_return issues q u ts :
    (* self.queue_issues.empty(): return issues *)
    step (mkState (Draining issues) q u ts [])
         (mkState (Returned issues) q u ts []).

Inductive steps : state -> state -> Prop :=
| steps_refl s : steps s s
| steps_step s1 s2 s3 : steps s1 s2 -> step s2 s3 -> steps s1 s3.

(** The state in which [run(checks, files)] starts on a fresh object:
    the pattern is compiled first, the threads are started, and the names
    to put are those the pattern selects. *)
Definition run_start (files database_files : list text) : option state :=
  match enqueued files database_files with
  | Some (Ok todo) =>
      Some (mkState (Filling todo) [] 0 (repeat Waiting workers) [])
  | Some (Raise e) => Some (mkState (Raised e) [] 0 [] [])
  | None => None
  end.
End Run.

(** Texts written line by line, each line ended by a newline. *)
Definition lines (ls : list string) : text :=
  concat (map (fun l => str l ++ [nl]) ls).

(** ** What a pattern can match

    [matches r s bol caps s' bol' caps']: the pattern [r] can consume the
    text between the position [s] and the later position [s'], turning the
    captures [caps] into [caps']. *)
Inductive matches : regex -> text -> bool -> captures ->
                    text -> bool -> captures -> Prop :=
| M_Eps s b c : matches Eps s b c s b c
| M_Chr cls x s b c :
    cls x = true -> matches (Chr cls) (x :: s) b c s (is_nl x) c
| M_Str p s b c : matches (Str p) (p ++ s) b c s (bol_after b p) c
| M_Bol s c : matches Bol s true c s true c
| M_Cat a b s0 b0 c0 s1 b1 c1 s2 b2 c2 :
    matches a s0 b0 c0 s1 b1 c1 -> matches b s1 b1 c1 s2 b2 c2 ->
    matches (Cat a b) s0 b0 c0 s2 b2 c2
| M_AltL a b s0 b0 c0 s1 b1 c1 :
    matches a s0 b0 c0 s1 b1 c1 -> matches (Alt a b) s0 b0 c0 s1 b1 c1
| M_AltR a b s0 b0 c0 s1 b1 c1 :
    matches b s0 b0 c0 s1 b1 c1 -> matches (Alt a b) s0 b0 c0 s1 b1 c1
| M_Plus cls m s b c :
    m <> [] -> forallb cls m = true ->
    matches (Plus cls) (m ++ s) b c s (is_nl (last m nl)) c
| M_OptY a s0 b0 c0 s1 b1 c1 :
    matches a s0 b0 c0 s1 b1 c1 -> matches (Opt a) s0 b0 c0 s1 b1 c1
| M_OptN a s b c : matches (Opt a) s b c s b c
| M_Grp n a s0 b0 c0 s1 b1 c1 :
    matches a s0 b0 c0 s1 b1 c1 ->
    matches (Grp n a) s0 b0 c0 s1 b1 (set_capture n (consumed s0 s1) c1).

(** The matches of a scan, in order between two positions: each one is not
    empty and starts no earlier than the previous one ended. *)
Fixpoint chain (lo : Z) (ms : list Match) (hi : Z) : Prop :=
  match ms with
  | [] => lo <= hi
  | m :: ms' => lo <= m_start m /\ m_start m < m_end m /\ chain (m_end m) ms' hi
  end.

(** What the header pattern captures. *)
Definition header_shape (m : Match) : Prop :=
  exists p l c k msg chk,
    m_groups m = [Some p; Some l; Some c; Some k; Some msg; chk] /\
    l <> [] /\ forallb is_digit l = true /\
    c <> [] /\ forallb is_digit c = true /\
    (k = str "warning" \/ k = str "error" \/ k = str "note").

(** What [ClangIssue.__init__] makes of a header. *)
Definition record_of (h : Match) (r : ClangIssue) : Prop :=
  type r = header_kind h /\ check r = header_check h /\ notes r = [] /\
  0 <= line r /\ 0 <= char r /\
  (type r = Some (str "warning") \/ type r = Some (str "error")
   \/ type r = Some (str "note")).

(** The records that end up in the result list. *)
Definition kept (r : ClangIssue) : bool :=
  is_problem r && negb (opt_text_eqb (check r) diagnostic_error).

Definition kept_header (h : Match) : bool :=
  problem_header h && negb (skipped_header h).

(** What holds of the notes and of the entries of the result list. *)
Definition note_ok (n : ClangIssue) : Prop :=
  type n = Some (str "note") /\ 0 <= line n /\ 0 <= char n.

Definition diag_ok (d : ClangIssue) : Prop :=
  (type d = Some (str "warning") \/ type d = Some (str "error")) /\
  0 <= line d /\ 0 <= char d /\ Forall note_ok (notes d).

(** The issue [i] with the notes [ns] after the notes it has, and the list
    in which the last issue, when there is one, got the notes [ns]. *)
Definition add_notes (i : ClangIssue) (ns : list ClangIssue) : ClangIssue :=
  {| path := path i; line := line i; char := char i; type := type i;
     message := message i; check := check i; body := body i;
     notes := notes i ++ ns |}.

Fixpoint attach (issues ns : list ClangIssue) : list ClangIssue :=
  match issues with
  | [] => []
  | [i] => [add_notes i ns]
  | i :: rest => i :: attach rest ns
  end.

(** The result as the description of the loop gives it, read off the
    records and not off the loop: the notes at the head of a list of
    records, up to the next record that is kept, the skipped records left
    out; and the entries, one for each record that is kept, with the notes
    that follow it up to the next record that is kept.  The notes before
    the first kept record are in no entry. *)
Fixpoint notes_up_to_kept (recs : list ClangIssue) : list ClangIssue :=
  match recs with
  | [] => []
  | r :: rest =>
      if kept r then []
      else if is_problem r then notes_up_to_kept rest
      else r :: notes_up_to_kept rest
  end.

Fixpoint grouped (recs : list ClangIssue) : list ClangIssue :=
  match recs with
  | [] => []
  | r :: rest =>
      if kept r then add_notes r (notes_up_to_kept rest) :: grouped rest
      else grouped rest
  end.

(** The bodies of the records of a scan of the text [t]: the body of the
    last record is the text after its header; the body of any other record
    and one more character fill the text between its header and the next
    one, and the body is empty when the next header follows at once. *)
Fixpoint bodies_between (t : text) (hs : list Match) (recs : list ClangIssue)
    : Prop :=
  match hs, recs with
  | [], [] => True
  | h :: hs', r :: recs' =>
      match hs' with
      | [] => body r = Some (skipn (Z.to_nat (m_end h)) t)
      | next :: _ =>
          exists b sep,
            body r = Some b /\
            (length sep = 1%nat \/
             (sep = [] /\ b = [] /\ m_end h = m_start next)) /\
            skipn (Z.to_nat (m_end h)) t
            = b ++ sep ++ skipn (Z.to_nat (m_start next)) t
      end /\ bodies_between t hs' recs'
  | _, _ => False
  end.


(** Two headers with check ids, each followed by one line of text. *)
Definition example_output : text :=
  lines ["a.cpp:1:1: warning: msg1 [c1]"; "BODY1";
         "a.cpp:2:1: note: msg2 [c2]"; "BODY2"].

Definition example_issues : list ClangIssue :=
  [ {| path := str "a.cpp"; line := 1; char := 1;
       type := Some (str "warning"); message := Some (str "msg1");
       check := Some (str "c1"); body := Some (str "BODY1");
       notes :=
         [ {| path := str "a.cpp"; line := 2; char := 1;
              type := Some (str "note"); message := Some (str "msg2");
              check := Some (str "c2"); body := Some (lines ["BODY2"]);
              notes := [] |} ] |} ].


(** A warning with a note, then a record that is skipped and a note after
    it. *)
Definition skipped_output : text :=
  lines ["a.cpp:1:1: warning: x [c]"; "  int x = y;";
         "a.cpp:2:1: note: here"; "  {";
         "b.cpp:2:1: error: bad [clang-diagnostic-error]";
         "b.cpp:3:3: note: more"; "{}"].

(** The records of its four headers, and what [parse_issues] makes of
    them: the warning with both notes. *)
Definition skipped_warning : ClangIssue :=
  {| path := str "a.cpp"; line := 1; char := 1;
     type := Some (str "warning"); message := Some (str "x");
     check := Some (str "c"); body := Some (str "  int x = y;");
     notes := [] |}.

Definition skipped_note : ClangIssue :=
  {| path := str "a.cpp"; line := 2; char := 1;
     type := Some (str "note"); message := Some (str "here");
     check := None; body := Some (str "  {"); notes := [] |}.

Definition skipped_error : ClangIssue :=
  {| path := str "b.cpp"; line := 2; char := 1;
     type := Some (str "error"); message := Some (str "bad");
     check := Some diagnostic_error; body := Some []; notes := [] |}.

Definition skipped_late_note : ClangIssue :=
  {| path := str "b.cpp"; line := 3; char := 3;
     type := Some (str "note"); message := Some (str "more");
     check := None; body := Some (lines ["{}"]); notes := [] |}.

Definition skipped_issues : list ClangIssue :=
  [ {| path := str "a.cpp"; line := 1; char := 1;
       type := Some (str "warning"); message := Some (str "x");
       check := Some (str "c"); body := Some (str "  int x = y;");
       notes := [skipped_note; skipped_late_note] |} ].

(** A header with line 0 and column 0. *)
Definition zero_output : text := lines ["a.cpp:0:0: warning: x [c]"].

(** The marker on the first line, followed by the list of checks and by a
    line that reads like a header. *)
Definition marker_first_output : text :=
  lines ["Enabled checks:"; "    some-check";
         "a.cpp:3:1: warning: x [c]"; "  body"].

(** A character that stands for itself in a pattern. *)
Definition is_plain (c : ascii) : bool :=
  negb (existsb (Ascii.eqb c) (str "().|") || is_special c).

(** The statement that the names put on the queue are the database entries
    that contain one of the fragments. *)
Definition selects_by_substring (files database_files : list text) : Prop :=
  exists names,
    enqueued files database_files = Some (Ok names) /\
    forall name,
      In name database_files ->
      (In name names <-> exists f, In f files /\ contains name f = true).

(** The pattern read from a plain fragment, and the pattern of the whole
    list of fragments. *)
Definition lits (acc : regex) (f : text) : regex :=
  fold_left (fun r c => Cat r (Chr (Ascii.eqb c))) f acc.

Definition branch (n : nat) (f : text) : regex :=
  Cat Eps (Grp n (lits Eps f)).

Fixpoint branches (acc : regex) (n : nat) (files : list text) : regex :=
  match files with
  | [] => acc
  | f :: files' => branches (Alt acc (branch n f)) (S n) files'
  end.

(** A pattern added to the alternatives read so far. *)
Definition with_alts (alts : option regex) (r : regex) : regex :=
  match alts with
  | None => r
  | Some a => Alt a r
  end.

(** A clang-tidy that exits with status 1 on every file, and the state in
    which a run with one worker and one file then ends up. *)
Definition failing_tool : text -> Z * bytes := fun _ => (1, []).

Definition blocked_state : state :=
  mkState Joining [] 1 [Dead] [].

(** The tasks that were taken from the queue and not marked done. *)
Definition owed (ts : list worker) : nat :=
  length (filter (fun w => match w with Waiting => false | _ => true end) ts).

(** What holds of every state of a run. *)
Definition balanced (s : state) : Prop :=
  unfinished_tasks s = (length (queue_workers s) + owed (threads s))%nat /\
  match main s with
  | Filling _ | Joining => True
  | Draining _ | Returned _ => unfinished_tasks s = 0%nat
  | Raised _ => threads s = [] /\ queue_workers s = []
  end.

(** The call of [run] has neither returned nor raised. *)
Definition pending (s : state) : Prop :=
  match main s with
  | Filling _ | Joining | Draining _ => True
  | Returned _ | Raised _ => False
  end.

(** A note before any warning. *)
Definition note_first_output : text :=
  lines ["a.cpp:2:1: note: early"; "  {";
         "a.cpp:3:1: warning: w [c]"; "  }"].

(** Inversion of what a pattern given by its constructors can match. *)
Ltac inv H := inversion H; subst; clear H.

Ltac inv_matches :=
  repeat match goal with
  | H : matches (Cat _ _) _ _ _ _ _ _ |- _ => inv H
  | H : matches (Grp _ _) _ _ _ _ _ _ |- _ => inv H
  | H : matches (Alt _ _) _ _ _ _ _ _ |- _ => inv H
  | H : matches (Opt _) _ _ _ _ _ _ |- _ => inv H
  | H : matches (Plus _) _ _ _ _ _ _ |- _ => inv H
  | H : matches (Chr _) _ _ _ _ _ _ |- _ => inv H
  | H : matches (Str _) _ _ _ _ _ _ |- _ => inv H
  | H : matches Bol _ _ _ _ _ _ |- _ => inv H
  | H : matches Eps _ _ _ _ _ _ |- _ => inv H
  end.

(** A header whose line number has 4301 digits, one more than [int]
    converts unless the limit was changed; and the same header of kind
    note. *)
Definition long_number_output : text :=
  str "a.cpp:" ++ repeat "1"%char 4301 ++ str ":1: warning: x [c]" ++ [nl].

Definition long_note_output : text :=
  str "a.cpp:" ++ repeat "1"%char 4301 ++ str ":1: note: x" ++ [nl].

(** ** The result read in textual order *)

(** An issue without its notes, and a result list laid out flat: every
    entry followed by its notes. *)
Definition bare (d : ClangIssue) : ClangIssue :=
  {| path := path d; line := line d; char := char d; type := type d;
     message := message d; check := check d; body := body d; notes := [] |}.

Definition flatten (issues : list ClangIssue) : list ClangIssue :=
  flat_map (fun d => bare d :: notes d) issues.

(** A record of kind warning or error with the check id that is skipped. *)
Definition skipped (r : ClangIssue) : bool :=
  is_problem r && opt_text_eqb (check r) diagnostic_error.

(** The records from the first one that is kept. *)
Fixpoint from_first_kept (recs : list ClangIssue) : list ClangIssue :=
  match recs with
  | [] => []
  | r :: rest => if kept r then recs else from_first_kept rest
  end.

(** The text of a header, put together again from the groups it gave. *)
Definition header_text (groups : list (option text)) : text :=
  match groups with
  | [Some p; Some l; Some c; Some k; Some msg; chk] =>
      p ++ str ":" ++ l ++ str ":" ++ c ++ str ": " ++ k ++ str ": " ++ msg
      ++ match chk with
         | Some ck => str " [" ++ ck ++ str "]"
         | None => []
         end
      ++ [nl]
  | _ => []
  end.

(** What the groups of a header hold. *)
Definition header_groups (groups : list (option text)) : Prop :=
  exists p l c k msg chk,
    groups = [Some p; Some l; Some c; Some k; Some msg; chk] /\
    (p <> [] /\ forallb is_dot p = true) /\
    (l <> [] /\ forallb is_digit l = true) /\
    (c <> [] /\ forallb is_digit c = true) /\
    (k = str "warning" \/ k = str "error" \/ k = str "note") /\
    (msg <> [] /\ forallb is_message msg = true) /\
    (chk = None \/
     exists ck, chk = Some ck /\ ck <> [] /\ forallb is_check ck = true).

(** [laid_out t hs recs]: the text [t] is, header after header, the text
    of the header, the body of its record and, before the next header, one
    more character, or none when the next header follows at once; the body
    of the last record runs to the end of the text. *)
Fixpoint laid_out (t : text) (hs : list Match) (recs : list ClangIssue)
    {struct hs} : Prop :=
  match hs, recs with
  | [], [] => True
  | h :: hs', r :: recs' =>
      exists b rest,
        body r = Some b /\
        t = header_text (m_groups h) ++ b ++ rest /\
        match hs' with
        | [] => rest = []
        | _ :: _ =>
            exists sep t',
              rest = sep ++ t' /\
              (length sep = 1%nat \/ (sep = [] /\ b = [])) /\
              laid_out t' hs' recs'
        end
  | _, _ => False
  end.

(** The text that is scanned: what comes before the first header is in no
    record, and from there on the text is laid out in headers and
    bodies. *)
Definition scanned_as (t : text) (hs : list Match) (recs : list ClangIssue)
    : Prop :=
  match hs with
  | [] => recs = []
  | h :: _ =>
      exists pre t',
        t = pre ++ t' /\ m_start h = len pre /\ laid_out t' hs recs
  end.

(** The issue [d], leaving its notes aside, is the one [__init__] makes of
    the header [h], with some body. *)
Definition made_from (max_str_digits : nat) (work_dir : text) (h : Match)
    (d : ClangIssue) : Prop :=
  exists i b,
    ClangIssue_init max_str_digits (m_groups h) work_dir = Ok i /\
    bare d = set_body i b.

(** A line that is a header as the grammar has it, with the groups it is
    made of: the path, the line, the column, the kind, the message and the
    check id in brackets when there is one, all on one line. *)
Definition header_line (l : string) (groups : list (option text)) : Prop :=
  header_groups groups /\
  header_text groups = str l ++ [nl] /\
  forallb is_dot (str l) = true.

(** The number of entries the description gives for a text made of header
    lines with the given groups: the headers of kind warning or error,
    less those of them whose check id is clang-diagnostic-error. *)
Definition described_count (headers : list (list (option text))) : nat :=
  length (filter (fun g => opt_text_eqb (nth 3 g None) (str "warning")
                           || opt_text_eqb (nth 3 g None) (str "error"))
            headers)
  - length (filter (fun g => (opt_text_eqb (nth 3 g None) (str "warning")
                              || opt_text_eqb (nth 3 g None) (str "error"))
                             && opt_text_eqb (nth 5 g None) diagnostic_error)
              headers).

(** Three header lines: a warning, a note and a second warning. *)
Definition note_between_output : text :=
  lines ["a.cpp:1:1: warning: first [c1]";
         "a.cpp:1:5: note: see here";
         "b.cpp:2:2: warning: second [c2]"].

(** A property of all the entries of a result and of all their notes. *)
Definition all_issues (P : ClangIssue -> Prop) (issues : list ClangIssue)
    : Prop :=
  Forall (fun d => P d /\ Forall P (notes d)) issues.

(** The message, the check id and the path of an issue are well formed. *)
Definition fields_ok (d : ClangIssue) : Prop :=
  (exists m, message d = Some m /\ m <> [] /\ forallb is_message m = true) /\
  (check d = None \/
   exists ck, check d = Some ck /\ ck <> [] /\ forallb is_check ck = true) /\
  forallb is_dot (path d) = true.

(** The path of an issue is the path [p] of its header, less the work
    directory when [p] starts with it. *)
Definition path_from (work_dir p : text) (d : ClangIssue) : Prop :=
  (startswith p work_dir = true /\ p = work_dir ++ path d) \/
  (startswith p work_dir = false /\ path d = p).

(** A header line that is not ended by a newline. *)
Definition unended_output : text := str "a.cpp:1:1: warning: x [c]".

(** A header, a blank line, the marker line, and a line after it that
    reads like a header. *)
Definition marker_later_output : text :=
  lines ["a.cpp:1:1: warning: x [c]"; ""; "Enabled checks:";
         "b.cpp:2:2: warning: y [d]"].

(** The end of REGEX_HEADER: what follows the message, and the message
    with what follows it. *)
Definition HEADER_REST : regex :=
  cat [Opt (cat [Str (str " ["); Grp 6 (Plus is_check); Str (str "]")]);
       Chr is_nl].

Definition HEADER_TAIL : regex :=
  Cat (Grp 5 (Plus is_message)) HEADER_REST.

(** A text of message characters with two header lines. *)
Definition swallowed_output : text :=
  lines ["a.cpp:1:1: warning: first"; "b.cpp:2:2: warning: second"].

(** ** Fragments with dots *)

(** The pattern of one character of a fragment: the dot stands for any
    character but the newline, a plain character for itself. *)
Definition fragment_class (c : ascii) : ascii -> bool :=
  if Ascii.eqb c "." then is_dot else Ascii.eqb c.

Definition is_name_char (c : ascii) : bool :=
  is_plain c || Ascii.eqb c ".".

(** The text [w] fits the fragment [f] read as a pattern. *)
Fixpoint fits (f w : text) : bool :=
  match f, w with
  | [], [] => true
  | c :: f', x :: w' => fragment_class c x && fits f' w'
  | _, _ => false
  end.

(** The fragment fits at the start of the text, and somewhere in it. *)
Fixpoint fits_start (f s : text) : bool :=
  match f with
  | [] => true
  | c :: f' =>
      match s with
      | x :: s' => fragment_class c x && fits_start f' s'
      | [] => false
      end
  end.

Fixpoint found (f s : text) : bool :=
  fits_start f s ||
  match s with
  | [] => false
  | _ :: s' => found f s'
  end.

Definition atoms (acc : regex) (f : text) : regex :=
  fold_left (fun r c => Cat r (Chr (fragment_class c))) f acc.

Definition dotted_branch (n : nat) (f : text) : regex :=
  Cat Eps (Grp n (atoms Eps f)).

Fixpoint dotted_branches (acc : regex) (n : nat) (files : list text) : regex :=
  match files with
  | [] => acc
  | f :: files' => dotted_branches (Alt acc (dotted_branch n f)) (S n) files'
  end.

(** ** The course of a run *)

(** The names the threads hold, the issues the threads in the for loop
    have put so far, and the number of threads that an exception ended. *)
Fixpoint busy (ts : list worker) : list text :=
  match ts with
  | [] => []
  | Running name :: ts' => name :: busy ts'
  | Pushing name _ _ :: ts' => name :: busy ts'
  | _ :: ts' => busy ts'
  end.

Fixpoint pushed_parts (ts : list worker) : list (list ClangIssue) :=
  match ts with
  | [] => []
  | Pushing _ pushed _ :: ts' => pushed :: pushed_parts ts'
  | _ :: ts' => pushed_parts ts'
  end.

Definition dead_count (ts : list worker) : nat :=
  length (filter (fun w => match w with Dead => true | _ => false end) ts).

(** The names the caller has still to put, and the issues collected so
    far: those the caller took back and those still in the queue. *)
Definition to_put (s : state) : list text :=
  match main s with
  | Filling todo => todo
  | _ => []
  end.

Definition collected (s : state) : list ClangIssue :=
  match main s with
  | Draining issues | Returned issues => issues ++ queue_issues s
  | _ => queue_issues s
  end.

(** The issues one invocation on a file gives. *)
Definition issues_of (max_str_digits : nat) (work_dir : text)
    (clang_tidy : text -> Z * bytes) (name : text) : list ClangIssue :=
  match tidy_issues max_str_digits work_dir clang_tidy name with
  | Some (Ok issues) => issues
  | _ => []
  end.

(** [interleaved ls out]: the list [out] is made of the lists [ls] merged
    into one, every list keeping its order. *)
Inductive interleaved {A : Type} : list (list A) -> list A -> Prop :=
| interleaved_nil ls : Forall (fun l => l = []) ls -> interleaved ls []
| interleaved_snoc l1 xs l2 x out :
    interleaved (l1 ++ xs :: l2) out ->
    interleaved (l1 ++ (xs ++ [x]) :: l2) (out ++ [x]).

(** A thread in the for loop runs over the issues of its file. *)
Definition thread_ok (max_str_digits : nat) (work_dir : text)
    (clang_tidy : text -> Z * bytes) (w : worker) : Prop :=
  match w with
  | Pushing name pushed rest =>
      tidy_issues max_str_digits work_dir clang_tidy name
      = Some (Ok (pushed ++ rest))
  | _ => True
  end.

(** The names of a run are all accounted for: those done, on which the
    invocation gave a list of issues, with the issues collected, which are
    the issues of the files done and those the threads in the for loop
    have put, merged; those a thread holds; those lost with a thread; those
    in the queue; those still to put. *)
Definition accounted (max_str_digits : nat) (work_dir : text)
    (clang_tidy : text -> Z * bytes) (todo : list text) (s : state) : Prop :=
  exists done lost,
    Forall (fun name =>
              tidy_issues max_str_digits work_dir clang_tidy name
              = Some (Ok (issues_of max_str_digits work_dir clang_tidy name)))
      done /\
    interleaved
      (map (issues_of max_str_digits work_dir clang_tidy) done
       ++ pushed_parts (threads s))
      (collected s) /\
    Forall (thread_ok max_str_digits work_dir clang_tidy) (threads s) /\
    length lost = dead_count (threads s) /\
    Permutation (done ++ busy (threads s) ++ lost
                 ++ queue_workers s ++ to_put s) todo.

(** How far a run is from its end: the steps still to take for a name (put,
    get, the invocation, task_done, and a put and a get for each of its
    issues), for the issues in the queue, and for the caller. *)
Definition phase (m : caller) : nat :=
  match m with
  | Filling _ => 3
  | Joining => 2
  | Draining _ => 1
  | _ => 0
  end.

Definition cost (max_str_digits : nat) (work_dir : text)
    (clang_tidy : text -> Z * bytes) (name : text) : nat :=
  2 * length (issues_of max_str_digits work_dir clang_tidy name).

Definition total_cost (max_str_digits : nat) (work_dir : text)
    (clang_tidy : text -> Z * bytes) (k : nat) (names : list text) : nat :=
  list_sum (map (fun name => k + cost max_str_digits work_dir clang_tidy name)
              names)%nat.

Fixpoint threads_cost (max_str_digits : nat) (work_dir : text)
    (clang_tidy : text -> Z * bytes) (ts : list worker) : nat :=
  match ts with
  | [] => 0
  | Running name :: ts' =>
      2 + cost max_str_digits work_dir clang_tidy name
      + threads_cost max_str_digits work_dir clang_tidy ts'
  | Pushing _ _ rest :: ts' =>
      1 + 2 * length rest
      + threads_cost max_str_digits work_dir clang_tidy ts'
  | _ :: ts' => threads_cost max_str_digits work_dir clang_tidy ts'
  end.

Definition distance (max_str_digits : nat) (work_dir : text)
    (clang_tidy : text -> Z * bytes) (s : state) : nat :=
  total_cost max_str_digits work_dir clang_tidy 4 (to_put s)
  + total_cost max_str_digits work_dir clang_tidy 3 (queue_workers s)
  + threads_cost max_str_digits work_dir clang_tidy (threads s)
  + length (queue_issues s) + phase (main s).

(** A run in which no thread has ended and nothing was raised. *)
Definition healthy (workers : nat) (s : state) : Prop :=
  balanced s /\ dead_count (threads s) = 0%nat /\
  length (threads s) = workers /\
  match main s with Raised _ => False | _ => True end.

(** The bytes of a text of characters below 128. *)
Definition encode (t : text) : bytes := map byte_of_ascii t.

(** An invocation that exits with status 0 and prints the example text. *)
Definition passing_tool : text -> Z * bytes :=
  fun _ => (0, encode example_output).

(** Two warnings with check ids, and a clang-tidy that prints them for
    one file and the example text for the others. *)
Definition two_warnings_output : text :=
  lines ["b.cpp:1:1: warning: w1 [c1]"; "b.cpp:2:1: warning: w2 [c2]"].

Definition first_warning : ClangIssue :=
  {| path := str "b.cpp"; line := 1; char := 1;
     type := Some (str "warning"); message := Some (str "w1");
     check := Some (str "c1"); body := Some []; notes := [] |}.

Definition second_warning : ClangIssue :=
  {| path := str "b.cpp"; line := 2; char := 1;
     type := Some (str "warning"); message := Some (str "w2");
     check := Some (str "c2"); body := Some []; notes := [] |}.

Definition two_files_tool : text -> Z * bytes :=
  fun name =>
    if text_eqb name (str "/src/b.cpp") then (0, encode two_warnings_output)
    else (0, encode example_output).

(** Lists that differ in the way they are put together. *)
Ltac assoc := cbn [app]; rewrite <- ?app_assoc; cbn [app]; reflexivity.


(** A clang-tidy that exits with status 0 and prints a header whose line
    number is over the limit of int. *)
Definition long_number_tool : text -> Z * bytes :=
  fun _ => (0, encode long_number_output).

(** * Properties *)

(** ** Text *)

Lemma text_eqb_eq (a b : text) : text_eqb a b = true <-> a = b.
Proof.
  revert b; induction a as [|x a IH]; intros [|y b]; simpl; split;
    try congruence; try reflexivity.
  - intros H. apply andb_true_iff in H as [H1 H2].
    apply Ascii.eqb_eq in H1. apply IH in H2. congruence.
  - intros H. injection H as -> ->.
    rewrite Ascii.eqb_refl. simpl. now apply IH.
Qed.

Lemma consumed_app (m s : text) : consumed (m ++ s) s = m.
Proof.
  unfold consumed. rewrite length_app.
  replace (length m + length s - length s)%nat with (length m) by lia.
  rewrite firstn_app, Nat.sub_diag, firstn_all. simpl. apply app_nil_r.
Qed.

(** ** The matcher finds only what the pattern can match *)

Lemma plus_greedy_sound {R} cls s (k : text -> bool -> option R) x :
  plus_greedy cls s k = Some x ->
  exists m s', s = m ++ s' /\ m <> [] /\ forallb cls m = true /\
               k s' (is_nl (last m nl)) = Some x.
Proof.
  induction s as [|c s IH]; simpl; [discriminate|].
  destruct (cls c) eqn:Hc; [|discriminate].
  destruct (plus_greedy cls s k) as [y|] eqn:Hrec.
  - intros [= ->]. destruct (IH eq_refl) as (m & s' & -> & Hm & Hall & Hk).
    exists (c :: m), s'. repeat split; try discriminate.
    + simpl. now rewrite Hc.
    + destruct m; [congruence|]. exact Hk.
  - intros Hk. exists [c], s. repeat split; try discriminate.
    + simpl. now rewrite Hc.
    + exact Hk.
Qed.

Lemma lit_sound {R} p : forall s bol (k : text -> bool -> option R) x,
  lit p s bol k = Some x ->
  exists s', s = p ++ s' /\ k s' (bol_after bol p) = Some x.
Proof.
  induction p as [|c p IH]; simpl; intros s bol k x H.
  - now exists s.
  - destruct s as [|y s]; [discriminate|].
    destruct (Ascii.eqb c y) eqn:Hc; [|discriminate].
    apply Ascii.eqb_eq in Hc. subst y.
    apply IH in H as (s' & -> & H). exists s'. split; [reflexivity|].
    destruct p; exact H.
Qed.

Lemma rmatch_sound {R} r : forall s bol caps (k : @cont R) x,
  rmatch r s bol caps k = Some x ->
  exists s' bol' caps',
    matches r s bol caps s' bol' caps' /\ k s' bol' caps' = Some x.
Proof.
  induction r as [|cls|p| |a IHa b IHb|a IHa b IHb|cls|a IHa|n a IHa];
    intros s bol caps k x; simpl.
  - intros H. exists s, bol, caps. split; [constructor|exact H].
  - destruct s as [|c s]; [discriminate|].
    destruct (cls c) eqn:Hc; [|discriminate].
    intros H. exists s, (is_nl c), caps. split; [now constructor|exact H].
  - intros H. apply lit_sound in H as (s' & -> & H).
    exists s', (bol_after bol p), caps. split; [constructor|exact H].
  - destruct bol; [|discriminate].
    intros H. exists s, true, caps. split; [constructor|exact H].
  - intros H. apply IHa in H as (s1 & b1 & c1 & Ha & H).
    apply IHb in H as (s2 & b2 & c2 & Hb & H).
    exists s2, b2, c2. split; [econstructor; eassumption|exact H].
  - destruct (rmatch a s bol caps k) as [y|] eqn:Ha.
    + intros [= ->]. apply IHa in Ha as (s1 & b1 & c1 & Ha & H).
      exists s1, b1, c1. split; [now apply M_AltL|exact H].
    + intros H. apply IHb in H as (s1 & b1 & c1 & Hb & H).
      exists s1, b1, c1. split; [now apply M_AltR|exact H].
  - intros H. apply plus_greedy_sound in H as (m & s' & -> & Hm & Hall & H).
    exists s', (is_nl (last m nl)), caps. split; [now constructor|exact H].
  - destruct (rmatch a s bol caps k) as [y|] eqn:Ha.
    + intros [= ->]. apply IHa in Ha as (s1 & b1 & c1 & Ha & H).
      exists s1, b1, c1. split; [now apply M_OptY|exact H].
    + intros H. exists s, bol, caps. split; [apply M_OptN|exact H].
  - intros H. apply IHa in H as (s1 & b1 & c1 & Ha & H).
    exists s1, b1, (set_capture n (consumed s s1) c1).
    split; [constructor; exact Ha|exact H].
Qed.

(** A match consumes a prefix of the text. *)
Lemma matches_suffix r s b c s' b' c' :
  matches r s b c s' b' c' -> exists m, s = m ++ s'.
Proof.
  induction 1 as [| cls x | p | | a b s0 b0 c0 s1 b1 c1 s2 b2 c2 _ [m1 ->] _ [m2 ->]
                 | | | cls m | | | ];
    try assumption; try (now exists []).
  - now exists [x].
  - now exists p.
  - exists (m1 ++ m2). now rewrite app_assoc.
  - now exists m.
Qed.

(** ** What REGEX_HEADER captures *)

Lemma header_matches s bol s' bol' caps' :
  matches REGEX_HEADER s bol no_captures s' bol' caps' ->
  (length s' < length s)%nat /\
  exists p l c k msg chk,
    map caps' (seq 1 (ngroups REGEX_HEADER))
      = [Some p; Some l; Some c; Some k; Some msg; chk] /\
    l <> [] /\ forallb is_digit l = true /\
    c <> [] /\ forallb is_digit c = true /\
    (k = str "warning" \/ k = str "error" \/ k = str "note").
Proof.
  intros H. cbv [REGEX_HEADER cat fold_right] in H.
  inv_matches.
  all: split; [repeat (rewrite ?length_app; simpl length); lia|].
  all: cbn [ngroups REGEX_HEADER cat fold_right Nat.add seq map set_capture Nat.eqb].
  all: rewrite ?consumed_app.
  all: do 6 eexists; split; [reflexivity|]; repeat split; auto.
Qed.

Lemma match_here_header s pos bol m :
  match_here REGEX_HEADER s pos bol = Some m ->
  header_shape m /\ m_start m = pos /\ pos < m_end m <= pos + len s.
Proof.
  unfold match_here. intros H.
  apply rmatch_sound in H as (s' & bol' & caps' & Hm & [= <-]).
  apply header_matches in Hm as [Hlen Hshape]. simpl.
  split; [exact Hshape|]. unfold len. split; lia.
Qed.

(** ** The scan *)

Lemma chain_weaken lo lo' ms hi :
  lo <= lo' -> chain lo' ms hi -> chain lo ms hi.
Proof. destruct ms; simpl; intros; intuition lia. Qed.

Lemma chain_starts ms : forall lo hi,
  chain lo ms hi -> Forall (fun m => lo <= m_start m) ms.
Proof.
  induction ms as [|m ms IH]; simpl; intros lo hi H; constructor.
  - tauto.
  - destruct H as (H1 & H2 & H3). apply IH in H3.
    eapply Forall_impl; [|exact H3]. simpl. intros; lia.
Qed.

Lemma chain_bound ms : forall lo hi, chain lo ms hi -> lo <= hi.
Proof.
  induction ms as [|m ms IH]; simpl; intros lo hi H; [exact H|].
  destruct H as (H1 & H2 & H3). apply IH in H3. lia.
Qed.

Section Scan.
Variable r : regex.
Variable P : Match -> Prop.
Hypothesis match_here_P : forall s pos bol m,
  match_here r s pos bol = Some m ->
  P m /\ m_start m = pos /\ pos < m_end m <= pos + len s.

Lemma finditer_from_chain : forall s pos bol skip,
  (skip <= length s)%nat ->
  chain (pos + Z.of_nat skip) (finditer_from r s pos bol skip) (pos + len s)
  /\ Forall P (finditer_from r s pos bol skip).
Proof.
  induction s as [|c s IH]; intros pos bol skip Hskip.
  - simpl in Hskip. assert (skip = 0%nat) as -> by lia. simpl.
    destruct (match_here r [] pos bol) as [m|] eqn:Hm.
    + apply match_here_P in Hm. unfold len in Hm. simpl in Hm. lia.
    + simpl. unfold len. simpl. split; [lia|constructor].
  - assert (Hlen : len (c :: s) = 1 + len s)
      by (unfold len; simpl length; lia).
    rewrite Hlen. replace (pos + (1 + len s)) with (pos + 1 + len s) by lia.
    destruct skip as [|n]; simpl finditer_from.
    + destruct (match_here r (c :: s) pos bol) as [m|] eqn:Hm.
      * apply match_here_P in Hm as (HP & Hstart & Hend).
        rewrite Hlen in Hend.
        destruct (IH (pos + 1) (is_nl c)
                     (Z.to_nat (m_end m - m_start m) - 1)%nat) as [Hc HF].
        { unfold len in Hend. lia. }
        split; [|constructor; assumption].
        cbn [chain]. repeat split; try lia.
        eapply chain_weaken; [|exact Hc]. lia.
      * destruct (IH (pos + 1) (is_nl c) 0%nat) as [Hc HF]; [lia|].
        split; [|exact HF]. eapply chain_weaken; [|exact Hc]. lia.
    + simpl in Hskip.
      destruct (IH (pos + 1) (is_nl c) n) as [Hc HF]; [lia|].
      split; [|exact HF]. eapply chain_weaken; [|exact Hc]. lia.
Qed.

Lemma finditer_chain s :
  chain 0 (finditer r s) (len s) /\ Forall P (finditer r s).
Proof.
  unfold finditer.
  destruct (finditer_from_chain s 0 true 0) as [Hc HF]; [lia|].
  split; [exact Hc|exact HF].
Qed.
End Scan.

(** Matches that come in order are left as they are by the sort. *)
Lemma insert_by_start_last m acc :
  Forall (fun x => m_start x <= m_start m) acc ->
  insert_by_start m acc = acc ++ [m].
Proof.
  induction 1 as [|x acc Hx _ IH]; simpl; [reflexivity|].
  destruct (m_start m <? m_start x) eqn:E.
  - apply Z.ltb_lt in E. lia.
  - now rewrite IH.
Qed.

Lemma sorted_by_start_chain ms : forall lo hi acc,
  chain lo ms hi ->
  Forall (fun x => m_start x <= lo) acc ->
  fold_left (fun acc m => insert_by_start m acc) ms acc = acc ++ ms.
Proof.
  induction ms as [|m ms IH]; simpl; intros lo hi acc Hc Hacc.
  - now rewrite app_nil_r.
  - destruct Hc as (H1 & H2 & H3).
    rewrite insert_by_start_last.
    + rewrite (IH (m_end m) hi); [now rewrite <- app_assoc|exact H3|].
      apply Forall_app. split.
      * eapply Forall_impl; [|exact Hacc]. simpl. intros; lia.
      * constructor; [lia|constructor].
    + eapply Forall_impl; [|exact Hacc]. simpl. intros; lia.
Qed.

Lemma headers_of_finditer clang_output :
  headers_of clang_output
  = finditer REGEX_HEADER (limit_output clang_output).
Proof.
  unfold headers_of, sorted_by_start.
  destruct (finditer_chain REGEX_HEADER header_shape match_here_header
              (limit_output clang_output)) as [Hc _].
  now rewrite (sorted_by_start_chain _ 0 _ [] Hc).
Qed.

Lemma headers_of_chain clang_output :
  chain 0 (headers_of clang_output) (len (limit_output clang_output))
  /\ Forall header_shape (headers_of clang_output).
Proof.
  rewrite headers_of_finditer.
  apply finditer_chain, match_here_header.
Qed.

(** ** The records *)

Lemma is_digit_code c : is_digit c = true -> 0 <= code c - 48.
Proof.
  unfold is_digit, in_range. intros H.
  apply andb_true_iff in H as [H _]. apply Z.leb_le in H. lia.
Qed.

Lemma int_digits_ok (s : text) : forall acc,
  forallb is_digit s = true -> 0 <= acc ->
  exists z, int_digits s acc = Ok z /\ 0 <= z.
Proof.
  induction s as [|c s IH]; cbn [int_digits forallb]; intros acc H Hacc.
  - now exists acc.
  - apply andb_true_iff in H as [Hc Hs]. rewrite Hc.
    apply IH; [exact Hs|]. apply is_digit_code in Hc. lia.
Qed.

Lemma int_ok L (s : text) :
  s <> [] -> forallb is_digit s = true -> over_limit L s = false ->
  exists z, int_ L (Some s) = Ok z /\ 0 <= z.
Proof.
  intros Hne H Hl. destruct s as [|c s]; [congruence|].
  unfold int_. rewrite Hl.
  apply (int_digits_ok (c :: s) 0 H). lia.
Qed.

Lemma int_over L (s : text) :
  s <> [] -> over_limit L s = true -> int_ L (Some s) = Raise ValueError.
Proof.
  intros Hne H. destruct s as [|c s]; [congruence|].
  unfold int_. now rewrite H.
Qed.

Lemma ClangIssue_init_ok L work_dir h :
  header_shape h -> header_within L h = true ->
  exists i, ClangIssue_init L (m_groups h) work_dir = Ok i /\ record_of h i
            /\ body i = None.
Proof.
  intros (p & l & c & k & msg & chk & Hg & Hl & Hld & Hc & Hcd & Hk) Hw.
  unfold header_within in Hw. rewrite Hg in Hw. cbn [nth number_within] in Hw.
  apply andb_true_iff in Hw as [Hwl Hwc].
  apply negb_true_iff in Hwl, Hwc.
  unfold ClangIssue_init, record_of, header_kind, header_check.
  rewrite Hg. cbn [bind].
  destruct (int_ok L l Hl Hld Hwl) as (zl & El & Hzl).
  destruct (int_ok L c Hc Hcd Hwc) as (zc & Ec & Hzc).
  eexists. rewrite El. cbn [bind]. rewrite Ec. cbn [bind].
  split; [reflexivity|]. simpl.
  repeat split; try assumption.
  destruct Hk as [-> | [-> | ->]]; auto.
Qed.

(** A header with a number over the limit makes [__init__] raise. *)
Lemma ClangIssue_init_over L work_dir h :
  header_shape h -> header_within L h = false ->
  ClangIssue_init L (m_groups h) work_dir = Raise ValueError.
Proof.
  intros (p & l & c & k & msg & chk & Hg & Hl & Hld & Hc & Hcd & Hk) Hw.
  unfold header_within in Hw. rewrite Hg in Hw. cbn [nth number_within] in Hw.
  unfold ClangIssue_init. rewrite Hg. cbn [bind].
  destruct (over_limit L l) eqn:El.
  - now rewrite (int_over L l Hl El).
  - destruct (int_ok L l Hl Hld El) as (zl & -> & _). cbn [bind].
    cbn [negb andb] in Hw. apply negb_false_iff in Hw.
    now rewrite (int_over L c Hc Hw).
Qed.

Lemma set_body_record h i b : record_of h i -> record_of h (set_body i b).
Proof. exact (fun H => H). Qed.

Lemma issue_records_ok L work_dir clang_output hs :
  Forall header_shape hs -> forallb (header_within L) hs = true ->
  exists recs, issue_records L work_dir clang_output hs = Ok recs
               /\ Forall2 record_of hs recs.
Proof.
  induction 1 as [|h hs Hh _ IH]; cbn [forallb issue_records]; intros Hw.
  - exists []. split; [reflexivity|constructor].
  - apply andb_true_iff in Hw as [Hwh Hws].
    destruct (IH Hws) as (recs & E & HF).
    destruct (ClangIssue_init_ok L work_dir h Hh Hwh) as (i & -> & Hi & _).
    cbn [bind]. rewrite E. cbn [bind]. eexists. split; [reflexivity|].
    constructor; [|exact HF]. apply set_body_record, Hi.
Qed.

Lemma issue_records_over L work_dir clang_output hs :
  Forall header_shape hs -> forallb (header_within L) hs = false ->
  issue_records L work_dir clang_output hs = Raise ValueError.
Proof.
  induction 1 as [|h hs Hh _ IH]; cbn [forallb issue_records]; intros Hw.
  - discriminate Hw.
  - destruct (header_within L h) eqn:Hwh.
    + destruct (ClangIssue_init_ok L work_dir h Hh Hwh) as (i & -> & _).
      cbn [bind]. now rewrite (IH Hw).
    + now rewrite (ClangIssue_init_over L work_dir h Hh Hwh).
Qed.

(** The loop classifies the records from left to right. *)
Lemma parse_loop_records L work_dir clang_output hs : forall issues,
  parse_loop L work_dir clang_output hs issues
  = (recs <- issue_records L work_dir clang_output hs ;;
     Ok (fold_left classify recs issues)).
Proof.
  induction hs as [|h hs IH]; intros issues; simpl; [reflexivity|].
  destruct (ClangIssue_init L (m_groups h) work_dir) as [i|e]; simpl;
    [|reflexivity].
  rewrite IH.
  destruct (issue_records L work_dir clang_output hs); reflexivity.
Qed.

Lemma parse_issues_records L work_dir clang_output :
  within_limit L clang_output = true ->
  exists recs,
    issue_records L work_dir (limit_output clang_output) (headers_of clang_output)
      = Ok recs
    /\ Forall2 record_of (headers_of clang_output) recs
    /\ parse_issues L work_dir clang_output = Ok (fold_left classify recs []).
Proof.
  intros Hw. destruct (headers_of_chain clang_output) as [_ HF].
  destruct (issue_records_ok L work_dir (limit_output clang_output) _ HF Hw)
    as (recs & Hrecs & H2).
  exists recs. split; [exact Hrecs|]. split; [exact H2|].
  unfold parse_issues. fold (headers_of clang_output).
  now rewrite parse_loop_records, Hrecs.
Qed.

(** With a number over the limit in some header, nothing is returned. *)
Lemma parse_issues_over L work_dir clang_output :
  within_limit L clang_output = false ->
  parse_issues L work_dir clang_output = Raise ValueError.
Proof.
  intros Hw. destruct (headers_of_chain clang_output) as [_ HF].
  unfold parse_issues. fold (headers_of clang_output).
  rewrite parse_loop_records.
  now rewrite (issue_records_over L work_dir _ _ HF Hw).
Qed.

(** ** The limit of int *)

Lemma int_limit L v : number_within L v = true -> int_ L v = int_ 0 v.
Proof.
  destruct v as [[|c s]|]; try reflexivity. cbn [number_within]. intros H.
  apply negb_true_iff in H. unfold int_. now rewrite H.
Qed.

Lemma ClangIssue_init_limit L work_dir h :
  header_within L h = true ->
  ClangIssue_init L (m_groups h) work_dir
  = ClangIssue_init 0 (m_groups h) work_dir.
Proof.
  unfold header_within, ClangIssue_init.
  destruct (m_groups h) as [|g1 [|g2 [|g3 [|g4 [|g5 [|g6 [|g7 gs]]]]]]];
    try reflexivity.
  cbn [nth]. intros H. apply andb_true_iff in H as [H2 H3].
  now rewrite (int_limit L g2 H2), (int_limit L g3 H3).
Qed.

Lemma parse_loop_limit L work_dir clang_output hs : forall issues,
  forallb (header_within L) hs = true ->
  parse_loop L work_dir clang_output hs issues
  = parse_loop 0 work_dir clang_output hs issues.
Proof.
  induction hs as [|h hs IH]; intros issues; cbn [forallb parse_loop];
    [reflexivity|].
  intros H. apply andb_true_iff in H as [Hh Hs].
  rewrite (ClangIssue_init_limit L work_dir h Hh).
  destruct (ClangIssue_init 0 (m_groups h) work_dir) as [i|e]; cbn [bind];
    [|reflexivity].
  now apply IH.
Qed.

(** Within the limit, the result is that of an interpreter without limit. *)
Lemma parse_issues_limit L work_dir clang_output :
  within_limit L clang_output = true ->
  parse_issues L work_dir clang_output = parse_issues 0 work_dir clang_output.
Proof. intros H. unfold parse_issues. now apply parse_loop_limit. Qed.

Lemma over_limit_short L (s : text) :
  over_limit 1 s = false -> over_limit L s = false.
Proof.
  unfold over_limit. intros H.
  apply andb_false_iff. apply andb_false_iff in H as [H|H]; [discriminate|].
  apply Nat.ltb_ge in H.
  destruct L; [left; reflexivity|right; apply Nat.ltb_ge; lia].
Qed.

(** Without a limit every text is within it. *)
Lemma within_no_limit clang_output : within_limit 0 clang_output = true.
Proof.
  unfold within_limit. apply forallb_forall. intros h _.
  unfold header_within.
  now destruct (nth 1 (m_groups h) None), (nth 2 (m_groups h) None).
Qed.

(** Numbers of one digit are within every limit. *)
Lemma within_short L clang_output :
  within_limit 1 clang_output = true -> within_limit L clang_output = true.
Proof.
  unfold within_limit. rewrite !forallb_forall. intros H h Hh.
  specialize (H h Hh). unfold header_within in *.
  apply andb_true_iff in H as [H2 H3]. apply andb_true_iff.
  assert (E : forall v, number_within 1 v = true -> number_within L v = true).
  { intros [s|]; [|reflexivity]. cbn [number_within]. intros Hs.
    apply negb_true_iff in Hs. apply negb_true_iff.
    now apply over_limit_short. }
  split; now apply E.
Qed.

(** What a text with numbers of one digit gives under every limit. *)
Lemma parse_issues_short L work_dir clang_output :
  within_limit 1 clang_output = true ->
  parse_issues L work_dir clang_output = parse_issues 0 work_dir clang_output.
Proof. intros H. now apply parse_issues_limit, within_short. Qed.

(** ** The classification *)

Lemma link_note_length issues n : length (link_note issues n) = length issues.
Proof.
  induction issues as [|i [|j rest] IH]; simpl in *; congruence.
Qed.

Lemma classify_length issues r :
  length (classify issues r)
  = (length issues + (if kept r then 1 else 0))%nat.
Proof.
  unfold classify, kept. destruct (is_problem r); simpl.
  - destruct (opt_text_eqb (check r) diagnostic_error); simpl.
    + lia.
    + rewrite length_app. simpl. lia.
  - destruct issues as [|i rest]; [simpl; lia|].
    rewrite link_note_length. lia.
Qed.

Lemma fold_classify_length recs : forall issues,
  length (fold_left classify recs issues)
  = (length issues + length (filter kept recs))%nat.
Proof.
  induction recs as [|r recs IH]; intros issues; simpl; [lia|].
  rewrite IH, classify_length. destruct (kept r); simpl; lia.
Qed.

Lemma record_problem h r :
  record_of h r -> is_problem r = problem_header h.
Proof.
  intros (Ht & _). unfold is_problem, problem_header. now rewrite Ht.
Qed.

Lemma record_kept h r : record_of h r -> kept r = kept_header h.
Proof.
  intros H. unfold kept, kept_header, skipped_header.
  rewrite (record_problem h r H). destruct H as (_ & -> & _).
  destruct (problem_header h); reflexivity.
Qed.

Lemma kept_count hs recs :
  Forall2 record_of hs recs ->
  length (filter problem_header hs)
  = (length (filter kept recs) + length (filter skipped_header hs))%nat.
Proof.
  induction 1 as [|h r hs recs Hr _ IH]; cbn [filter]; [reflexivity|].
  rewrite (record_kept h r Hr). unfold kept_header.
  destruct (problem_header h) eqn:Ep, (skipped_header h) eqn:Es;
    cbn [andb negb length]; try lia.
  unfold skipped_header in Es. rewrite Ep in Es. discriminate.
Qed.

(** ** What the result list holds *)

Lemma record_note h r :
  record_of h r -> is_problem r = false ->
  note_ok r.
Proof.
  intros (_ & _ & _ & Hl & Hc & [Ht | [Ht | Ht]]) Hp;
    unfold is_problem in Hp; rewrite Ht in Hp; try discriminate Hp.
  now repeat split.
Qed.

Lemma record_diag h r :
  record_of h r -> is_problem r = true -> diag_ok r.
Proof.
  intros (_ & _ & Hn & Hl & Hc & [Ht | [Ht | Ht]]) Hp;
    unfold is_problem in Hp; rewrite Ht in Hp; try discriminate Hp;
    unfold diag_ok; rewrite Hn; repeat split; auto.
Qed.

Lemma link_note_ok issues n :
  Forall diag_ok issues -> note_ok n -> Forall diag_ok (link_note issues n).
Proof.
  intros H Hn. induction H as [|i rest Hi Hrest IH]; simpl; [constructor|].
  destruct rest as [|j rest].
  - constructor; [|constructor].
    destruct Hi as (Ht & Hl & Hc & Hns). repeat split; try assumption.
    simpl. apply Forall_app. split; [exact Hns|now constructor].
  - constructor; [exact Hi|exact IH].
Qed.

Lemma classify_ok issues h r :
  Forall diag_ok issues -> record_of h r -> Forall diag_ok (classify issues r).
Proof.
  intros H Hr. unfold classify. destruct (is_problem r) eqn:Hp.
  - destruct (opt_text_eqb (check r) diagnostic_error); [exact H|].
    apply Forall_app. split; [exact H|].
    constructor; [|constructor]. exact (record_diag h r Hr Hp).
  - destruct issues as [|i rest]; [constructor|].
    apply link_note_ok; [exact H|]. exact (record_note h r Hr Hp).
Qed.

Lemma fold_classify_ok hs recs :
  Forall2 record_of hs recs -> forall issues,
  Forall diag_ok issues -> Forall diag_ok (fold_left classify recs issues).
Proof.
  induction 1 as [|h r hs recs Hr _ IH]; simpl; intros issues H; [exact H|].
  apply IH. exact (classify_ok issues h r H Hr).
Qed.

Lemma parse_issues_ok L work_dir clang_output :
  within_limit L clang_output = true ->
  exists issues,
    parse_issues L work_dir clang_output = Ok issues /\ Forall diag_ok issues.
Proof.
  intros Hw.
  destruct (parse_issues_records L work_dir clang_output Hw)
    as (recs & _ & H2 & Hparse).
  exists (fold_left classify recs []). split; [exact Hparse|].
  apply (fold_classify_ok _ _ H2). constructor.
Qed.

(** Records that are not kept leave an empty list empty. *)
Lemma fold_classify_not_kept pre : forall rest,
  Forall (fun r => kept r = false) pre ->
  fold_left classify (pre ++ rest) [] = fold_left classify rest [].
Proof.
  induction pre as [|r pre IH]; intros rest H; simpl; [reflexivity|].
  inversion H as [|? ? Hr Hpre]; subst.
  replace (classify [] r) with (@nil ClangIssue); [now apply IH|].
  unfold classify, kept in *. destruct (is_problem r); [|reflexivity].
  destruct (opt_text_eqb (check r) diagnostic_error);
    [reflexivity|discriminate].
Qed.

Lemma issue_records_app L work_dir clang_output pre : forall rest,
  Forall header_shape (pre ++ rest) ->
  forallb (header_within L) (pre ++ rest) = true ->
  exists rp rr,
    issue_records L work_dir clang_output (pre ++ rest) = Ok (rp ++ rr) /\
    Forall2 record_of pre rp /\
    Forall2 record_of rest rr /\
    issue_records L work_dir clang_output rest = Ok rr.
Proof.
  induction pre as [|h pre IH]; intros rest H Hw.
  - destruct (issue_records_ok L work_dir clang_output rest H Hw)
      as (rr & Hrr & H2).
    exists [], rr. repeat split; [exact Hrr|constructor|exact H2|exact Hrr].
  - inversion H as [|? ? Hh Hrest]; subst.
    cbn [app forallb] in Hw. apply andb_true_iff in Hw as [Hwh Hws].
    destruct (IH rest Hrest Hws) as (rp & rr & Happ & H2 & H2r & Hrr).
    destruct (ClangIssue_init_ok L work_dir h Hh Hwh) as (i & Hi & Hrec & _).
    simpl. rewrite Hi. cbn [bind]. rewrite Happ. cbn [bind].
    eexists (_ :: rp), rr. split; [reflexivity|].
    split; [|split; [exact H2r|exact Hrr]].
    constructor; [|exact H2]. apply set_body_record, Hrec.
Qed.

Lemma Forall2_not_kept pre rp :
  Forall2 record_of pre rp ->
  Forall (fun h => kept_header h = false) pre ->
  Forall (fun r => kept r = false) rp.
Proof.
  induction 1 as [|h r pre rp Hr _ IH]; intros H; constructor;
    inversion H; subst.
  - now rewrite (record_kept h r Hr).
  - now apply IH.
Qed.

Lemma note_header_not_kept h :
  header_kind h = Some (str "note") -> kept_header h = false.
Proof.
  intros H. unfold kept_header, problem_header. now rewrite H.
Qed.

(** C6, as amended: when the line and the column of every header are
    within the limit of int, no exception is raised, every entry of the
    result has kind warning or error, every note of an entry has kind note,
    and a note header with no kept header before it leaves no trace: the
    result is what the headers after it give. *)
Theorem parse_issues_kinds L work_dir clang_output :
  within_limit L clang_output = true ->
  exists issues,
    parse_issues L work_dir clang_output = Ok issues /\
    Forall (fun d =>
              (type d = Some (str "warning") \/ type d = Some (str "error")) /\
              Forall (fun n => type n = Some (str "note")) (notes d)) issues /\
    forall pre n rest,
      headers_of clang_output = pre ++ n :: rest ->
      Forall (fun h => kept_header h = false) pre ->
      header_kind n = Some (str "note") ->
      parse_loop L work_dir (limit_output clang_output) rest [] = Ok issues.
Proof.
  intros Hw.
  destruct (parse_issues_ok L work_dir clang_output Hw)
    as (issues & Hparse & Hok).
  exists issues. split; [exact Hparse|]. split.
  - eapply Forall_impl; [|exact Hok].
    intros d (Ht & _ & _ & Hns). split; [exact Ht|].
    eapply Forall_impl; [|exact Hns]. now intros n (Hn & _).
  - intros pre n rest Hsplit Hpre Hn.
    destruct (headers_of_chain clang_output) as [_ HF].
    unfold parse_issues in Hparse. fold (headers_of clang_output) in Hparse.
    unfold within_limit in Hw.
    rewrite Hsplit in Hparse, HF, Hw.
    replace (pre ++ n :: rest) with ((pre ++ [n]) ++ rest) in Hparse, HF, Hw
      by now rewrite <- app_assoc.
    destruct (issue_records_app L work_dir (limit_output clang_output) _ _
                HF Hw)
      as (rp & rr & Happ & H2 & _ & Hrr).
    rewrite parse_loop_records, Happ in Hparse. cbn [bind] in Hparse.
    rewrite parse_loop_records, Hrr. cbn [bind].
    rewrite fold_classify_not_kept in Hparse; [exact Hparse|].
    apply (Forall2_not_kept _ _ H2), Forall_app. split; [exact Hpre|].
    constructor; [|constructor]. now apply note_header_not_kept.
Qed.

(** C8, as amended: the line and the column of every entry of the result
    and of every note are the values of decimal digit strings, so they are
    never negative; the result exists when the numbers of the headers are
    within the limit of int. *)
Theorem parse_issues_positions L work_dir clang_output :
  within_limit L clang_output = true ->
  exists issues,
    parse_issues L work_dir clang_output = Ok issues /\
    Forall (fun d =>
              0 <= line d /\ 0 <= char d /\
              Forall (fun n => 0 <= line n /\ 0 <= char n) (notes d)) issues.
Proof.
  intros Hw.
  destruct (parse_issues_ok L work_dir clang_output Hw)
    as (issues & Hparse & Hok).
  exists issues. split; [exact Hparse|].
  eapply Forall_impl; [|exact Hok].
  intros d (_ & Hl & Hc & Hns). repeat split; try assumption.
  eapply Forall_impl; [|exact Hns]. now intros n (_ & Hn).
Qed.

Lemma parse_issues_positions_witness :
  exists issues,
    parse_issues 4300 [] zero_output = Ok issues /\
    Forall (fun d =>
              0 <= line d /\ 0 <= char d /\
              Forall (fun n => 0 <= line n /\ 0 <= char n) (notes d)) issues.
Proof.
  apply (parse_issues_positions 4300 [] zero_output).
  vm_compute. reflexivity.
Defined.

(** ** The bodies *)

Lemma clip_in n i : 0 <= i <= n -> clip n i = i.
Proof.
  intros H. unfold clip. destruct (i <? 0) eqn:E.
  - apply Z.ltb_lt in E. lia.
  - lia.
Qed.

Lemma py_slice_in (t : text) a b :
  0 <= a <= len t -> 0 <= b <= len t ->
  py_slice t a b = firstn (Z.to_nat (b - a)) (skipn (Z.to_nat a) t).
Proof. intros Ha Hb. unfold py_slice. now rewrite !clip_in. Qed.

Lemma py_slice_from_skipn (t : text) a :
  0 <= a <= len t -> py_slice_from t a = skipn (Z.to_nat a) t.
Proof.
  intros Ha. unfold py_slice_from.
  rewrite py_slice_in; [|exact Ha|unfold len; lia].
  apply firstn_all2. rewrite length_skipn. unfold len in *. lia.
Qed.

Lemma skipn_next (t : text) : forall n,
  (n < length t)%nat -> exists c, skipn n t = c :: skipn (S n) t.
Proof.
  induction t as [|x t IH]; intros n Hn; simpl in Hn; [lia|].
  destruct n as [|n]; [now exists x|].
  apply IH. lia.
Qed.

Lemma body_between (t : text) e s :
  0 < e -> e <= s -> s <= len t ->
  exists sep,
    (length sep = 1%nat \/
     (sep = [] /\ py_slice t e (s - 1) = [] /\ e = s)) /\
    skipn (Z.to_nat e) t
    = py_slice t e (s - 1) ++ sep ++ skipn (Z.to_nat s) t.
Proof.
  intros He Hes Hs. rewrite py_slice_in by lia.
  destruct (Z.eq_dec e s) as [->|Hne].
  - exists []. replace (Z.to_nat (s - 1 - s)) with 0%nat by lia.
    split; [right; now repeat split|reflexivity].
  - destruct (skipn_next t (Z.to_nat (s - 1))) as [c Hc];
      [unfold len in Hs; lia|].
    exists [c]. split; [now left|].
    rewrite <- (firstn_skipn (Z.to_nat (s - 1 - e)) (skipn (Z.to_nat e) t))
      at 1.
    f_equal. rewrite skipn_skipn.
    replace (Z.to_nat (s - 1 - e) + Z.to_nat e)%nat with (Z.to_nat (s - 1))
      by lia.
    rewrite Hc. cbn [app]. do 2 f_equal. lia.
Qed.

Lemma issue_records_bodies L work_dir t hs : forall lo recs,
  chain lo hs (len t) -> 0 <= lo ->
  issue_records L work_dir t hs = Ok recs ->
  bodies_between t hs recs.
Proof.
  induction hs as [|h hs IH]; intros lo recs Hc Hlo Hrecs.
  - simpl in Hrecs. injection Hrecs as <-. exact I.
  - simpl in Hrecs.
    destruct (ClangIssue_init L (m_groups h) work_dir) as [i|]; [|discriminate].
    cbn [bind] in Hrecs.
    destruct (issue_records L work_dir t hs) as [more|] eqn:Hmore;
      [|discriminate].
    cbn [bind] in Hrecs. injection Hrecs as <-.
    destruct Hc as (H1 & H2 & H3). cbn [bodies_between]. split.
    + destruct hs as [|next hs'].
      * simpl in H3. simpl. f_equal. apply py_slice_from_skipn. lia.
      * pose proof (chain_bound _ _ _ H3) as Hend.
        destruct H3 as (H4 & H5 & H6).
        pose proof (chain_bound _ _ _ H6) as Hnext.
        destruct (body_between t (m_end h) (m_start next)) as (sep & Hsep & E);
          try lia.
        exists (py_slice t (m_end h) (m_start next - 1)), sep.
        split; [reflexivity|]. split; [|exact E].
        destruct Hsep as [Hsep | (-> & Hb & He)]; [now left|right].
        now repeat split.
    + apply (IH (m_end h) more H3); [lia|reflexivity].
Qed.

Lemma parse_issues_bodies L work_dir clang_output :
  within_limit L clang_output = true ->
  exists recs,
    issue_records L work_dir (limit_output clang_output) (headers_of clang_output)
      = Ok recs /\
    Forall2 record_of (headers_of clang_output) recs /\
    bodies_between (limit_output clang_output) (headers_of clang_output) recs /\
    parse_issues L work_dir clang_output = Ok (fold_left classify recs []).
Proof.
  intros Hw.
  destruct (parse_issues_records L work_dir clang_output Hw)
    as (recs & Hrecs & H2 & Hparse).
  exists recs. repeat split; try assumption.
  destruct (headers_of_chain clang_output) as [Hc _].
  apply (issue_records_bodies L work_dir _ _ 0 recs Hc); [lia|exact Hrecs].
Qed.



Lemma Forall2_no_notes hs recs :
  Forall2 record_of hs recs -> Forall (fun r => notes r = []) recs.
Proof.
  induction 1 as [|h r hs recs (_ & _ & Hn & _) _ IH]; constructor;
    assumption.
Qed.




(** ** Notes after a skipped record *)

Lemma attach_nil issues : attach issues [] = issues.
Proof.
  induction issues as [|i [|j rest] IH].
  - reflexivity.
  - cbn [attach]. unfold add_notes. rewrite app_nil_r. now destruct i.
  - change (i :: attach (j :: rest) [] = i :: j :: rest). now rewrite IH.
Qed.

Lemma attach_link_note issues n ns :
  attach (link_note issues n) ns = attach issues (n :: ns).
Proof.
  induction issues as [|i [|j rest] IH]; try reflexivity.
  - cbn [link_note attach]. unfold add_notes, append_note.
    cbn [path line char type message check body notes].
    now rewrite <- app_assoc.
  - assert (Hne : link_note (j :: rest) n <> []).
    { intros E. apply (f_equal (@length _)) in E.
      rewrite link_note_length in E. discriminate E. }
    change (link_note (i :: j :: rest) n) with (i :: link_note (j :: rest) n).
    destruct (link_note (j :: rest) n) as [|x l]; [congruence|].
    change (i :: attach (x :: l) ns = i :: attach (j :: rest) (n :: ns)).
    now rewrite IH.
Qed.

Lemma fold_classify_notes ns : forall issues,
  Forall (fun n => is_problem n = false) ns ->
  fold_left classify ns issues = attach issues ns.
Proof.
  induction ns as [|n ns IH]; intros issues H; simpl.
  - now rewrite attach_nil.
  - inversion H as [|? ? Hn Hns]; subst.
    rewrite (IH _ Hns). unfold classify. rewrite Hn.
    destruct issues as [|i rest]; [reflexivity|].
    apply attach_link_note.
Qed.

Lemma attach_not_nil issues ns : issues <> [] -> attach issues ns <> [].
Proof. destruct issues as [|i [|j rest]]; [congruence|discriminate..]. Qed.

Lemma attach_snoc issues r ns :
  attach (issues ++ [r]) ns = issues ++ [add_notes r ns].
Proof.
  induction issues as [|i issues IH]; [reflexivity|].
  cbn [app]. destruct (issues ++ [r]) as [|x l] eqn:E.
  - now destruct issues.
  - change (i :: attach (x :: l) ns = i :: issues ++ [add_notes r ns]).
    now rewrite IH.
Qed.

Lemma attach_attach issues a b :
  attach (attach issues a) b = attach issues (a ++ b).
Proof.
  induction issues as [|i [|j rest] IH]; try reflexivity.
  - cbn [attach]. unfold add_notes.
    cbn [path line char type message check body notes].
    now rewrite <- app_assoc.
  - change (attach (i :: j :: rest) a) with (i :: attach (j :: rest) a).
    pose proof (attach_not_nil (j :: rest) a) as Hne.
    destruct (attach (j :: rest) a) as [|x l] eqn:E;
      [exfalso; apply Hne; [discriminate|reflexivity]|].
    change (i :: attach (x :: l) b = i :: attach (j :: rest) (a ++ b)).
    now rewrite IH.
Qed.

(** The loop gives the entries as grouped: on a list that is not empty, the
    notes up to the next kept record go to its last entry. *)
Lemma fold_classify_grouped recs : forall issues,
  issues <> [] ->
  fold_left classify recs issues
  = attach issues (notes_up_to_kept recs) ++ grouped recs.
Proof.
  induction recs as [|r recs IH]; intros issues Hne;
    cbn [fold_left notes_up_to_kept grouped].
  - now rewrite attach_nil, app_nil_r.
  - unfold classify at 2, kept.
    destruct (is_problem r) eqn:Hp; cbn [andb negb].
    + destruct (opt_text_eqb (check r) diagnostic_error); cbn [negb].
      * now apply IH.
      * rewrite IH by now destruct issues.
        rewrite attach_snoc, attach_nil, <- app_assoc. reflexivity.
    + destruct issues as [|i rest]; [congruence|].
      rewrite IH.
      * now rewrite attach_link_note.
      * intros E. apply (f_equal (@length _)) in E.
        rewrite link_note_length in E. discriminate E.
Qed.

Lemma fold_classify_nil recs : fold_left classify recs [] = grouped recs.
Proof.
  induction recs as [|r recs IH]; cbn [fold_left grouped]; [reflexivity|].
  unfold classify at 2, kept.
  destruct (is_problem r) eqn:Hp; cbn [andb negb].
  - destruct (opt_text_eqb (check r) diagnostic_error); cbn [negb].
    + exact IH.
    + cbn [app]. rewrite fold_classify_grouped by discriminate.
      reflexivity.
  - exact IH.
Qed.

(** C3: a record of kind warning or error whose check id is
    clang-diagnostic-error is dropped, and the notes that follow it, up to
    the next record that is kept, are added after the notes of the last
    entry kept before it, or dropped when there is none.  The entries are
    given by [grouped], which is written from this description and not from
    the loop. *)
Theorem skipped_record_notes L work_dir clang_output rp d rn rr :
  issue_records L work_dir (limit_output clang_output) (headers_of clang_output)
    = Ok (rp ++ d :: rn ++ rr) ->
  is_problem d = true ->
  check d = Some diagnostic_error ->
  Forall (fun n => is_problem n = false) rn ->
  parse_issues L work_dir clang_output
  = Ok match grouped rp with
       | [] => grouped rr
       | before => attach before (rn ++ notes_up_to_kept rr) ++ grouped rr
       end.
Proof.
  intros Hrecs Hp Hd Hrn.
  unfold parse_issues. fold (headers_of clang_output).
  rewrite parse_loop_records, Hrecs. cbn [bind]. f_equal.
  rewrite fold_left_app. cbn [fold_left].
  replace (classify (fold_left classify rp []) d)
    with (fold_left classify rp []).
  - rewrite fold_left_app, (fold_classify_notes rn _ Hrn), fold_classify_nil.
    destruct (grouped rp) as [|i before] eqn:E.
    + cbn [attach]. apply fold_classify_nil.
    + rewrite fold_classify_grouped by (apply attach_not_nil; discriminate).
      now rewrite attach_attach.
  - unfold classify. rewrite Hp, Hd.
    replace (opt_text_eqb (Some diagnostic_error) diagnostic_error) with true;
      [reflexivity|].
    symmetry. now apply text_eqb_eq.
Qed.

Lemma skipped_record_notes_witness :
  parse_issues 4300 [] skipped_output = Ok skipped_issues.
Proof.
  apply (skipped_record_notes 4300 [] skipped_output
           [skipped_warning; skipped_note] skipped_error
           [skipped_late_note] []).
  - vm_compute. reflexivity.
  - vm_compute. reflexivity.
  - vm_compute. reflexivity.
  - repeat constructor.
Defined.

(** The pattern [\d+] takes any digits, so a header can give line 0 and
    column 0. *)
Lemma positions_can_be_zero :
  ~ (exists L,
       forall issues,
         parse_issues L [] zero_output = Ok issues ->
         Forall (fun d => 1 <= line d /\ 1 <= char d) issues).
Proof.
  intros (L & H).
  assert (E : exists d, parse_issues L [] zero_output = Ok [d] /\ line d = 0).
  { rewrite parse_issues_short by (vm_compute; reflexivity).
    eexists. split; [vm_compute; reflexivity|reflexivity]. }
  destruct E as (d & E & Hd). apply H in E.
  inversion E as [|? ? [Hl _] _]; subst. lia.
Qed.

(** ** The marker line *)

Lemma py_slice_to_last (t : text) :
  t <> [] -> py_slice_to t (0 - 1) = removelast t.
Proof.
  intros Ht. unfold py_slice_to, py_slice, clip.
  assert (0 < len t) by (unfold len; destruct t; [congruence|simpl; lia]).
  change (0 - 1 <? 0) with true. change (0 <? 0) with false. cbv iota.
  rewrite Z.min_r by lia. rewrite Z.max_r by lia.
  rewrite removelast_firstn_len. cbn [Z.to_nat skipn]. f_equal.
  unfold len. lia.
Qed.

(** C4 at a text whose first line is the marker: [end.start() - 1] is -1,
    so the slice drops only the last character of the text, and a header
    after the marker line is parsed. *)
Theorem marker_on_first_line :
  (forall rest,
     limit_output (lines ["Enabled checks:"] ++ rest)
     = removelast (lines ["Enabled checks:"] ++ rest)) /\
  forall L,
    parse_issues L [] marker_first_output
    = Ok [ {| path := str "a.cpp"; line := 3; char := 1;
              type := Some (str "warning"); message := Some (str "x");
              check := Some (str "c"); body := Some (str "  body");
              notes := [] |} ].
Proof.
  split.
  - intros rest. unfold limit_output, re_search.
    change (search_from REGEX_END (lines ["Enabled checks:"] ++ rest) 0 true)
      with (Some {| m_start := 0;
                    m_end := 0 + Z.of_nat
                      (length (lines ["Enabled checks:"] ++ rest) - length rest);
                    m_groups := [] |}).
    cbn [m_start]. apply py_slice_to_last.
    discriminate.
  - intros L. rewrite parse_issues_short by (vm_compute; reflexivity).
    vm_compute. reflexivity.
Qed.

(** ** The matcher finds a match whenever the pattern has one *)

Lemma plus_greedy_complete {R} cls (m : text) :
  forall s (k : text -> bool -> option R),
  m <> [] -> forallb cls m = true ->
  k s (is_nl (last m nl)) <> None ->
  plus_greedy cls (m ++ s) k <> None.
Proof.
  induction m as [|c m IH]; intros s k Hm Hall Hk; [congruence|].
  simpl in Hall. apply andb_true_iff in Hall as [Hc Hall].
  cbn [app plus_greedy]. rewrite Hc.
  destruct m as [|c' m].
  - destruct (plus_greedy cls ([] ++ s) k); [discriminate|exact Hk].
  - assert (H : plus_greedy cls ((c' :: m) ++ s) k <> None)
      by (apply IH; [discriminate|exact Hall|exact Hk]).
    destruct (plus_greedy cls ((c' :: m) ++ s) k); [discriminate|congruence].
Qed.

Lemma lit_complete {R} (p : text) : forall s bol (k : text -> bool -> option R),
  lit p (p ++ s) bol k = k s (bol_after bol p).
Proof.
  induction p as [|c p IH]; intros s bol k; [reflexivity|].
  cbn [app lit]. rewrite Ascii.eqb_refl, IH. destruct p; reflexivity.
Qed.

Lemma rmatch_complete {R} r s b c s' b' c' :
  matches r s b c s' b' c' ->
  forall k : @cont R, k s' b' c' <> None -> rmatch r s b c k <> None.
Proof.
  induction 1 as [ | cls x s b c Hx | p s b c | s c
                 | a1 a2 s0 b0 c0 s1 b1 c1 s2 b2 c2 _ IH1 _ IH2
                 | a1 a2 s0 b0 c0 s1 b1 c1 _ IH
                 | a1 a2 s0 b0 c0 s1 b1 c1 _ IH
                 | cls m s b c Hm Hall
                 | a s0 b0 c0 s1 b1 c1 _ IH
                 | a s b c
                 | n a s0 b0 c0 s1 b1 c1 _ IH ];
    intros k Hk; cbn [rmatch].
  - exact Hk.
  - now rewrite Hx.
  - now rewrite lit_complete.
  - exact Hk.
  - apply IH1. now apply IH2.
  - specialize (IH k Hk). now destruct (rmatch a1 s0 b0 c0 k).
  - specialize (IH k Hk). now destruct (rmatch a1 s0 b0 c0 k).
  - now apply plus_greedy_complete.
  - specialize (IH k Hk). now destruct (rmatch a s0 b0 c0 k).
  - now destruct (rmatch a s b c k).
  - now apply IH.
Qed.

(** ** The file filter *)

Lemma contains_spec (s needle : text) :
  contains s needle = true <-> exists pre post, s = pre ++ needle ++ post.
Proof.
  assert (Hsw : forall (p t : text), startswith t p = true <-> exists post, t = p ++ post).
  { induction p as [|c p IH]; intros t; simpl.
    - split; [now exists t|reflexivity].
    - destruct t as [|x t]; [split; [discriminate|now intros [? ?]]|].
      rewrite andb_true_iff, Ascii.eqb_eq, IH. split.
      + intros [-> [post ->]]. now exists post.
      + intros [post [= -> ->]]. split; [reflexivity|now exists post]. }
  induction s as [|x s IH]; simpl; rewrite orb_true_iff.
  - split.
    + intros [H|H]; [|discriminate]. apply Hsw in H as [post H].
      now exists [], post.
    + intros (pre & post & H). left. apply Hsw.
      destruct pre; [now exists post|discriminate].
  - rewrite IH. split.
    + intros [H|(pre & post & ->)].
      * apply Hsw in H as [post H]. now exists [], post.
      * now exists (x :: pre), post.
    + intros ([|y pre] & post & H).
      * left. apply Hsw. now exists post.
      * right. injection H as -> ->. now exists pre, post.
Qed.

Lemma matches_lits f : forall acc s b c s' b' c',
  matches (lits acc f) s b c s' b' c' ->
  exists s1 b1, matches acc s b c s1 b1 c' /\ s1 = f ++ s'.
Proof.
  unfold lits. induction f as [|x f IH]; intros acc s b c s' b' c' H.
  - now exists s', b'.
  - apply IH in H as (s1 & b1 & H & ->).
    inversion H as [| | | |? ? ? ? ? s0 b0 c0 ? ? ? Ha Hx| | | | | |]; subst.
    inversion Hx as [|? y ? ? ? Hy| | | | | | | | |]; subst.
    apply Ascii.eqb_eq in Hy. subst y. now exists (x :: f ++ s'), b0.
Qed.

Lemma lits_matches f : forall acc s b c s' b' c',
  matches acc s b c (f ++ s') b' c' ->
  exists b'', matches (lits acc f) s b c s' b'' c'.
Proof.
  unfold lits. induction f as [|x f IH]; intros acc s b c s' b' c' H.
  - now exists b'.
  - cbn [fold_left]. eapply IH. econstructor; [exact H|].
    constructor. apply Ascii.eqb_refl.
Qed.

Lemma matches_branch n f s b c s' b' c' :
  matches (branch n f) s b c s' b' c' -> s = f ++ s'.
Proof.
  unfold branch. intros H. inv_matches.
  match goal with Hm : matches _ _ _ _ _ _ _ |- _ =>
    apply matches_lits in Hm as (t1 & bt & Hm & E); inversion Hm; subst end.
  reflexivity.
Qed.

Lemma branch_matches n f s b c :
  exists b' c', matches (branch n f) (f ++ s) b c s b' c'.
Proof.
  destruct (lits_matches f Eps (f ++ s) b c s b c) as [b' H]; [constructor|].
  exists b'. eexists. unfold branch. econstructor; [constructor|].
  constructor. exact H.
Qed.

Lemma matches_branches files : forall acc n s b c s' b' c',
  matches (branches acc n files) s b c s' b' c' ->
  matches acc s b c s' b' c' \/ exists f, In f files /\ s = f ++ s'.
Proof.
  induction files as [|f files IH]; intros acc n s b c s' b' c' H;
    [now left|].
  apply IH in H as [H|(g & Hg & ->)].
  - inversion H; subst.
    + now left.
    + right. exists f. split; [now left|]. eapply matches_branch; eassumption.
  - right. exists g. split; [now right|reflexivity].
Qed.

Lemma branches_matches files : forall acc n s b c s' b' c',
  matches acc s b c s' b' c' ->
  matches (branches acc n files) s b c s' b' c'.
Proof.
  induction files as [|f files IH]; intros acc n s b c s' b' c' H;
    [exact H|].
  apply IH. now apply M_AltL.
Qed.

Lemma branches_matches_in files : forall acc n f s b c,
  In f files ->
  exists b' c', matches (branches acc n files) (f ++ s) b c s b' c'.
Proof.
  induction files as [|g files IH]; intros acc n f s b c Hin; [easy|].
  destruct Hin as [->|Hin].
  - destruct (branch_matches n f s b c) as (b' & c' & H).
    exists b', c'. cbn [branches]. apply branches_matches. now apply M_AltR.
  - cbn [branches]. now apply IH.
Qed.

Lemma is_plain_cases c :
  is_plain c = true ->
  Ascii.eqb c "(" = false /\ Ascii.eqb c ")" = false /\
  Ascii.eqb c "|" = false /\ Ascii.eqb c "." = false /\ is_special c = false.
Proof.
  unfold is_plain. cbn [str list_ascii_of_string existsb].
  intros H. apply negb_true_iff in H. apply orb_false_iff in H as [H Hs].
  apply orb_false_iff in H as [H1 H]. apply orb_false_iff in H as [H2 H].
  apply orb_false_iff in H as [H3 H]. apply orb_false_iff in H as [H4 _].
  now repeat split.
Qed.

Lemma compile_plain f : forall p stack top next,
  Forall (fun c => is_plain c = true) f ->
  compile_from (f ++ p) stack top next
  = compile_from p stack
      {| f_alts := f_alts top; f_cur := lits (f_cur top) f;
         f_group := f_group top |} next.
Proof.
  induction f as [|c f IH]; intros p stack top next H.
  - now destruct top.
  - inversion H as [|? ? Hc Hf]; subst.
    apply is_plain_cases in Hc as (E1 & E2 & E3 & E4 & E5).
    cbn [app compile_from]. rewrite E1, E2, E3, E4, E5.
    now rewrite IH.
Qed.

Lemma compile_branches rest : forall f alts n,
  Forall (Forall (fun c => is_plain c = true)) (f :: rest) ->
  compile_from (str "(" ++ join (str ")|(") (f :: rest) ++ str ")") []
    {| f_alts := alts; f_cur := Eps; f_group := 0 |} n
  = Compiled (branches (with_alts alts (branch n f)) (S n) rest).
Proof.
  induction rest as [|g rest IH]; intros f alts n H;
    inversion H as [|? ? Hf Hrest]; subst.
  - cbn [join str list_ascii_of_string app compile_from Ascii.eqb].
    change (compile_from (f ++ [")"%char]) ?s ?t ?k)
      with (compile_from (f ++ str ")") s t k).
    rewrite (compile_plain f _ _ _ _ Hf). now destruct alts.
  - change (join (str ")|(") (f :: g :: rest))
      with (f ++ str ")|(" ++ join (str ")|(") (g :: rest)).
    rewrite <- !app_assoc.
    cbn [str list_ascii_of_string app compile_from Ascii.eqb].
    rewrite (compile_plain f _ _ _ _ Hf).
    cbn [app compile_from Ascii.eqb f_alts f_cur f_group push_atom close
         next_branch].
    specialize (IH g (Some (with_alts alts (branch n f))) (S n) Hrest).
    cbn [str list_ascii_of_string app compile_from Ascii.eqb] in IH.
    destruct alts; exact IH.
Qed.

Lemma file_name_re_plain f rest :
  Forall (Forall (fun c => is_plain c = true)) (f :: rest) ->
  file_name_re (f :: rest) = Compiled (branches (branch 1 f) 2 rest).
Proof.
  intros H. unfold file_name_re, file_name_pattern, re_compile.
  exact (compile_branches rest f None 1%nat H).
Qed.

(** ** Searching *)

Lemma search_from_sound r (s : text) : forall pos bol m,
  search_from r s pos bol = Some m ->
  exists (pre post : text) bol',
    s = pre ++ post /\ match_here r post (pos + len pre) bol' = Some m.
Proof.
  induction s as [|c s IH]; intros pos bol m; cbn [search_from].
  - destruct (match_here r [] pos bol) eqn:E; [|discriminate].
    intros [= <-]. exists [], [], bol. split; [reflexivity|].
    now rewrite Z.add_0_r.
  - destruct (match_here r (c :: s) pos bol) eqn:E.
    + intros [= <-]. exists [], (c :: s), bol. split; [reflexivity|].
      now rewrite Z.add_0_r.
    + intros H. apply IH in H as (pre & post & bol' & -> & H).
      exists (c :: pre), post, bol'. split; [reflexivity|].
      replace (pos + len (c :: pre)) with (pos + 1 + len pre); [exact H|].
      unfold len. simpl length. lia.
Qed.

Lemma search_from_complete r (pre : text) : forall post pos bol,
  (forall pos' bol', match_here r post pos' bol' <> None) ->
  search_from r (pre ++ post) pos bol <> None.
Proof.
  induction pre as [|c pre IH]; intros post pos bol H.
  - cbn [app]. specialize (H pos bol).
    destruct post; cbn [search_from];
      now destruct (match_here r _ pos bol).
  - cbn [app search_from].
    destruct (match_here r (c :: pre ++ post) pos bol); [discriminate|].
    now apply IH.
Qed.

Lemma match_here_matches r s pos bol m :
  match_here r s pos bol = Some m ->
  exists s' b' c', matches r s bol no_captures s' b' c'.
Proof.
  unfold match_here. intros H.
  apply rmatch_sound in H as (s' & b' & c' & H & _). now exists s', b', c'.
Qed.

Lemma matches_match_here r s pos bol s' b' c' :
  matches r s bol no_captures s' b' c' -> match_here r s pos bol <> None.
Proof.
  intros H. unfold match_here.
  apply (rmatch_complete r s bol no_captures s' b' c' H). discriminate.
Qed.

Lemma selects_plain f rest name :
  selects (branches (branch 1 f) 2 rest) name = true
  <-> exists g, In g (f :: rest) /\ contains name g = true.
Proof.
  unfold selects, re_search. split.
  - destruct (search_from _ name 0 true) as [m|] eqn:E; [|discriminate].
    intros _. apply search_from_sound in E as (pre & post & bol' & -> & E).
    apply match_here_matches in E as (s' & b' & c' & E).
    apply matches_branches in E as [E|(g & Hg & ->)].
    + apply matches_branch in E as ->. exists f. split; [now left|].
      apply contains_spec. now exists pre, s'.
    + exists g. split; [now right|]. apply contains_spec. now exists pre, s'.
  - intros (g & Hg & Hc). apply contains_spec in Hc as (pre & post & ->).
    assert (H : search_from (branches (branch 1 f) 2 rest)
                  (pre ++ g ++ post) 0 true <> None).
    { apply search_from_complete. intros pos' bol'.
      destruct Hg as [<-|Hg].
      - destruct (branch_matches 1 f post bol' no_captures) as (b' & c' & H).
        eapply matches_match_here, branches_matches, H.
      - destruct (branches_matches_in rest (branch 1 f) 2 g post bol'
                    no_captures Hg) as (b' & c' & H).
        eapply matches_match_here, H. }
    now destruct (search_from _ (pre ++ g ++ post) 0 true).
Qed.

(** C7, as amended: when the fragments are not empty in number and hold no
    character that is special in a pattern, the names put on the queue are
    the database entries that contain one of the fragments. *)
Theorem plain_fragments_select files database_files :
  files <> [] ->
  Forall (Forall (fun c => is_plain c = true)) files ->
  selects_by_substring files database_files.
Proof.
  intros Hne Hplain. destruct files as [|f rest]; [congruence|].
  unfold selects_by_substring, enqueued.
  rewrite (file_name_re_plain f rest Hplain).
  eexists. split; [reflexivity|].
  intros name Hin. rewrite filter_In, selects_plain. tauto.
Qed.

Lemma plain_fragments_select_witness :
  selects_by_substring [str "src/a"; str "b_c"]
    [str "/work/src/a.cpp"; str "/work/b.cpp"].
Proof.
  apply plain_fragments_select.
  - discriminate.
  - repeat constructor.
Defined.

(** A fragment is read as a pattern: the dot of a.c stands for any
    character, so the entry abc is put on the queue although it does not
    contain a.c. *)
Lemma dot_fragment_selects_more :
  ~ selects_by_substring [str "a.c"] [str "abc"].
Proof.
  intros (names & Hnames & H).
  vm_compute in Hnames. injection Hnames as <-.
  destruct (H (str "abc")) as [H1 _]; [now left|].
  destruct H1 as (f & [<-|[]] & Hc); [now left|].
  vm_compute in Hc. discriminate Hc.
Qed.

(** C10: with no fragment the pattern is (), which matches at the start of
    every name, so every entry of the database is put on the queue. *)
Theorem no_fragment_selects_all database_files :
  file_name_pattern [] = str "()" /\
  exists r,
    file_name_re [] = Compiled r /\
    (forall name, selects r name = true) /\
    enqueued [] database_files = Some (Ok database_files).
Proof.
  split; [reflexivity|].
  exists (Cat Eps (Grp 1 Eps)). split; [reflexivity|].
  assert (Hall : forall name, selects (Cat Eps (Grp 1 Eps)) name = true)
    by (intros [|c name]; reflexivity).
  split; [exact Hall|].
  assert (Hfilter : filter (selects (Cat Eps (Grp 1 Eps))) database_files
                    = database_files).
  { induction database_files as [|name names IH]; [reflexivity|].
    cbn [filter]. now rewrite Hall, IH. }
  unfold enqueued.
  change (file_name_re []) with (Compiled (Cat Eps (Grp 1 Eps))).
  cbv iota. now rewrite Hfilter.
Qed.

(** ** The threads and the queues *)

Lemma owed_app l w r :
  owed (l ++ w :: r)
  = (owed l + (match w with Waiting => 0 | _ => 1 end) + owed r)%nat.
Proof.
  unfold owed. rewrite filter_app, length_app. cbn [filter].
  destruct w; cbn [length]; lia.
Qed.

Lemma owed_dead ts : In Dead ts -> (0 < owed ts)%nat.
Proof.
  intros H. apply in_split in H as (l & r & ->). rewrite owed_app. lia.
Qed.

Lemma step_balanced L work_dir workers clang_tidy s s' :
  step L work_dir workers clang_tidy s s' -> balanced s -> balanced s'.
Proof.
  unfold balanced.
  destruct 1 as [name todo q u ts qi Hroom | q u ts qi | m name q u l r qi
                | m q u l name r qi issues Htool
                | m q u l name pushed issue rest r qi
                | m q u l name pushed r qi
                | m q u l name r qi e Htool
                | q ts qi | issues q u ts issue qi | issues q u ts];
    cbn [main queue_workers unfinished_tasks threads]; intros [Hb Hm];
    rewrite ?owed_app, ?length_app in *; cbn [length] in *.
  - split; [lia|exact I].
  - split; [exact Hb|exact I].
  - split; [lia|].
    destruct m as [| | | |e']; try exact I; try lia.
    destruct Hm as [_ Hq]. discriminate Hq.
  - split; [lia|].
    destruct m as [| | | |e']; try exact I; try exact Hm.
    destruct Hm as [Ht _]. now destruct l.
  - split; [lia|].
    destruct m as [| | | |e']; try exact I; try exact Hm.
    destruct Hm as [Ht _]. now destruct l.
  - split; [lia|].
    destruct m as [| | | |e']; try exact I; try discriminate Hm.
    destruct Hm as [Ht _]. now destruct l.
  - split; [lia|].
    destruct m as [| | | |e']; try exact I; try exact Hm.
    destruct Hm as [Ht _]. now destruct l.
  - split; [exact Hb|reflexivity].
  - split; [exact Hb|exact Hm].
  - split; [exact Hb|exact Hm].
Qed.

Lemma step_dead L work_dir workers clang_tidy s s' :
  step L work_dir workers clang_tidy s s' ->
  In Dead (threads s) -> In Dead (threads s').
Proof.
  destruct 1; cbn [threads]; intros Hd; try exact Hd;
    apply in_app_iff in Hd; apply in_app_iff;
    (destruct Hd as [Hd|[Hd|Hd]];
     [now left|try discriminate Hd; now right; left|now right; right]).
Qed.

Lemma steps_balanced L work_dir workers clang_tidy s s' :
  steps L work_dir workers clang_tidy s s' -> balanced s -> balanced s'.
Proof.
  induction 1 as [|s1 s2 s3 _ IH Hstep]; intros H; [exact H|].
  eapply step_balanced; [exact Hstep|]. now apply IH.
Qed.

Lemma steps_dead L work_dir workers clang_tidy s s' :
  steps L work_dir workers clang_tidy s s' ->
  In Dead (threads s) -> In Dead (threads s').
Proof.
  induction 1 as [|s1 s2 s3 _ IH Hstep]; intros H; [exact H|].
  eapply step_dead; [exact Hstep|]. now apply IH.
Qed.

Lemma run_start_balanced workers files database_files s0 :
  run_start workers files database_files = Some s0 -> balanced s0.
Proof.
  unfold run_start.
  destruct (enqueued files database_files) as [[todo|e]|]; intros [= <-].
  - split; [|exact I]. cbn [unfinished_tasks queue_workers threads length].
    unfold owed. induction workers as [|n IH]; [reflexivity|exact IH].
  - now repeat split.
Qed.

Lemma balanced_dead_pending s : balanced s -> In Dead (threads s) -> pending s.
Proof.
  intros [Hb Hm] Hdead. apply owed_dead in Hdead. unfold pending.
  destruct (main s); try exact I.
  - lia.
  - destruct Hm as [Ht _]. rewrite Ht in Hdead. inversion Hdead.
Qed.

(** Once an invocation has failed, the call of [run] stays pending: it
    does not return a list and it does not raise. *)
Lemma failed_run_stays_pending L work_dir workers clang_tidy
    files database_files s0 s s' :
  run_start workers files database_files = Some s0 ->
  steps L work_dir workers clang_tidy s0 s ->
  In Dead (threads s) ->
  steps L work_dir workers clang_tidy s s' ->
  pending s'.
Proof.
  intros Hstart Hs Hdead Hs'.
  apply balanced_dead_pending.
  - eapply steps_balanced; [exact Hs'|].
    eapply steps_balanced; [exact Hs|].
    eapply run_start_balanced, Hstart.
  - eapply steps_dead; [exact Hs'|exact Hdead].
Qed.

(** C5 at a run with one worker and one file on which clang-tidy exits
    with status 1: the worker thread ends without [task_done], and the call
    of [run] is left blocked in [join]: no step is possible, nothing is
    raised to the caller and nothing is returned. *)
Theorem worker_failure_blocks_run L :
  exists s0,
    run_start 1 [str "a.cpp"] [str "/src/a.cpp"] = Some s0 /\
    steps L [] 1 failing_tool s0 blocked_state /\
    forall s', ~ step L [] 1 failing_tool blocked_state s'.
Proof.
  exists (mkState (Filling [str "/src/a.cpp"]) [] 0 [Waiting] []).
  split; [reflexivity|]. split.
  - eapply steps_step; [eapply steps_step; [eapply steps_step;
      [eapply steps_step; [apply steps_refl|] |] |] |].
    + apply (step_put L [] 1 failing_tool (str "/src/a.cpp") [] [] 0 [Waiting] []).
      simpl. lia.
    + apply step_filled.
    + apply (step_get L [] 1 failing_tool Joining (str "/src/a.cpp") [] 1 [] [] []).
    + apply (step_fail L [] 1 failing_tool Joining [] 1 [] (str "/src/a.cpp")
               [] [] CalledProcessError).
      reflexivity.
  - intros s' H. unfold blocked_state in H.
    inversion H; subst;
      match goal with
      | E : ?l ++ _ :: _ = _ |- _ => destruct l as [|? [|? ?]]; discriminate E
      end.
Qed.

(** ** The marker after the first line *)

Lemma match_here_start r s pos bol m :
  match_here r s pos bol = Some m -> m_start m = pos.
Proof.
  unfold match_here. intros H.
  now apply rmatch_sound in H as (s' & b' & c' & _ & [= <-]).
Qed.

Lemma py_slice_to_firstn (pre : text) c post :
  py_slice_to (pre ++ c :: post) (len (pre ++ [c]) - 1) = pre.
Proof.
  assert (E : len (pre ++ [c]) - 1 = len pre)
    by (unfold len; rewrite length_app; cbn [length]; lia).
  assert (L : len (pre ++ c :: post) = len pre + 1 + len post)
    by (unfold len; rewrite length_app; cbn [length]; lia).
  unfold py_slice_to. rewrite E, py_slice_in.
  - cbn [Z.to_nat skipn]. rewrite Z.sub_0_r. unfold len.
    rewrite Nat2Z.id, firstn_app, Nat.sub_diag, firstn_all. cbn [firstn].
    apply app_nil_r.
  - unfold len in *. lia.
  - unfold len in *. lia.
Qed.

(** When the marker line is not the first line, the text that is scanned
    is what comes before the newline that precedes the marker line. *)
Lemma limit_output_cut clang_output e :
  re_search REGEX_END clang_output = Some e ->
  0 < m_start e ->
  exists pre c post,
    clang_output = pre ++ c :: lines ["Enabled checks:"] ++ post /\
    m_start e = len (pre ++ [c]) /\
    limit_output clang_output = pre.
Proof.
  intros Hsearch Hpos. unfold limit_output. rewrite Hsearch.
  unfold re_search in Hsearch.
  apply search_from_sound in Hsearch as (pre' & post' & bol' & -> & Hm).
  pose proof (match_here_start _ _ _ _ _ Hm) as Hstart.
  apply match_here_matches in Hm as (s' & b' & c' & Hm).
  cbv [REGEX_END cat fold_right] in Hm. inv_matches.
  rewrite Hstart in *. cbn [Z.add] in *.
  destruct (exists_last (l := pre')) as (pre & c & ->).
  { intros ->. unfold len in Hpos. simpl in Hpos. lia. }
  exists pre, c, s'. split; [|split; [reflexivity|]].
  - rewrite <- app_assoc. cbn [app].
    match goal with H : is_nl ?x = true |- _ =>
      apply Ascii.eqb_eq in H; subst x end.
    reflexivity.
  - rewrite <- app_assoc. cbn [app]. apply py_slice_to_firstn.
Qed.

Lemma parse_issues_kinds_witness :
  exists issues,
    parse_issues 4300 [] note_first_output = Ok issues /\
    parse_loop 4300 [] (limit_output note_first_output)
      (skipn 1 (headers_of note_first_output)) [] = Ok issues.
Proof.
  destruct (parse_issues_kinds 4300 [] note_first_output)
    as (issues & Hp & _ & H); [vm_compute; reflexivity|].
  exists issues. split; [exact Hp|].
  apply (H [] (nth 0 (headers_of note_first_output) (mkMatch 0 0 []))
           (skipn 1 (headers_of note_first_output))).
  - vm_compute. reflexivity.
  - constructor.
  - vm_compute. reflexivity.
Defined.

(** A note header before any entry, with a line number of 4301 digits,
    under the limit of 4300 digits: the header is not dropped in silence,
    [int] raises ValueError and nothing is returned. *)
Lemma early_note_raises :
  ~ (exists issues, parse_issues 4300 [] long_note_output = Ok issues).
Proof.
  intros (issues & H).
  rewrite parse_issues_over in H by (vm_compute; reflexivity).
  discriminate H.
Qed.

(** ** A text without any header *)

(** What a pattern consumes does not depend on the text that follows. *)
Lemma matches_frame r s b c s' b' c' :
  matches r s b c s' b' c' ->
  forall m t, s = m ++ s' -> matches r (m ++ t) b c t b' c'.
Proof.
  induction 1 as [ s b c | cls x s b c Hx | p s b c | s c
                 | a1 a2 s0 b0 c0 s1 b1 c1 s2 b2 c2 H1 IH1 H2 IH2
                 | a1 a2 s0 b0 c0 s1 b1 c1 _ IH
                 | a1 a2 s0 b0 c0 s1 b1 c1 _ IH
                 | cls w s b c Hw Hall
                 | a s0 b0 c0 s1 b1 c1 _ IH
                 | a s b c
                 | n a s0 b0 c0 s1 b1 c1 H1 IH ];
    intros m t E.
  - assert (m = []) as ->
      by (apply (app_inv_tail s); now rewrite <- E).
    constructor.
  - assert (m = [x]) as -> by (apply (app_inv_tail s); now rewrite <- E).
    now constructor.
  - apply app_inv_tail in E as <-. constructor.
  - assert (m = []) as ->
      by (apply (app_inv_tail s); now rewrite <- E).
    constructor.
  - destruct (matches_suffix _ _ _ _ _ _ _ H1) as [m1 E1].
    destruct (matches_suffix _ _ _ _ _ _ _ H2) as [m2 E2].
    assert (m = m1 ++ m2) as ->.
    { apply (app_inv_tail s2). now rewrite <- E, E1, E2, app_assoc. }
    rewrite <- app_assoc. econstructor.
    + apply IH1. now rewrite E1, E2.
    + now apply IH2.
  - apply M_AltL. now apply IH.
  - apply M_AltR. now apply IH.
  - apply app_inv_tail in E as <-. now constructor.
  - apply M_OptY. now apply IH.
  - assert (m = []) as ->
      by (apply (app_inv_tail s); now rewrite <- E).
    apply M_OptN.
  - subst s0.
    replace (consumed (m ++ s1) s1) with (consumed (m ++ t) t)
      by now rewrite !consumed_app.
    constructor. now apply IH.
Qed.

Lemma match_here_frame r (s t : text) pos pos' bol :
  match_here r s pos bol <> None -> match_here r (s ++ t) pos' bol <> None.
Proof.
  destruct (match_here r s pos bol) as [m|] eqn:E; [intros _|congruence].
  apply match_here_matches in E as (s' & b' & c' & H).
  destruct (matches_suffix _ _ _ _ _ _ _ H) as [w ->].
  rewrite <- app_assoc.
  eapply matches_match_here, (matches_frame _ _ _ _ _ _ _ H w); reflexivity.
Qed.

Lemma bol_after_cons bol c (pre : text) :
  bol_after bol (c :: pre) = bol_after (is_nl c) pre.
Proof. now destruct pre. Qed.

Lemma match_here_none_pos r (s : text) pos pos' bol :
  match_here r s pos bol = None -> match_here r s pos' bol = None.
Proof.
  intros H. destruct (match_here r s pos' bol) eqn:E; [|reflexivity].
  exfalso. apply (match_here_frame r s [] pos' pos bol).
  - congruence.
  - now rewrite app_nil_r.
Qed.

Lemma search_from_none r (s : text) : forall pos bol,
  search_from r s pos bol = None ->
  forall pre post pos',
    s = pre ++ post -> match_here r post pos' (bol_after bol pre) = None.
Proof.
  induction s as [|c s IH]; intros pos bol Hs pre post pos' E;
    cbn [search_from] in Hs;
    destruct (match_here r _ pos bol) eqn:Hm; try discriminate.
  - symmetry in E. apply app_eq_nil in E as [-> ->]. cbn [bol_after].
    exact (match_here_none_pos _ _ _ _ _ Hm).
  - destruct pre as [|x pre].
    + cbn [app] in E. subst post. cbn [bol_after].
      exact (match_here_none_pos _ _ _ _ _ Hm).
    + injection E as <- ->. rewrite bol_after_cons.
      now apply (IH (pos + 1) (is_nl c) Hs pre post pos').
Qed.

Lemma finditer_from_none r (s : text) : forall pos bol skip,
  (forall pre post pos',
     s = pre ++ post -> match_here r post pos' (bol_after bol pre) = None) ->
  finditer_from r s pos bol skip = [].
Proof.
  induction s as [|c s IH]; intros pos bol skip H.
  - destruct skip; cbn [finditer_from]; [|reflexivity].
    pose proof (H [] [] pos eq_refl) as H0. cbn [bol_after] in H0.
    now rewrite H0.
  - assert (Hrest : forall pre post pos',
              s = pre ++ post ->
              match_here r post pos' (bol_after (is_nl c) pre) = None).
    { intros pre post pos' ->. rewrite <- (bol_after_cons bol).
      now apply (H (c :: pre) post pos'). }
    destruct skip; cbn [finditer_from].
    + pose proof (H [] (c :: s) pos eq_refl) as H0. cbn [bol_after] in H0.
      rewrite H0. now apply IH.
    + now apply IH.
Qed.

Lemma py_slice_to_prefix (t : text) hi :
  exists n, py_slice_to t hi = firstn n t.
Proof.
  unfold py_slice_to, py_slice.
  rewrite (clip_in (len t) 0) by (unfold len; lia).
  cbn [Z.to_nat skipn]. eexists. reflexivity.
Qed.

(** A text in which the header pattern matches nowhere has no header. *)
Lemma headers_of_none clang_output :
  re_search REGEX_HEADER clang_output = None -> headers_of clang_output = [].
Proof.
  intros Hnone. rewrite headers_of_finditer.
  assert (Hcut : exists n, limit_output clang_output = firstn n clang_output).
  { unfold limit_output.
    destruct (re_search REGEX_END clang_output);
      [apply py_slice_to_prefix|].
    exists (length clang_output). now rewrite firstn_all. }
  destruct Hcut as [n ->]. apply finditer_from_none.
  intros pre post pos' E.
  destruct (match_here REGEX_HEADER post pos' (bol_after true pre)) eqn:Hm;
    [|reflexivity].
  exfalso.
  apply (match_here_frame REGEX_HEADER post (skipn n clang_output) pos' pos'
           (bol_after true pre)); [congruence|].
  apply (search_from_none _ _ _ _ Hnone pre).
  now rewrite app_assoc, <- E, firstn_skipn.
Qed.

(** ** The headers are matches of the pattern *)

Lemma finditer_from_matches r (s : text) : forall pos bol skip m,
  In m (finditer_from r s pos bol skip) ->
  exists pre post,
    s = pre ++ post /\
    match_here r post (pos + len pre) (bol_after bol pre) = Some m.
Proof.
  assert (Hcons : forall c (pre : text) pos,
            pos + 1 + len pre = pos + len (c :: pre))
    by (intros; unfold len; cbn [length]; lia).
  induction s as [|c s IH]; intros pos bol skip m Hin.
  - destruct skip; cbn [finditer_from] in Hin; [|easy].
    destruct (match_here r [] pos bol) as [m0|] eqn:E; [|easy].
    destruct Hin as [<-|[]]. exists [], []. split; [reflexivity|].
    cbn [bol_after]. now rewrite Z.add_0_r.
  - assert (Hrest : forall skip',
              In m (finditer_from r s (pos + 1) (is_nl c) skip') ->
              exists pre post,
                c :: s = pre ++ post /\
                match_here r post (pos + len pre) (bol_after bol pre) = Some m).
    { intros skip' H. apply IH in H as (pre & post & -> & H).
      exists (c :: pre), post. split; [reflexivity|].
      now rewrite bol_after_cons, <- Hcons. }
    destruct skip; cbn [finditer_from] in Hin; [|now apply Hrest in Hin].
    destruct (match_here r (c :: s) pos bol) as [m0|] eqn:E;
      [|now apply Hrest in Hin].
    destruct Hin as [<-|Hin]; [|now apply Hrest in Hin].
    exists [], (c :: s). split; [reflexivity|].
    cbn [bol_after]. now rewrite Z.add_0_r.
Qed.

(** Every header of the loop is a match of REGEX_HEADER in the text that is
    scanned, at its start offset. *)
Lemma headers_of_matches clang_output h :
  In h (headers_of clang_output) ->
  exists pre post,
    limit_output clang_output = pre ++ post /\
    m_start h = len pre /\
    match_here REGEX_HEADER post (len pre) (bol_after true pre) = Some h.
Proof.
  rewrite headers_of_finditer. unfold finditer. intros H.
  apply finditer_from_matches in H as (pre & post & E & H).
  rewrite Z.add_0_l in H. exists pre, post.
  split; [exact E|]. split; [|exact H].
  exact (match_here_start _ _ _ _ _ H).
Qed.

(** The number of entries, counted on the matches of REGEX_HEADER in the
    text that is scanned: those of kind warning or error, less those of
    them whose check id is clang-diagnostic-error. *)
Lemma parse_issues_length L work_dir clang_output :
  within_limit L clang_output = true ->
  exists issues,
    parse_issues L work_dir clang_output = Ok issues /\
    length issues
    = (length (filter problem_header (headers_of clang_output))
       - length (filter skipped_header (headers_of clang_output)))%nat /\
    (re_search REGEX_HEADER clang_output = None -> issues = []).
Proof.
  intros Hw.
  destruct (parse_issues_records L work_dir clang_output Hw)
    as (recs & _ & H2 & Hparse).
  exists (fold_left classify recs []). split; [exact Hparse|]. split.
  - rewrite fold_classify_length, (kept_count _ _ H2). simpl. lia.
  - intros Hnone. apply headers_of_none in Hnone.
    rewrite Hnone in H2. inversion H2. reflexivity.
Qed.

(** C1 at a text of three header lines, a warning, a note and a second
    warning, each made of its groups as the grammar has them: the message
    of the note runs over the newline, which the message class admits, and
    takes in the second warning line up to its check id.  The description
    counts two entries; the result has one: the second warning is in the
    message of the note of the first. *)
Theorem note_line_hides_warning :
  header_line "a.cpp:1:1: warning: first [c1]"
    [Some (str "a.cpp"); Some (str "1"); Some (str "1");
     Some (str "warning"); Some (str "first"); Some (str "c1")] /\
  header_line "a.cpp:1:5: note: see here"
    [Some (str "a.cpp"); Some (str "1"); Some (str "5");
     Some (str "note"); Some (str "see here"); None] /\
  header_line "b.cpp:2:2: warning: second [c2]"
    [Some (str "b.cpp"); Some (str "2"); Some (str "2");
     Some (str "warning"); Some (str "second"); Some (str "c2")] /\
  described_count
    [[Some (str "a.cpp"); Some (str "1"); Some (str "1");
      Some (str "warning"); Some (str "first"); Some (str "c1")];
     [Some (str "a.cpp"); Some (str "1"); Some (str "5");
      Some (str "note"); Some (str "see here"); None];
     [Some (str "b.cpp"); Some (str "2"); Some (str "2");
      Some (str "warning"); Some (str "second"); Some (str "c2")]]
  = 2%nat /\
  forall L,
    parse_issues L [] note_between_output
    = Ok [ {| path := str "a.cpp"; line := 1; char := 1;
              type := Some (str "warning"); message := Some (str "first");
              check := Some (str "c1"); body := Some [];
              notes :=
                [ {| path := str "a.cpp"; line := 1; char := 5;
                     type := Some (str "note");
                     message :=
                       Some (str "see here"
                             ++ nl :: str "b.cpp:2:2: warning: second");
                     check := Some (str "c2"); body := Some [];
                     notes := [] |} ] |} ].
Proof.
  unfold header_line, header_groups.
  split; [|split; [|split; [|split; [reflexivity|]]]].
  - split; [|split; reflexivity].
    do 6 eexists. split; [reflexivity|].
    repeat split; try discriminate; auto.
    right. eexists. split; [reflexivity|]. split; [discriminate|reflexivity].
  - split; [|split; reflexivity].
    do 6 eexists. split; [reflexivity|].
    repeat split; try discriminate; auto.
  - split; [|split; reflexivity].
    do 6 eexists. split; [reflexivity|].
    repeat split; try discriminate; auto.
    right. eexists. split; [reflexivity|]. split; [discriminate|reflexivity].
  - intros L. rewrite parse_issues_short by (vm_compute; reflexivity).
    vm_compute. reflexivity.
Qed.

(** * Further properties of the parser *)

(** ** The result in textual order *)

Lemma bare_no_notes r : notes r = [] -> bare r = r.
Proof. destruct r. cbn [notes bare path line char type message check body]. now intros ->. Qed.

Lemma flatten_app a b : flatten (a ++ b) = flatten a ++ flatten b.
Proof. apply flat_map_app. Qed.

Lemma flatten_link_note issues n :
  issues <> [] -> flatten (link_note issues n) = flatten issues ++ [n].
Proof.
  induction issues as [|i [|j rest] IH]; intros Hne; [congruence| |].
  - cbn [link_note flatten flat_map append_note notes bare path line char
         type message check body app].
    now rewrite app_nil_r, app_nil_r.
  - change (link_note (i :: j :: rest) n) with (i :: link_note (j :: rest) n).
    change (flatten (i :: ?l)) with ((bare i :: notes i) ++ flatten l).
    rewrite IH by discriminate. now rewrite app_assoc.
Qed.

Lemma classify_not_nil issues r : issues <> [] -> classify issues r <> [].
Proof.
  intros Hne E. apply (f_equal (@length _)) in E.
  rewrite classify_length in E. destruct issues; [congruence|].
  simpl in E. lia.
Qed.

Lemma flatten_classify issues r :
  issues <> [] -> notes r = [] ->
  flatten (classify issues r)
  = flatten issues ++ (if skipped r then [] else [r]).
Proof.
  intros Hne Hr. unfold classify, skipped. destruct (is_problem r).
  - destruct (opt_text_eqb (check r) diagnostic_error); cbn [andb].
    + now rewrite app_nil_r.
    + rewrite flatten_app. f_equal.
      cbn [flatten flat_map]. now rewrite Hr, (bare_no_notes r Hr).
  - cbn [andb]. destruct issues as [|i rest]; [congruence|].
    now apply flatten_link_note.
Qed.

Lemma flatten_fold_classify recs : forall issues,
  issues <> [] -> Forall (fun r => notes r = []) recs ->
  flatten (fold_left classify recs issues)
  = flatten issues ++ filter (fun r => negb (skipped r)) recs.
Proof.
  induction recs as [|r recs IH]; intros issues Hne H; cbn [fold_left filter].
  - now rewrite app_nil_r.
  - inversion H as [|? ? Hr Hrest]; subst.
    rewrite IH by (try apply classify_not_nil; assumption).
    rewrite (flatten_classify issues r Hne Hr), <- app_assoc.
    now destruct (skipped r).
Qed.

Lemma flatten_parse recs :
  Forall (fun r => notes r = []) recs ->
  flatten (fold_left classify recs [])
  = filter (fun r => negb (skipped r)) (from_first_kept recs).
Proof.
  induction 1 as [|r recs Hr Hrest IH]; [reflexivity|].
  cbn [fold_left from_first_kept]. destruct (kept r) eqn:Hk.
  - assert (Hc : classify [] r = [r]).
    { unfold classify. unfold kept in Hk.
      apply andb_true_iff in Hk as [-> Hk]. apply negb_true_iff in Hk.
      now rewrite Hk. }
    rewrite Hc, flatten_fold_classify by (discriminate || assumption).
    cbn [filter flatten flat_map app]. rewrite Hr, (bare_no_notes r Hr).
    unfold kept, skipped in *. apply andb_true_iff in Hk as [-> Hk].
    apply negb_true_iff in Hk. rewrite Hk. reflexivity.
  - assert (Hc : classify [] r = []).
    { unfold classify. unfold kept in Hk. destruct (is_problem r);
        [|reflexivity].
      cbn [andb] in Hk. apply negb_false_iff in Hk. now rewrite Hk. }
    now rewrite Hc.
Qed.

(** X1: read entry by entry, each entry followed by its notes, the result
    is the list of the records of the headers from the first kept one on,
    in the order of the text, without the records that are skipped.  The
    result exists when the numbers of the headers are within the limit of
    int. *)
Theorem parse_issues_in_order L work_dir clang_output :
  within_limit L clang_output = true ->
  exists recs issues,
    issue_records L work_dir (limit_output clang_output) (headers_of clang_output)
      = Ok recs /\
    parse_issues L work_dir clang_output = Ok issues /\
    flatten issues
    = filter (fun r => negb (skipped r)) (from_first_kept recs).
Proof.
  intros Hw.
  destruct (parse_issues_records L work_dir clang_output Hw)
    as (recs & Hrecs & H2 & Hparse).
  exists recs, (fold_left classify recs []).
  split; [exact Hrecs|]. split; [exact Hparse|].
  apply flatten_parse. exact (Forall2_no_notes _ _ H2).
Qed.

Lemma parse_issues_in_order_witness :
  exists recs issues,
    issue_records 4300 [] (limit_output skipped_output)
      (headers_of skipped_output) = Ok recs /\
    parse_issues 4300 [] skipped_output = Ok issues /\
    flatten issues
    = filter (fun r => negb (skipped r)) (from_first_kept recs).
Proof.
  apply (parse_issues_in_order 4300 [] skipped_output).
  vm_compute. reflexivity.
Defined.

(** ** The sort *)

(** X2: the matches of a scan come in the order of the text, none is empty
    and none overlaps the next, so sorting them by start changes nothing. *)
Theorem sort_keeps_scan (t : text) :
  sorted_by_start (finditer REGEX_HEADER t) = finditer REGEX_HEADER t /\
  chain 0 (finditer REGEX_HEADER t) (len t).
Proof.
  destruct (finditer_chain REGEX_HEADER header_shape match_here_header t)
    as [Hc _].
  split; [|exact Hc]. unfold sorted_by_start.
  now rewrite (sorted_by_start_chain _ 0 _ [] Hc).
Qed.

(** ** The text and the groups of a header *)

Lemma header_matches_text s bol s' bol' caps' :
  matches REGEX_HEADER s bol no_captures s' bol' caps' ->
  bol = true /\
  header_groups (map caps' (seq 1 (ngroups REGEX_HEADER))) /\
  s = header_text (map caps' (seq 1 (ngroups REGEX_HEADER))) ++ s'.
Proof.
  intros H. cbv [REGEX_HEADER cat fold_right] in H.
  inv_matches.
  all: split; [reflexivity|].
  all: cbn [ngroups REGEX_HEADER cat fold_right Nat.add seq map set_capture
            Nat.eqb].
  all: rewrite ?consumed_app.
  all: match goal with Hx : is_nl ?x = true |- _ =>
         apply Ascii.eqb_eq in Hx; subst x end.
  all: split;
    [ unfold header_groups; do 6 eexists; split; [reflexivity|];
      repeat split; eauto
    | cbn [header_text]; rewrite <- ?app_assoc; reflexivity ].
Qed.

Lemma bol_after_last bol (l : text) x : bol_after bol (l ++ [x]) = is_nl x.
Proof.
  unfold bol_after. destruct (l ++ [x]) eqn:E.
  - now destruct l.
  - now rewrite <- E, last_last.
Qed.

Lemma bol_after_true (pre : text) :
  bol_after true pre = true -> pre = [] \/ exists pre', pre = pre' ++ [nl].
Proof.
  destruct pre as [|c pre]; [now left|]. intros H. right.
  destruct (exists_last (l := c :: pre)) as (pre' & x & E); [discriminate|].
  rewrite E in H |- *. rewrite bol_after_last in H.
  apply Ascii.eqb_eq in H. subst x. now exists pre'.
Qed.

Lemma header_in_text clang_output h :
  In h (headers_of clang_output) ->
  exists pre post,
    limit_output clang_output = pre ++ header_text (m_groups h) ++ post /\
    m_start h = len pre /\
    m_end h = len pre + len (header_text (m_groups h)) /\
    (pre = [] \/ exists pre', pre = pre' ++ [nl]) /\
    header_groups (m_groups h).
Proof.
  intros Hin. apply headers_of_matches in Hin as (pre & post & E & Hs & Hm).
  unfold match_here in Hm.
  apply rmatch_sound in Hm as (s' & b' & c' & Hm & [= <-]).
  apply header_matches_text in Hm as (Hbol & Hg & Ht).
  cbn [m_groups m_start m_end] in *.
  exists pre, s'. split; [now rewrite E, Ht|].
  split; [reflexivity|]. split.
  - unfold len. rewrite Ht, length_app, Nat.add_sub. reflexivity.
  - split; [now apply bol_after_true|exact Hg].
Qed.

(** X3: a header of the scan starts at the start of the text or right
    after a newline, and the text it covers is exactly its groups put
    together: path, line, column, kind, message, the check id in brackets
    when there is one, and the newline. *)
Theorem headers_are_their_groups clang_output h :
  In h (headers_of clang_output) ->
  exists pre post,
    limit_output clang_output = pre ++ header_text (m_groups h) ++ post /\
    m_start h = len pre /\
    m_end h = len pre + len (header_text (m_groups h)) /\
    (pre = [] \/ exists pre', pre = pre' ++ [nl]) /\
    header_groups (m_groups h).
Proof. exact (header_in_text clang_output h). Qed.

Lemma headers_are_their_groups_witness :
  exists pre post,
    limit_output example_output
    = pre ++ str "a.cpp:2:1: note: msg2 [c2]" ++ nl :: post /\
    (pre = [] \/ exists pre', pre = pre' ++ [nl]).
Proof.
  destruct (headers_are_their_groups example_output
              (nth 1 (headers_of example_output) (mkMatch 0 0 [])))
    as (pre & post & E & _ & _ & Hpre & _).
  - vm_compute. right. left. reflexivity.
  - exists pre, post. split; [exact E|exact Hpre].
Defined.

(** ** Where the text goes *)

Lemma skipn_len_app (pre x : text) : skipn (Z.to_nat (len pre)) (pre ++ x) = x.
Proof.
  unfold len. rewrite Nat2Z.id, skipn_app, skipn_all, Nat.sub_diag.
  reflexivity.
Qed.

Lemma header_skipn clang_output h :
  In h (headers_of clang_output) ->
  skipn (Z.to_nat (m_start h)) (limit_output clang_output)
  = header_text (m_groups h)
    ++ skipn (Z.to_nat (m_end h)) (limit_output clang_output).
Proof.
  intros Hh.
  destruct (header_in_text clang_output h Hh)
    as (pre & post & -> & -> & -> & _).
  rewrite skipn_len_app. f_equal.
  replace (len pre + len (header_text (m_groups h)))
    with (len (pre ++ header_text (m_groups h)))
    by (unfold len; rewrite length_app; lia).
  now rewrite app_assoc, skipn_len_app.
Qed.

Lemma laid_out_bodies (t : text) hs : forall h recs,
  Forall (fun h => skipn (Z.to_nat (m_start h)) t
                   = header_text (m_groups h) ++ skipn (Z.to_nat (m_end h)) t)
    (h :: hs) ->
  bodies_between t (h :: hs) recs ->
  laid_out (skipn (Z.to_nat (m_start h)) t) (h :: hs) recs.
Proof.
  induction hs as [|next hs IH]; intros h recs HF Hb;
    destruct recs as [|r recs]; try destruct Hb as [Hbody Hrest];
    try contradiction; inversion HF as [|? ? Hh HF']; subst.
  - destruct recs; [|destruct Hrest]. cbn [laid_out].
    exists (skipn (Z.to_nat (m_end h)) t), []. split; [exact Hbody|].
    split; [|reflexivity]. now rewrite app_nil_r.
  - destruct Hbody as (b & sep & Hbody & Hsep & E).
    change (exists b0 rest,
              body r = Some b0 /\
              skipn (Z.to_nat (m_start h)) t
              = header_text (m_groups h) ++ b0 ++ rest /\
              exists sep0 t',
                rest = sep0 ++ t' /\
                (length sep0 = 1%nat \/ (sep0 = [] /\ b0 = [])) /\
                laid_out t' (next :: hs) recs).
    exists b, (sep ++ skipn (Z.to_nat (m_start next)) t).
    split; [exact Hbody|]. split; [now rewrite Hh, E|].
    exists sep, (skipn (Z.to_nat (m_start next)) t).
    split; [reflexivity|]. split.
    + destruct Hsep as [Hsep|(Hs & Hb0 & _)]; [now left|now right].
    + now apply IH.
Qed.

Lemma scanned_bodies clang_output recs :
  bodies_between (limit_output clang_output) (headers_of clang_output) recs ->
  scanned_as (limit_output clang_output) (headers_of clang_output) recs.
Proof.
  intros Hb. unfold scanned_as.
  assert (HF : Forall (fun h =>
                 skipn (Z.to_nat (m_start h)) (limit_output clang_output)
                 = header_text (m_groups h)
                   ++ skipn (Z.to_nat (m_end h)) (limit_output clang_output))
                 (headers_of clang_output)).
  { apply Forall_forall. intros h Hh. now apply header_skipn. }
  pose proof (header_in_text clang_output) as Hin.
  destruct (headers_of clang_output) as [|h hs].
  - now destruct recs.
  - destruct (Hin h (or_introl eq_refl)) as (pre & post & E & Hs & _).
    exists pre, (skipn (Z.to_nat (m_start h)) (limit_output clang_output)).
    split; [|split; [exact Hs|now apply laid_out_bodies]].
    rewrite Hs. rewrite E at 1. now rewrite E, skipn_len_app.
Qed.

(** C9, as amended: [parse_issues] raises ValueError when the line or the
    column of some header has more digits than the limit of int, which no
    header has when the limit is 0, and otherwise it returns; it raises
    nothing else.  The text that is
    scanned is then made of what comes before the first header match,
    which is in no record, and for every header match of the text of the
    header, the body of its record and one more character before the next
    header.  The entries are the records grouped: a record that is dropped
    takes its body with it. *)
Theorem parse_issues_total L work_dir clang_output :
  within_limit 0 clang_output = true /\
  (within_limit L clang_output = false ->
   parse_issues L work_dir clang_output = Raise ValueError) /\
  (within_limit L clang_output = true ->
   exists recs,
     issue_records L work_dir (limit_output clang_output)
       (headers_of clang_output) = Ok recs /\
     parse_issues L work_dir clang_output = Ok (grouped recs) /\
     scanned_as (limit_output clang_output) (headers_of clang_output) recs).
Proof.
  split; [apply within_no_limit|].
  split; [apply parse_issues_over|]. intros Hw.
  destruct (parse_issues_bodies L work_dir clang_output Hw)
    as (recs & Hrecs & _ & Hb & Hparse).
  exists recs. split; [exact Hrecs|]. split.
  - now rewrite <- fold_classify_nil.
  - now apply scanned_bodies.
Qed.

Lemma parse_issues_total_witness :
  exists recs,
    issue_records 4300 [] (limit_output example_output)
      (headers_of example_output) = Ok recs /\
    parse_issues 4300 [] example_output = Ok (grouped recs) /\
    scanned_as (limit_output example_output) (headers_of example_output) recs.
Proof.
  apply (proj2 (proj2 (parse_issues_total 4300 [] example_output))).
  vm_compute. reflexivity.
Defined.

(** A header whose line number has 4301 digits, under the limit of 4300
    digits: [int] raises ValueError and nothing is returned. *)
Lemma long_number_raises :
  ~ (exists issues, parse_issues 4300 [] long_number_output = Ok issues).
Proof.
  intros (issues & H).
  rewrite parse_issues_over in H by (vm_compute; reflexivity).
  discriminate H.
Qed.

(** ** Where the entries and the notes come from *)

Lemma bare_append_note i n : bare (append_note i n) = bare i.
Proof. reflexivity. Qed.

Lemma link_note_all (P : ClangIssue -> Prop) issues n :
  (forall i m, P i -> P (append_note i m)) ->
  all_issues P issues -> P n -> all_issues P (link_note issues n).
Proof.
  intros Hstable H Hn. unfold all_issues in *.
  induction H as [|i rest [Hi Hns] Hrest IH]; cbn [link_note]; [constructor|].
  destruct rest as [|j rest].
  - constructor; [|constructor]. split; [now apply Hstable|].
    cbn [append_note notes]. apply Forall_app. split; [exact Hns|].
    now constructor.
  - constructor; [now split|exact IH].
Qed.

Lemma fold_classify_all (P : ClangIssue -> Prop) recs :
  (forall i m, P i -> P (append_note i m)) ->
  Forall P recs -> Forall (fun r => notes r = []) recs ->
  forall issues, all_issues P issues ->
  all_issues P (fold_left classify recs issues).
Proof.
  intros Hstable HP Hnotes. revert Hnotes.
  induction HP as [|r recs Hr _ IH]; intros Hnotes issues H;
    cbn [fold_left]; [exact H|].
  inversion Hnotes as [|? ? Hn Hrest]; subst.
  apply (IH Hrest). unfold classify. destruct (is_problem r).
  - destruct (opt_text_eqb (check r) diagnostic_error); [exact H|].
    apply Forall_app. split; [exact H|]. constructor; [|constructor].
    split; [exact Hr|]. rewrite Hn. constructor.
  - destruct issues as [|i rest]; [constructor|].
    now apply link_note_all.
Qed.

Lemma ClangIssue_init_notes L work_dir groups i :
  ClangIssue_init L groups work_dir = Ok i -> notes i = [].
Proof.
  unfold ClangIssue_init.
  destruct groups as [|g1 [|g2 [|g3 [|g4 [|g5 [|g6 [|]]]]]]];
    try discriminate.
  destruct g1; [|discriminate]. cbn [bind].
  destruct (int_ L g2); [|discriminate]. cbn [bind].
  destruct (int_ L g3); [|discriminate]. cbn [bind].
  now intros [= <-].
Qed.

Lemma issue_records_made L work_dir t hs : forall recs,
  issue_records L work_dir t hs = Ok recs ->
  Forall2 (made_from L work_dir) hs recs.
Proof.
  induction hs as [|h hs IH]; intros recs H; cbn [issue_records] in H.
  - injection H as <-. constructor.
  - destruct (ClangIssue_init L (m_groups h) work_dir) as [i|] eqn:Hi;
      [|discriminate].
    cbn [bind] in H.
    destruct (issue_records L work_dir t hs) as [more|]; [|discriminate].
    cbn [bind] in H. injection H as <-.
    constructor; [|now apply IH].
    exists i. eexists. split; [exact Hi|].
    apply bare_no_notes. cbn [set_body notes].
    exact (ClangIssue_init_notes _ _ _ _ Hi).
Qed.

Lemma Forall2_In_left {A B} (R : A -> B -> Prop) l l' :
  Forall2 R l l' -> Forall (fun y => exists x, In x l /\ R x y) l'.
Proof.
  induction 1 as [|x y l l' Hxy _ IH]; constructor.
  - exists x. split; [now left|exact Hxy].
  - eapply Forall_impl; [|exact IH].
    intros b (a & Ha & Hab). exists a. split; [now right|exact Hab].
Qed.

Lemma made_from_stable L work_dir h i m :
  made_from L work_dir h i -> made_from L work_dir h (append_note i m).
Proof. exact (fun H => H). Qed.

(** Every entry of the result and every note is, leaving notes aside, the
    issue that [__init__] makes of one of the headers, with a body. *)
Lemma parse_issues_made L work_dir clang_output :
  within_limit L clang_output = true ->
  exists issues,
    parse_issues L work_dir clang_output = Ok issues /\
    all_issues (fun d => exists h, In h (headers_of clang_output)
                                   /\ made_from L work_dir h d) issues.
Proof.
  intros Hw.
  destruct (parse_issues_records L work_dir clang_output Hw)
    as (recs & Hrecs & H2 & Hparse).
  exists (fold_left classify recs []). split; [exact Hparse|].
  apply fold_classify_all.
  - intros i m (h & Hh & Hm). exists h. now split.
  - apply Forall2_In_left. now apply (issue_records_made _ _ _ _ _ Hrecs).
  - exact (Forall2_no_notes _ _ H2).
  - constructor.
Qed.

Lemma ClangIssue_init_fields L work_dir p l c k msg chk i :
  ClangIssue_init L [Some p; Some l; Some c; Some k; Some msg; chk] work_dir
    = Ok i ->
  path i = (if startswith p work_dir
            then py_slice_from p (len work_dir) else p) /\
  int_ L (Some l) = Ok (line i) /\ int_ L (Some c) = Ok (char i) /\
  type i = Some k /\ message i = Some msg /\ check i = chk.
Proof.
  unfold ClangIssue_init. cbn [bind].
  destruct (int_ L (Some l)); [|discriminate]. cbn [bind].
  destruct (int_ L (Some c)); [|discriminate]. cbn [bind].
  intros [= <-]. now repeat split.
Qed.

Lemma startswith_app (p w : text) :
  startswith p w = true -> p = w ++ py_slice_from p (len w).
Proof.
  revert p. induction w as [|c w IH]; intros p H.
  - cbn [app]. symmetry. apply py_slice_from_skipn. unfold len. simpl. lia.
  - destruct p as [|x p]; [discriminate|]. cbn [startswith] in H.
    apply andb_true_iff in H as [Hx H]. apply Ascii.eqb_eq in Hx. subst x.
    cbn [app]. f_equal. rewrite (IH p H) at 1. f_equal.
    assert (Hlen : (length w <= length p)%nat).
    { rewrite (IH p H), length_app. lia. }
    rewrite !py_slice_from_skipn; unfold len; cbn [length]; try lia.
    replace (Z.to_nat (Z.of_nat (S (length w)))) with (S (length w)) by lia.
    now rewrite Nat2Z.id.
Qed.

Lemma forallb_firstn {A} (f : A -> bool) n l :
  forallb f l = true -> forallb f (firstn n l) = true.
Proof.
  revert n. induction l as [|x l IH]; intros [|n] H; try reflexivity.
  cbn [forallb firstn] in *. apply andb_true_iff in H as [-> H]. now apply IH.
Qed.

Lemma forallb_skipn {A} (f : A -> bool) n l :
  forallb f l = true -> forallb f (skipn n l) = true.
Proof.
  revert n. induction l as [|x l IH]; intros [|n] H; try assumption;
    try reflexivity.
  cbn [forallb skipn] in *. apply andb_true_iff in H as [_ H]. now apply IH.
Qed.

(** X4: every entry of the result and every note has a message that is not
    empty and holds characters of the message class only, a check id that
    is absent or not empty and made of word characters, dots and hyphens,
    and a path without a newline.  The result exists when the numbers of
    the headers are within the limit of int. *)
Theorem parse_issues_fields L work_dir clang_output :
  within_limit L clang_output = true ->
  exists issues,
    parse_issues L work_dir clang_output = Ok issues /\
    all_issues fields_ok issues.
Proof.
  intros Hw.
  destruct (parse_issues_made L work_dir clang_output Hw)
    as (issues & Hp & H).
  exists issues. split; [exact Hp|].
  unfold all_issues in *. eapply Forall_impl; [|exact H].
  assert (Hone : forall d,
            (exists h, In h (headers_of clang_output)
                       /\ made_from L work_dir h d) -> fields_ok d).
  { intros d (h & Hin & i & b & Hi & Hb).
    destruct (header_in_text clang_output h Hin)
      as (_ & _ & _ & _ & _ & _ & Hg).
    destruct Hg as (p & l & c & k & msg & chk & Hg & [_ Hp'] & _ & _ & _
                    & Hmsg & Hchk).
    rewrite Hg in Hi. apply ClangIssue_init_fields in Hi
      as (Hpath & _ & _ & _ & Hm & Hc).
    assert (Ed : path d = path i /\ message d = message i
                 /\ check d = check i).
    { change (path d) with (path (bare d)).
      change (message d) with (message (bare d)).
      change (check d) with (check (bare d)). now rewrite Hb. }
    destruct Ed as (Ep & Em & Ec). unfold fields_ok.
    rewrite Ep, Em, Ec, Hm, Hc, Hpath. repeat split.
    - exists msg. now split.
    - exact Hchk.
    - destruct (startswith p work_dir); [|exact Hp'].
      unfold py_slice_from, py_slice.
      now apply forallb_firstn, forallb_skipn. }
  intros d [Hd Hns]. split; [now apply Hone|].
  eapply Forall_impl; [|exact Hns]. exact Hone.
Qed.

Lemma parse_issues_fields_witness :
  exists issues,
    parse_issues 4300 [] example_output = Ok issues /\
    all_issues fields_ok issues.
Proof.
  apply (parse_issues_fields 4300 [] example_output).
  vm_compute. reflexivity.
Defined.

(** X5: the path of every entry and note is the path of a header of the
    text: with the work directory taken off its front when it starts with
    it, and as it is otherwise.  The result exists when the numbers of the
    headers are within the limit of int. *)
Theorem parse_issues_paths L work_dir clang_output :
  within_limit L clang_output = true ->
  exists issues,
    parse_issues L work_dir clang_output = Ok issues /\
    all_issues
      (fun d => exists h p,
                  In h (headers_of clang_output) /\
                  nth 0 (m_groups h) None = Some p /\
                  path_from work_dir p d) issues.
Proof.
  intros Hw.
  destruct (parse_issues_made L work_dir clang_output Hw)
    as (issues & Hp & H).
  exists issues. split; [exact Hp|].
  unfold all_issues in *. eapply Forall_impl; [|exact H].
  assert (Hone : forall d,
            (exists h, In h (headers_of clang_output)
                       /\ made_from L work_dir h d) ->
            exists h p, In h (headers_of clang_output) /\
                        nth 0 (m_groups h) None = Some p /\
                        path_from work_dir p d).
  { intros d (h & Hin & i & b & Hi & Hb).
    destruct (header_in_text clang_output h Hin)
      as (_ & _ & _ & _ & _ & _ & Hg).
    destruct Hg as (p & l & c & k & msg & chk & Hg & _).
    rewrite Hg in Hi. apply ClangIssue_init_fields in Hi as (Hpath & _).
    exists h, p. split; [exact Hin|]. split; [now rewrite Hg|].
    assert (Ed : path d = path i)
      by (change (path d) with (path (bare d)); now rewrite Hb).
    unfold path_from. rewrite Ed, Hpath.
    destruct (startswith p work_dir) eqn:Hs; [left|right; now split].
    split; [reflexivity|]. now apply startswith_app. }
  intros d [Hd Hns]. split; [now apply Hone|].
  eapply Forall_impl; [|exact Hns]. exact Hone.
Qed.

Lemma parse_issues_paths_witness :
  exists issues,
    parse_issues 4300 (str "/work/") skipped_output = Ok issues /\
    all_issues
      (fun d => exists h p,
                  In h (headers_of skipped_output) /\
                  nth 0 (m_groups h) None = Some p /\
                  path_from (str "/work/") p d) issues.
Proof.
  apply (parse_issues_paths 4300 (str "/work/") skipped_output).
  vm_compute. reflexivity.
Defined.

(** ** A text without a newline *)

Lemma header_text_nl groups :
  header_groups groups -> exists w, header_text groups = w ++ [nl].
Proof.
  intros (p & l & c & k & msg & chk & -> & _). cbn [header_text].
  rewrite !app_assoc. eexists. reflexivity.
Qed.

Lemma match_here_header_nl s pos bol m :
  match_here REGEX_HEADER s pos bol = Some m ->
  exists w s', s = w ++ nl :: s'.
Proof.
  intros H. apply match_here_matches in H as (s' & b' & c' & H).
  apply header_matches_text in H as (_ & Hg & ->).
  apply header_text_nl in Hg as [w ->].
  exists w, s'. now rewrite <- app_assoc.
Qed.

Lemma parse_issues_none L work_dir clang_output :
  re_search REGEX_HEADER clang_output = None ->
  parse_issues L work_dir clang_output = Ok [].
Proof.
  intros Hnone.
  assert (Hw : within_limit L clang_output = true).
  { unfold within_limit. now rewrite (headers_of_none _ Hnone). }
  destruct (parse_issues_records L work_dir clang_output Hw)
    as (recs & _ & H2 & Hparse).
  rewrite (headers_of_none _ Hnone) in H2. inversion H2; subst.
  exact Hparse.
Qed.

(** X6: a text without any newline gives no issue: a header counts only
    when a newline ends it. *)
Theorem no_newline_no_issue L work_dir (clang_output : text) :
  forallb is_dot clang_output = true ->
  parse_issues L work_dir clang_output = Ok [].
Proof.
  intros Hdot. apply parse_issues_none. unfold re_search.
  destruct (search_from REGEX_HEADER clang_output 0 true) as [m|] eqn:E;
    [exfalso|reflexivity].
  apply search_from_sound in E as (pre & post & bol' & -> & E).
  apply match_here_header_nl in E as (w & s' & ->).
  rewrite !forallb_app in Hdot. cbn [forallb] in Hdot.
  apply andb_true_iff in Hdot as [_ Hdot].
  apply andb_true_iff in Hdot as [_ Hdot].
  apply andb_true_iff in Hdot as [Hdot _].
  unfold is_dot, is_nl in Hdot. now rewrite Ascii.eqb_refl in Hdot.
Qed.

Lemma no_newline_no_issue_witness :
  parse_issues 4300 [] unended_output = Ok [].
Proof. apply no_newline_no_issue. vm_compute. reflexivity. Defined.

(** ** The text before the marker line *)

Lemma matches_Cat_Bol r s b c s' b' c' :
  matches (Cat Bol r) s b c s' b' c' -> b = true.
Proof. intros H. now inv_matches. Qed.

Lemma app_same_length {A} (a c b d : list A) :
  a ++ b = c ++ d -> length a = length c -> a = c.
Proof.
  revert c. induction a as [|x a IH]; intros [|y c] E Hl;
    try discriminate Hl; [reflexivity|].
  injection E as -> E. f_equal. apply IH; [exact E|].
  simpl in Hl. lia.
Qed.

Lemma search_from_first r (s : text) : forall pos bol m,
  search_from r s pos bol = Some m ->
  exists pre post,
    s = pre ++ post /\
    match_here r post (pos + len pre) (bol_after bol pre) = Some m /\
    forall pre' post' pos',
      s = pre' ++ post' -> (length pre' < length pre)%nat ->
      match_here r post' pos' (bol_after bol pre') = None.
Proof.
  induction s as [|c s IH]; intros pos bol m; cbn [search_from].
  - destruct (match_here r [] pos bol) eqn:E; [|discriminate].
    intros [= <-]. exists [], []. split; [reflexivity|].
    split; [cbn [bol_after]; now rewrite Z.add_0_r|].
    intros pre' post' pos' _ Hlt. simpl in Hlt. lia.
  - destruct (match_here r (c :: s) pos bol) eqn:E.
    + intros [= <-]. exists [], (c :: s). split; [reflexivity|].
      split; [cbn [bol_after]; now rewrite Z.add_0_r|].
      intros pre' post' pos' _ Hlt. simpl in Hlt. lia.
    + intros H. apply IH in H as (pre & post & -> & H & Hfirst).
      exists (c :: pre), post. split; [reflexivity|]. split.
      * rewrite bol_after_cons.
        replace (pos + len (c :: pre)) with (pos + 1 + len pre); [exact H|].
        unfold len. simpl length. lia.
      * intros pre' post' pos' E' Hlt. destruct pre' as [|x pre'].
        -- cbn [app] in E'. subst post'. cbn [bol_after].
           exact (match_here_none_pos _ _ _ _ _ E).
        -- injection E' as <- E'. rewrite bol_after_cons.
           apply (Hfirst pre' post' pos' E'). simpl in Hlt. lia.
Qed.

Lemma search_none_prefix r (a b : text) pos bol :
  (forall pre' post' pos',
     a ++ b = pre' ++ post' -> (length pre' <= length a)%nat ->
     match_here r post' pos' (bol_after bol pre') = None) ->
  search_from r a pos bol = None.
Proof.
  intros Hfirst.
  destruct (search_from r a pos bol) as [m|] eqn:E; [exfalso|reflexivity].
  apply search_from_first in E as (pre & post & -> & Hm & _).
  apply (match_here_frame r post b (pos + len pre) 0 (bol_after bol pre)).
  - congruence.
  - apply (Hfirst pre (post ++ b) 0).
    + now rewrite app_assoc.
    + rewrite length_app. lia.
Qed.

(** X7: when the first marker line is not the first line of the text, the
    result is that of the text before the newline in front of the marker
    line: nothing from that newline on plays any part. *)
Theorem marker_cuts_result L work_dir clang_output e :
  re_search REGEX_END clang_output = Some e ->
  0 < m_start e ->
  exists pre post,
    clang_output = pre ++ nl :: lines ["Enabled checks:"] ++ post /\
    parse_issues L work_dir clang_output = parse_issues L work_dir pre.
Proof.
  intros Hsearch Hpos.
  destruct (limit_output_cut clang_output e Hsearch Hpos)
    as (pre & c & post & E & Hstart & Hcut).
  unfold re_search in Hsearch.
  apply search_from_first in Hsearch as (pre1 & post1 & E1 & Hm & Hfirst).
  pose proof (match_here_start _ _ _ _ _ Hm) as Hs1.
  rewrite Z.add_0_l in Hs1.
  assert (Hpre1 : pre1 = pre ++ [c]).
  { apply (app_same_length pre1 (pre ++ [c]) post1
             (lines ["Enabled checks:"] ++ post)).
    - now rewrite <- E1, E, <- app_assoc.
    - unfold len in *. lia. }
  assert (Hc : c = nl).
  { apply match_here_matches in Hm as (s' & b' & c' & Hm).
    apply matches_Cat_Bol in Hm.
    rewrite Hpre1, bol_after_last in Hm. now apply Ascii.eqb_eq in Hm. }
  subst c. exists pre, post. split; [exact E|].
  assert (Hnone : re_search REGEX_END pre = None).
  { unfold re_search.
    apply (search_none_prefix REGEX_END pre
             (nl :: lines ["Enabled checks:"] ++ post)).
    intros pre' post' pos' E' Hle. rewrite <- E in E'.
    apply (Hfirst pre' post' pos' E').
    rewrite Hpre1, length_app. simpl length. lia. }
  unfold parse_issues. rewrite Hcut.
  unfold limit_output at 1 2. now rewrite Hnone.
Qed.

Lemma marker_cuts_result_witness :
  exists pre post,
    marker_later_output = pre ++ nl :: lines ["Enabled checks:"] ++ post /\
    parse_issues 4300 [] marker_later_output = parse_issues 4300 [] pre.
Proof.
  destruct (re_search REGEX_END marker_later_output) as [e|] eqn:E;
    [|vm_compute in E; discriminate E].
  apply (marker_cuts_result 4300 [] marker_later_output e E).
  vm_compute in E. injection E as <-. reflexivity.
Defined.

(** ** The longest message *)

Lemma plus_greedy_none {R} cls (m : text) s (k : text -> bool -> option R) :
  plus_greedy cls (m ++ s) k = None ->
  m <> [] -> forallb cls m = true -> k s (is_nl (last m nl)) = None.
Proof.
  intros Hnone Hm Hall.
  destruct (k s (is_nl (last m nl))) eqn:E; [exfalso|reflexivity].
  apply (plus_greedy_complete cls m s k Hm Hall); congruence.
Qed.

(** The repetition takes the longest run after which the rest of the
    pattern matches. *)
Lemma plus_greedy_first {R} cls (s : text) : forall (k : text -> bool -> option R) x,
  plus_greedy cls s k = Some x ->
  exists m s',
    s = m ++ s' /\ m <> [] /\ forallb cls m = true /\
    k s' (is_nl (last m nl)) = Some x /\
    forall m2 s2,
      s = m2 ++ s2 -> (length m < length m2)%nat ->
      forallb cls m2 = true -> k s2 (is_nl (last m2 nl)) = None.
Proof.
  induction s as [|c s IH]; intros k x; cbn [plus_greedy]; [discriminate|].
  destruct (cls c) eqn:Hc; [|discriminate].
  destruct (plus_greedy cls s k) as [y|] eqn:Hrec.
  - intros [= ->].
    destruct (IH k x Hrec) as (m & s' & -> & Hm & Hall & Hk & Hfirst).
    exists (c :: m), s'. split; [reflexivity|]. split; [discriminate|].
    split; [cbn [forallb]; now rewrite Hc|].
    split; [destruct m; [congruence|exact Hk]|].
    intros m2 s2 E Hlt Hall2. destruct m2 as [|c2 m2]; [simpl in Hlt; lia|].
    injection E as <- E. cbn [forallb] in Hall2.
    apply andb_true_iff in Hall2 as [_ Hall2].
    destruct m2 as [|c3 m2]; [simpl in Hlt; lia|].
    apply (Hfirst (c3 :: m2) s2 E); [simpl in *; lia|exact Hall2].
  - intros Hk. exists [c], s. split; [reflexivity|]. split; [discriminate|].
    split; [cbn [forallb]; now rewrite Hc|]. split; [exact Hk|].
    intros m2 s2 E Hlt Hall2. destruct m2 as [|c2 m2]; [simpl in Hlt; lia|].
    injection E as <- E. cbn [forallb] in Hall2.
    apply andb_true_iff in Hall2 as [_ Hall2].
    destruct m2 as [|c3 m2]; [simpl in Hlt; lia|].
    subst s. exact (plus_greedy_none cls (c3 :: m2) s2 k Hrec
                      ltac:(discriminate) Hall2).
Qed.

(** In a text of message characters no check id follows the message: the
    rest of the header is the newline alone. *)
Lemma header_rest_on_message {R} (u : text) b c (k : @cont R) :
  forallb is_message u = true ->
  rmatch HEADER_REST u b c k
  = match u with
    | x :: u' => if is_nl x then k u' (is_nl x) c else None
    | [] => None
    end.
Proof.
  intros Hu. destruct u as [|x [|y u]]; try reflexivity.
  - cbv [HEADER_REST cat fold_right]. cbn [rmatch lit str list_ascii_of_string].
    destruct (Ascii.eqb " " x); reflexivity.
  - cbv [HEADER_REST cat fold_right]. cbn [rmatch lit str list_ascii_of_string].
    destruct (Ascii.eqb " " x) eqn:Ex; [|reflexivity].
    destruct (Ascii.eqb "[" y) eqn:Ey; [|reflexivity].
    apply Ascii.eqb_eq in Ey. subst y. cbn [forallb] in Hu.
    apply andb_true_iff in Hu as [_ Hu].
    apply andb_true_iff in Hu as [Hu _]. vm_compute in Hu. discriminate Hu.
Qed.

Lemma has_newline (s : text) :
  forallb is_dot s = false -> exists a b, s = a ++ nl :: b.
Proof.
  induction s as [|x s IH]; cbn [forallb]; [discriminate|].
  intros H. apply andb_false_iff in H as [H|H].
  - unfold is_dot in H. apply negb_false_iff, Ascii.eqb_eq in H. subst x.
    now exists [], s.
  - destruct (IH H) as (a & b & ->). now exists (x :: a), b.
Qed.

Lemma is_message_nl : is_message nl = true.
Proof. reflexivity. Qed.

Lemma header_tail_on_message {R} (s : text) b c (k : @cont R) x :
  (forall s' b' c', k s' b' c' <> None) ->
  forallb is_message s = true ->
  rmatch HEADER_TAIL s b c k = Some x ->
  exists m s' c',
    s = m ++ nl :: s' /\ forallb is_dot s' = true /\ k s' true c' = Some x.
Proof.
  intros Hk_total Hs H.
  change (rmatch HEADER_TAIL s b c k)
    with (plus_greedy is_message s
            (fun s' bol' =>
               rmatch HEADER_REST s' bol'
                 (set_capture 5 (consumed s s') c) k)) in H.
  apply plus_greedy_first in H as (m & s1 & E & Hm & Hall & Hk & Hfirst).
  assert (Hs1 : forallb is_message s1 = true).
  { rewrite E, forallb_app in Hs. now apply andb_true_iff in Hs as [_ Hs]. }
  rewrite (header_rest_on_message s1 _ _ k Hs1) in Hk.
  destruct s1 as [|y s']; [discriminate|].
  destruct (is_nl y) eqn:Hy; [|discriminate].
  pose proof Hy as Hy'. apply Ascii.eqb_eq in Hy'. subst y.
  exists m, s'. eexists. split; [exact E|]. split; [|exact Hk].
  destruct (forallb is_dot s') eqn:Hdot; [reflexivity|exfalso].
  apply has_newline in Hdot as (a & b' & ->).
  cbn [forallb] in Hs1. apply andb_true_iff in Hs1 as [_ Hs1].
  rewrite forallb_app in Hs1. apply andb_true_iff in Hs1 as [Ha Hb].
  specialize (Hfirst (m ++ nl :: a) (nl :: b')).
  rewrite (header_rest_on_message (nl :: b') _ _ k Hb) in Hfirst.
  rewrite Hy in Hfirst.
  apply (Hk_total b' true
           (set_capture 5 (consumed s (nl :: b')) c)).
  apply Hfirst.
  - now rewrite E, <- app_assoc.
  - rewrite length_app. simpl. lia.
  - rewrite forallb_app, Hall. cbn [forallb andb].
    now rewrite is_message_nl, Ha.
Qed.

Lemma rmatch_Cat_suffix {R} a b (s : text) bol caps (k : @cont R) x :
  rmatch (Cat a b) s bol caps k = Some x ->
  exists w s1 b1 c1, s = w ++ s1 /\ rmatch b s1 b1 c1 k = Some x.
Proof.
  cbn [rmatch]. intros H.
  apply rmatch_sound in H as (s1 & b1 & c1 & Hm & H).
  destruct (matches_suffix _ _ _ _ _ _ _ Hm) as [w ->].
  now exists w, s1, b1, c1.
Qed.

(** In a text of message characters a header runs on to the last newline:
    what is left after it holds no newline. *)
Lemma match_here_on_message (s : text) pos bol m :
  forallb is_message s = true ->
  match_here REGEX_HEADER s pos bol = Some m ->
  exists w s',
    s = w ++ s' /\ m_start m = pos /\ m_end m = pos + len w /\
    forallb is_dot s' = true.
Proof.
  intros Hs H. unfold match_here in H.
  cbv [REGEX_HEADER cat fold_right] in H.
  do 9 (apply rmatch_Cat_suffix in H;
        destruct H as (?w & ?s & ?b & ?c & ?E & H)).
  apply header_tail_on_message in H as (w9 & s' & c' & E9 & Hdot & Hk).
  - injection Hk as <-. subst.
    exists (w ++ w0 ++ w1 ++ w2 ++ w3 ++ w4 ++ w5 ++ w6 ++ w7 ++ w9 ++ [nl]), s'.
    split; [now rewrite <- !app_assoc|]. split; [reflexivity|].
    split; [|exact Hdot]. cbn [m_end]. f_equal. unfold len. f_equal.
    replace (w ++ w0 ++ w1 ++ w2 ++ w3 ++ w4 ++ w5 ++ w6 ++ w7 ++ w9 ++ nl :: s')
      with ((w ++ w0 ++ w1 ++ w2 ++ w3 ++ w4 ++ w5 ++ w6 ++ w7 ++ w9 ++ [nl])
            ++ s') by now rewrite <- !app_assoc.
    rewrite length_app. lia.
  - discriminate.
  - subst. repeat (rewrite forallb_app in Hs;
                   apply andb_true_iff in Hs as [_ Hs]).
    exact Hs.
Qed.

Lemma finditer_from_skip_none r (s : text) : forall pos bol skip,
  (forall pre post pos',
     s = pre ++ post -> (skip <= length pre)%nat ->
     match_here r post pos' (bol_after bol pre) = None) ->
  finditer_from r s pos bol skip = [].
Proof.
  induction s as [|c s IH]; intros pos bol skip H.
  - destruct skip; cbn [finditer_from]; [|reflexivity].
    pose proof (H [] [] pos eq_refl (Nat.le_refl _)) as H0.
    cbn [bol_after] in H0. now rewrite H0.
  - destruct skip; cbn [finditer_from].
    + pose proof (H [] (c :: s) pos eq_refl (Nat.le_refl _)) as H0.
      cbn [bol_after] in H0. rewrite H0. apply IH.
      intros pre post pos' -> Hle. rewrite <- (bol_after_cons bol).
      apply (H (c :: pre) post pos'); [reflexivity|simpl; lia].
    + apply IH. intros pre post pos' -> Hle. rewrite <- (bol_after_cons bol).
      apply (H (c :: pre) post pos'); [reflexivity|simpl; lia].
Qed.

Lemma match_here_header_needs_nl (s : text) pos bol :
  forallb is_dot s = true -> match_here REGEX_HEADER s pos bol = None.
Proof.
  intros Hdot.
  destruct (match_here REGEX_HEADER s pos bol) eqn:E; [exfalso|reflexivity].
  apply match_here_header_nl in E as (w & s' & ->).
  rewrite forallb_app in Hdot. apply andb_true_iff in Hdot as [_ Hdot].
  cbn [forallb] in Hdot. apply andb_true_iff in Hdot as [Hdot _].
  unfold is_dot, is_nl in Hdot. now rewrite Ascii.eqb_refl in Hdot.
Qed.

Lemma app_suffix {A} (a b c d : list A) :
  a ++ b = c ++ d -> (length a <= length c)%nat -> exists x, b = x ++ d.
Proof.
  revert c. induction a as [|y a IH]; intros c E Hle.
  - now exists c.
  - destruct c as [|z c]; [simpl in Hle; lia|].
    injection E as _ E. apply (IH c E). simpl in Hle. lia.
Qed.

Lemma finditer_on_message (s : text) : forall pos bol,
  forallb is_message s = true ->
  (length (finditer_from REGEX_HEADER s pos bol 0) <= 1)%nat.
Proof.
  induction s as [|c s IH]; intros pos bol Hs.
  - cbn [finditer_from].
    rewrite (match_here_header_needs_nl [] pos bol eq_refl). simpl. lia.
  - cbn [finditer_from].
    destruct (match_here REGEX_HEADER (c :: s) pos bol) as [m|] eqn:E.
    + apply match_here_on_message in E as (w & s' & Ew & Hstart & Hend & Hdot);
        [|exact Hs].
      rewrite finditer_from_skip_none; [simpl; lia|].
      intros pre post pos' Epre Hle.
      apply match_here_header_needs_nl.
      assert (Hsuf : exists x, s' = x ++ post).
      { apply (app_suffix w s' (c :: pre) post).
        - now rewrite <- Ew, Epre.
        - rewrite Hend, Hstart in Hle. unfold len in Hle. simpl. lia. }
      destruct Hsuf as [x ->]. rewrite forallb_app in Hdot.
      now apply andb_true_iff in Hdot as [_ Hdot].
    + apply IH. cbn [forallb] in Hs. now apply andb_true_iff in Hs as [_ Hs].
Qed.

(** X8: when the whole output is made of characters of the message class
    (letters, digits, blanks, newlines and the punctuation of the class),
    the message of the first header runs on to the last newline, so the
    text has at most one header: the result, which exists when the numbers
    of that header are within the limit of int, has at most one entry, and
    that entry has no note. *)
Theorem message_swallows_headers L work_dir (clang_output : text) :
  forallb is_message clang_output = true ->
  within_limit L clang_output = true ->
  exists issues,
    parse_issues L work_dir clang_output = Ok issues /\
    (length (headers_of clang_output) <= 1)%nat /\
    (length issues <= 1)%nat /\
    Forall (fun d => notes d = []) issues.
Proof.
  intros Hmsg Hw.
  assert (Hcut : forallb is_message (limit_output clang_output) = true).
  { unfold limit_output. destruct (re_search REGEX_END clang_output);
      [|exact Hmsg].
    destruct (py_slice_to_prefix clang_output (m_start m - 1)) as [n ->].
    now apply forallb_firstn. }
  assert (Hone : (length (headers_of clang_output) <= 1)%nat).
  { rewrite headers_of_finditer. now apply finditer_on_message. }
  destruct (parse_issues_records L work_dir clang_output Hw)
    as (recs & _ & H2 & Hparse).
  exists (fold_left classify recs []). split; [exact Hparse|].
  split; [exact Hone|].
  pose proof (Forall2_length H2) as Hlen.
  pose proof (Forall2_no_notes _ _ H2) as Hnotes.
  destruct recs as [|r [|r' recs]]; [|clear Hlen|simpl in Hlen; lia].
  - split; [simpl; lia|constructor].
  - inversion Hnotes as [|? ? Hr _]; subst. cbn [fold_left].
    unfold classify. destruct (is_problem r);
      [destruct (opt_text_eqb (check r) diagnostic_error)|];
      cbn [app length]; split; try lia; repeat constructor; exact Hr.
Qed.

Lemma message_swallows_headers_witness :
  exists issues,
    parse_issues 4300 [] swallowed_output = Ok issues /\
    (length issues <= 1)%nat.
Proof.
  destruct (message_swallows_headers 4300 [] swallowed_output)
    as (issues & Hp & _ & Hl & _).
  - vm_compute. reflexivity.
  - vm_compute. reflexivity.
  - exists issues. now split.
Defined.

(** * Further properties of the file filter *)

Lemma is_name_char_cases c :
  is_name_char c = true ->
  Ascii.eqb c "(" = false /\ Ascii.eqb c ")" = false /\
  Ascii.eqb c "|" = false /\ is_special c = false.
Proof.
  unfold is_name_char. intros H. apply orb_true_iff in H as [H|H].
  - apply is_plain_cases in H. tauto.
  - apply Ascii.eqb_eq in H. subst c. now repeat split.
Qed.

Lemma compile_name_chars f : forall p stack top next,
  Forall (fun c => is_name_char c = true) f ->
  compile_from (f ++ p) stack top next
  = compile_from p stack
      {| f_alts := f_alts top; f_cur := atoms (f_cur top) f;
         f_group := f_group top |} next.
Proof.
  induction f as [|c f IH]; intros p stack top next H.
  - now destruct top.
  - inversion H as [|? ? Hc Hf]; subst.
    apply is_name_char_cases in Hc as (E1 & E2 & E3 & E4).
    cbn [app compile_from]. rewrite E1, E2, E3.
    assert (Hcls : fragment_class c
                   = if Ascii.eqb c "." then is_dot else Ascii.eqb c)
      by reflexivity.
    destruct (Ascii.eqb c ".") eqn:Ed; [|rewrite E4];
      rewrite IH by exact Hf; unfold push_atom, atoms;
      cbn [fold_left f_alts f_cur f_group]; now rewrite Hcls.
Qed.

Lemma compile_dotted_branches rest : forall f alts n,
  Forall (Forall (fun c => is_name_char c = true)) (f :: rest) ->
  compile_from (str "(" ++ join (str ")|(") (f :: rest) ++ str ")") []
    {| f_alts := alts; f_cur := Eps; f_group := 0 |} n
  = Compiled (dotted_branches (with_alts alts (dotted_branch n f)) (S n) rest).
Proof.
  induction rest as [|g rest IH]; intros f alts n H;
    inversion H as [|? ? Hf Hrest]; subst.
  - cbn [join str list_ascii_of_string app compile_from Ascii.eqb].
    change (compile_from (f ++ [")"%char]) ?s ?t ?k)
      with (compile_from (f ++ str ")") s t k).
    rewrite (compile_name_chars f _ _ _ _ Hf). now destruct alts.
  - change (join (str ")|(") (f :: g :: rest))
      with (f ++ str ")|(" ++ join (str ")|(") (g :: rest)).
    rewrite <- !app_assoc.
    cbn [str list_ascii_of_string app compile_from Ascii.eqb].
    rewrite (compile_name_chars f _ _ _ _ Hf).
    cbn [app compile_from Ascii.eqb f_alts f_cur f_group push_atom close
         next_branch].
    specialize (IH g (Some (with_alts alts (dotted_branch n f))) (S n) Hrest).
    cbn [str list_ascii_of_string app compile_from Ascii.eqb] in IH.
    destruct alts; exact IH.
Qed.

Lemma matches_atoms f : forall acc s b c s' b' c',
  matches (atoms acc f) s b c s' b' c' ->
  exists s1 b1 w,
    matches acc s b c s1 b1 c' /\ s1 = w ++ s' /\ fits f w = true.
Proof.
  unfold atoms. induction f as [|x f IH]; intros acc s b c s' b' c' H.
  - now exists s', b', [].
  - apply IH in H as (s1 & b1 & w & H & -> & Hw).
    inversion H as [| | | |? ? ? ? ? s0 b0 c0 ? ? ? Ha Hx| | | | | |]; subst.
    inversion Hx as [|? y ? ? ? Hy| | | | | | | | |]; subst.
    exists (y :: w ++ s'), b0, (y :: w). split; [exact Ha|].
    split; [reflexivity|]. cbn [fits]. now rewrite Hy, Hw.
Qed.

Lemma atoms_matches f : forall w acc s b c s' b' c',
  fits f w = true ->
  matches acc s b c (w ++ s') b' c' ->
  exists b'', matches (atoms acc f) s b c s' b'' c'.
Proof.
  unfold atoms. induction f as [|x f IH]; intros w acc s b c s' b' c' Hw H;
    destruct w as [|y w]; try discriminate.
  - now exists b'.
  - cbn [fits] in Hw. apply andb_true_iff in Hw as [Hy Hw].
    cbn [fold_left]. eapply (IH w); [exact Hw|].
    econstructor; [exact H|]. now constructor.
Qed.

Lemma matches_dotted_branch n f s b c s' b' c' :
  matches (dotted_branch n f) s b c s' b' c' ->
  exists w, s = w ++ s' /\ fits f w = true.
Proof.
  unfold dotted_branch. intros H. inv_matches.
  match goal with Hm : matches _ _ _ _ _ _ _ |- _ =>
    apply matches_atoms in Hm as (t1 & bt & w & Hm & E & Hw);
    inversion Hm; subst end.
  now exists w.
Qed.

Lemma dotted_branch_matches n f w s b c :
  fits f w = true ->
  exists b' c', matches (dotted_branch n f) (w ++ s) b c s b' c'.
Proof.
  intros Hw.
  destruct (atoms_matches f w Eps (w ++ s) b c s b c Hw) as [b' H];
    [constructor|].
  exists b'. eexists. unfold dotted_branch. econstructor; [constructor|].
  constructor. exact H.
Qed.

Lemma matches_dotted_branches files : forall acc n s b c s' b' c',
  matches (dotted_branches acc n files) s b c s' b' c' ->
  matches acc s b c s' b' c' \/
  exists f w, In f files /\ s = w ++ s' /\ fits f w = true.
Proof.
  induction files as [|f files IH]; intros acc n s b c s' b' c' H;
    [now left|].
  apply IH in H as [H|(g & w & Hg & -> & Hw)].
  - inversion H; subst.
    + now left.
    + right. match goal with Hm : matches (dotted_branch _ _) _ _ _ _ _ _ |- _ =>
        apply matches_dotted_branch in Hm as (w & -> & Hw) end.
      exists f, w. split; [now left|now split].
  - right. exists g, w. split; [now right|now split].
Qed.

Lemma dotted_branches_keep files : forall acc n s b c s' b' c',
  matches acc s b c s' b' c' ->
  matches (dotted_branches acc n files) s b c s' b' c'.
Proof.
  induction files as [|f files IH]; intros acc n s b c s' b' c' H;
    [exact H|].
  apply IH. now apply M_AltL.
Qed.

Lemma dotted_branches_matches files : forall acc n f w s b c,
  In f files -> fits f w = true ->
  exists b' c', matches (dotted_branches acc n files) (w ++ s) b c s b' c'.
Proof.
  induction files as [|g files IH]; intros acc n f w s b c Hin Hw; [easy|].
  destruct Hin as [->|Hin].
  - destruct (dotted_branch_matches n f w s b c Hw) as (b' & c' & H).
    exists b', c'. cbn [dotted_branches]. apply dotted_branches_keep.
    now apply M_AltR.
  - cbn [dotted_branches]. now apply (IH _ _ f).
Qed.

Lemma fits_start_spec f : forall s,
  fits_start f s = true <-> exists w post, s = w ++ post /\ fits f w = true.
Proof.
  induction f as [|c f IH]; intros s; cbn [fits_start].
  - split; [now exists [], s|reflexivity].
  - destruct s as [|x s].
    + split; [discriminate|]. intros ([|y w] & post & E & Hw); discriminate.
    + rewrite andb_true_iff, IH. split.
      * intros [Hx (w & post & -> & Hw)]. exists (x :: w), post.
        split; [reflexivity|]. cbn [fits]. now rewrite Hx, Hw.
      * intros ([|y w] & post & E & Hw); [discriminate|].
        injection E as <- ->. cbn [fits] in Hw.
        apply andb_true_iff in Hw as [Hx Hw]. split; [exact Hx|].
        now exists w, post.
Qed.

Lemma found_spec f : forall s,
  found f s = true
  <-> exists pre w post, s = pre ++ w ++ post /\ fits f w = true.
Proof.
  induction s as [|x s IH]; cbn [found]; rewrite orb_true_iff, fits_start_spec.
  - split.
    + intros [(w & post & E & Hw)|H]; [|discriminate]. now exists [], w, post.
    + intros (pre & w & post & E & Hw). left.
      destruct pre; [now exists w, post|discriminate].
  - rewrite IH. split.
    + intros [(w & post & E & Hw)|(pre & w & post & -> & Hw)].
      * now exists [], w, post.
      * now exists (x :: pre), w, post.
    + intros ([|y pre] & w & post & E & Hw).
      * left. now exists w, post.
      * right. injection E as -> ->. now exists pre, w, post.
Qed.

Lemma fits_refl f : fits f f = true.
Proof.
  induction f as [|c f IH]; [reflexivity|]. cbn [fits]. rewrite IH.
  unfold fragment_class. destruct (Ascii.eqb c ".") eqn:E.
  - apply Ascii.eqb_eq in E. now subst c.
  - now rewrite Ascii.eqb_refl.
Qed.

Lemma file_name_re_dotted f rest :
  Forall (Forall (fun c => is_name_char c = true)) (f :: rest) ->
  file_name_re (f :: rest)
  = Compiled (dotted_branches (dotted_branch 1 f) 2 rest).
Proof.
  intros H. unfold file_name_re, file_name_pattern, re_compile.
  exact (compile_dotted_branches rest f None 1%nat H).
Qed.

Lemma selects_dotted f rest name :
  selects (dotted_branches (dotted_branch 1 f) 2 rest) name
  = existsb (fun g => found g name) (f :: rest).
Proof.
  apply eq_true_iff_eq. rewrite existsb_exists.
  unfold selects, re_search. split.
  - destruct (search_from _ name 0 true) as [m|] eqn:E; [|discriminate].
    intros _. apply search_from_sound in E as (pre & post & bol' & -> & E).
    apply match_here_matches in E as (s' & b' & c' & E).
    apply matches_dotted_branches in E as [E|(g & w & Hg & -> & Hw)].
    + apply matches_dotted_branch in E as (w & -> & Hw).
      exists f. split; [now left|]. apply found_spec. now exists pre, w, s'.
    + exists g. split; [now right|]. apply found_spec. now exists pre, w, s'.
  - intros (g & Hg & Hf). apply found_spec in Hf as (pre & w & post & -> & Hw).
    assert (H : search_from (dotted_branches (dotted_branch 1 f) 2 rest)
                  (pre ++ w ++ post) 0 true <> None).
    { apply search_from_complete. intros pos' bol'.
      destruct Hg as [<-|Hg].
      - destruct (dotted_branch_matches 1 f w post bol' no_captures Hw)
          as (b' & c' & H).
        eapply matches_match_here, dotted_branches_keep, H.
      - destruct (dotted_branches_matches rest (dotted_branch 1 f) 2 g w post
                    bol' no_captures Hg Hw) as (b' & c' & H).
        eapply matches_match_here, H. }
    now destruct (search_from _ (pre ++ w ++ post) 0 true).
Qed.

Lemma contains_found f : forall s, contains s f = true -> found f s = true.
Proof.
  intros s H. apply contains_spec in H as (pre & post & ->).
  apply found_spec. exists pre, f, post. split; [reflexivity|apply fits_refl].
Qed.

(** X9: for fragments written with plain characters and dots, as file
    names are, the names put on the queue are the database entries in
    which some fragment fits somewhere, a dot fitting any character but the
    newline; so every entry that contains a fragment is put on the queue,
    in the order of the database. *)
Theorem dotted_fragments_select files database_files :
  files <> [] ->
  Forall (Forall (fun c => is_name_char c = true)) files ->
  exists names,
    enqueued files database_files = Some (Ok names) /\
    names = filter (fun name => existsb (fun f => found f name) files)
              database_files /\
    forall name f,
      In name database_files -> In f files -> contains name f = true ->
      In name names.
Proof.
  intros Hne Hchars. destruct files as [|f rest]; [congruence|].
  unfold enqueued. rewrite (file_name_re_dotted f rest Hchars).
  eexists. split; [reflexivity|].
  assert (E : filter (selects (dotted_branches (dotted_branch 1 f) 2 rest))
                database_files
              = filter (fun name => existsb (fun g => found g name) (f :: rest))
                  database_files).
  { apply filter_ext. intros name. apply selects_dotted. }
  split; [exact E|].
  intros name g Hname Hg Hc. rewrite E. apply filter_In.
  split; [exact Hname|]. apply existsb_exists. exists g.
  split; [exact Hg|]. now apply contains_found.
Qed.

Lemma dotted_fragments_select_witness :
  exists names,
    enqueued [str "src/a.cpp"; str "b.h"]
      [str "/work/src/a.cpp"; str "/work/src/axcpp"; str "/work/c.cpp"]
    = Some (Ok names) /\
    In (str "/work/src/a.cpp") names.
Proof.
  destruct (dotted_fragments_select [str "src/a.cpp"; str "b.h"]
              [str "/work/src/a.cpp"; str "/work/src/axcpp"; str "/work/c.cpp"])
    as (names & Hn & _ & H).
  - discriminate.
  - repeat constructor.
  - exists names. split; [exact Hn|].
    apply (H (str "/work/src/a.cpp") (str "src/a.cpp")).
    + now left.
    + now left.
    + vm_compute. reflexivity.
Defined.

(** * Further properties of the run *)

Lemma step_queue_bound L work_dir workers clang_tidy s s' :
  step L work_dir workers clang_tidy s s' ->
  (length (queue_workers s) <= workers)%nat ->
  (length (queue_workers s') <= workers)%nat.
Proof.
  destruct 1; cbn [queue_workers]; intros Hq; try exact Hq.
  - rewrite length_app. simpl. lia.
  - simpl in Hq. lia.
Qed.

(** X10: in every state of a run the queue of names holds at most
    [workers] names, and the count of unfinished tasks is the number of
    names in the queue plus the number taken by a thread and not marked
    done. *)
Theorem run_keeps_count L work_dir workers clang_tidy files database_files s0 s :
  run_start workers files database_files = Some s0 ->
  steps L work_dir workers clang_tidy s0 s ->
  (length (queue_workers s) <= workers)%nat /\
  unfinished_tasks s = (length (queue_workers s) + owed (threads s))%nat.
Proof.
  intros Hstart Hsteps. split.
  - assert (H0 : (length (queue_workers s0) <= workers)%nat).
    { unfold run_start in Hstart.
      destruct (enqueued files database_files) as [[todo|e]|];
        try discriminate Hstart; injection Hstart as <-; simpl; lia. }
    induction Hsteps as [|s1 s2 s3 _ IH Hstep]; [exact H0|].
    eapply step_queue_bound; [exact Hstep|]. now apply IH.
  - apply (steps_balanced L work_dir workers clang_tidy s0 s Hsteps).
    eapply run_start_balanced, Hstart.
Qed.

Lemma run_keeps_count_witness :
  (length (queue_workers blocked_state) <= 1)%nat /\
  unfinished_tasks blocked_state
  = (length (queue_workers blocked_state) + owed (threads blocked_state))%nat.
Proof.
  apply (run_keeps_count 4300%nat [] 1 failing_tool [str "a.cpp"] [str "/src/a.cpp"]
           (mkState (Filling [str "/src/a.cpp"]) [] 0 [Waiting] [])).
  - reflexivity.
  - eapply steps_step; [eapply steps_step; [eapply steps_step;
      [eapply steps_step; [apply steps_refl|] |] |] |].
    + apply (step_put 4300%nat [] 1 failing_tool (str "/src/a.cpp") [] [] 0 [Waiting] []).
      simpl. lia.
    + apply step_filled.
    + apply (step_get 4300%nat [] 1 failing_tool Joining (str "/src/a.cpp") [] 1 [] [] []).
    + apply (step_fail 4300%nat [] 1 failing_tool Joining [] 1 [] (str "/src/a.cpp")
               [] [] CalledProcessError).
      reflexivity.
Defined.

(** ** The issues a run returns *)

Lemma busy_app l w r :
  busy (l ++ w :: r) = busy l ++ busy [w] ++ busy r.
Proof.
  induction l as [|x l IH]; cbn [app busy].
  - destruct w; now rewrite ?app_nil_r.
  - destruct x; rewrite IH; reflexivity.
Qed.

Lemma pushed_parts_app l w r :
  pushed_parts (l ++ w :: r)
  = pushed_parts l ++ pushed_parts [w] ++ pushed_parts r.
Proof.
  induction l as [|x l IH]; cbn [app pushed_parts].
  - destruct w; now rewrite ?app_nil_r.
  - destruct x; rewrite IH; reflexivity.
Qed.

Lemma dead_count_app l w r :
  dead_count (l ++ w :: r)
  = (dead_count l + match w with Dead => 1 | _ => 0 end + dead_count r)%nat.
Proof.
  unfold dead_count. rewrite filter_app, length_app. cbn [filter].
  destruct w; cbn [length]; lia.
Qed.

Lemma owed_zero ts :
  owed ts = 0%nat ->
  busy ts = [] /\ pushed_parts ts = [] /\ dead_count ts = 0%nat.
Proof.
  unfold owed, dead_count. induction ts as [|w ts IH]; [now repeat split|].
  cbn [filter busy pushed_parts]. destruct w; cbn [length];
    try discriminate.
  exact IH.
Qed.

Lemma perm_move {A} (a b a' b' : list A) x :
  a ++ b = a' ++ b' -> Permutation (a ++ x :: b) (a' ++ x :: b').
Proof.
  intros E. transitivity (x :: a ++ b).
  - symmetry. apply Permutation_middle.
  - rewrite E. apply Permutation_middle.
Qed.

Lemma perm_move_eq {A} (a b a' b' : list A) x l1 l2 :
  l1 = a ++ x :: b -> l2 = a' ++ x :: b' -> a ++ b = a' ++ b' ->
  Permutation l1 l2.
Proof. intros -> -> E. now apply perm_move. Qed.

Lemma Forall_middle {A} (P : A -> Prop) l w w' r :
  Forall P (l ++ w :: r) -> P w' -> Forall P (l ++ w' :: r).
Proof.
  intros H Hw. apply Forall_app in H as [Hl Hr].
  inversion Hr; subst. apply Forall_app. split; [exact Hl|].
  now constructor.
Qed.

Lemma Forall_at {A} (P : A -> Prop) l w r : Forall P (l ++ w :: r) -> P w.
Proof.
  intros H. apply Forall_app in H as [_ Hr]. now inversion Hr.
Qed.

(** *** Merged lists *)

Lemma interleaved_cons_nil {A} (ls : list (list A)) out :
  interleaved ls out -> interleaved ([] :: ls) out.
Proof.
  induction 1 as [ls H | l1 xs l2 x out H IH].
  - apply interleaved_nil. now constructor.
  - apply (interleaved_snoc ([] :: l1)). exact IH.
Qed.

Lemma interleaved_perm {A} (ls : list (list A)) out :
  interleaved ls out ->
  forall ls', Permutation ls ls' -> interleaved ls' out.
Proof.
  induction 1 as [ls H | l1 xs l2 x out H IH]; intros ls' HP.
  - apply interleaved_nil. eapply Permutation_Forall; eassumption.
  - assert (Hin : In (xs ++ [x]) ls')
      by (eapply Permutation_in; [exact HP|apply in_elt]).
    apply in_split in Hin as (l1' & l2' & ->).
    apply Permutation_app_inv in HP.
    apply interleaved_snoc, IH. now apply Permutation_elt.
Qed.

Lemma interleaved_insert_nil {A} (a b : list (list A)) out :
  interleaved (a ++ b) out -> interleaved (a ++ [] :: b) out.
Proof.
  intros H. apply (interleaved_perm ([] :: a ++ b)).
  - now apply interleaved_cons_nil.
  - apply Permutation_middle.
Qed.

(** A merge has the elements of its lists, each as often. *)
Lemma interleaved_concat {A} (ls : list (list A)) out :
  interleaved ls out -> Permutation (concat ls) out.
Proof.
  induction 1 as [ls H | l1 xs l2 x out H IH].
  - replace (concat ls) with (@nil A); [constructor|].
    induction H as [|l ls Hl _ IH]; [reflexivity|].
    subst l. exact IH.
  - rewrite concat_app in *. cbn [concat] in *.
    transitivity ((concat l1 ++ xs ++ concat l2) ++ [x]).
    + rewrite <- !app_assoc. do 2 apply Permutation_app_head.
      cbn [app]. apply Permutation_cons_append.
    + now apply Permutation_app_tail.
Qed.

(** *** The invariant *)

Lemma issues_of_ok L work_dir clang_tidy name found :
  tidy_issues L work_dir clang_tidy name = Some (Ok found) ->
  issues_of L work_dir clang_tidy name = found.
Proof. unfold issues_of. now intros ->. Qed.

Lemma step_accounted L work_dir workers clang_tidy todo s s' :
  step L work_dir workers clang_tidy s s' ->
  accounted L work_dir clang_tidy todo s ->
  accounted L work_dir clang_tidy todo s'.
Proof.
  unfold accounted, collected, to_put.
  destruct 1 as [name rest q u ts qi Hroom | q u ts qi | m name q u l r qi
                | m q u l name r qi issues Htool
                | m q u l name pushed issue rest r qi
                | m q u l name pushed r qi
                | m q u l name r qi e Htool
                | q ts qi | issues q u ts issue qi | issues q u ts];
    cbn [main queue_workers queue_issues threads];
    intros (done & lost & Hdone & Hil & Hok & Hlost & Hperm).
  - exists done, lost. repeat split; try assumption.
    now rewrite <- app_assoc.
  - exists done, lost. now repeat split.
  - exists done, lost. split; [exact Hdone|]. split; [|split; [|split]].
    + now rewrite pushed_parts_app in *.
    + exact (Forall_middle _ _ _ (Running name) _ Hok I).
    + now rewrite dead_count_app in *.
    + eapply Permutation_trans; [|exact Hperm].
      rewrite !busy_app. cbn [busy].
      apply (perm_move_eq (done ++ busy l)
               (busy r ++ lost ++ q ++ to_put (mkState m q u l qi))
               (done ++ busy l ++ busy r ++ lost)
               (q ++ to_put (mkState m q u l qi)) name);
        unfold to_put; cbn [main]; assoc.
  - exists done, lost. split; [exact Hdone|]. split; [|split; [|split]].
    + rewrite pushed_parts_app in *. cbn [pushed_parts app] in *.
      rewrite app_assoc. apply interleaved_insert_nil.
      now rewrite <- app_assoc.
    + exact (Forall_middle _ _ _ (Pushing name [] issues) _ Hok Htool).
    + now rewrite dead_count_app in *.
    + now rewrite busy_app in *.
  - exists done, lost. split; [exact Hdone|]. split; [|split; [|split]].
    + rewrite pushed_parts_app in *. cbn [pushed_parts app] in *.
      rewrite app_assoc in *.
      destruct m; rewrite ?app_assoc; now apply interleaved_snoc.
    + apply (Forall_middle _ _ _ (Pushing name (pushed ++ [issue]) rest) _ Hok).
      apply Forall_at in Hok. cbn [thread_ok] in *.
      now rewrite <- app_assoc.
    + now rewrite dead_count_app in *.
    + now rewrite busy_app in *.
  - pose proof (Forall_at _ _ _ _ Hok) as Hth. cbn [thread_ok] in Hth.
    rewrite app_nil_r in Hth.
    exists (done ++ [name]), lost. split; [|split; [|split; [|split]]].
    + apply Forall_app. split; [exact Hdone|]. constructor; [|constructor].
      now rewrite (issues_of_ok _ _ _ _ _ Hth).
    + rewrite pushed_parts_app in *. cbn [pushed_parts app] in *.
      rewrite map_app. cbn [map]. rewrite (issues_of_ok _ _ _ _ _ Hth).
      eapply interleaved_perm; [exact Hil|].
      apply (perm_move_eq
               (map (issues_of L work_dir clang_tidy) done ++ pushed_parts l)
               (pushed_parts r)
               (map (issues_of L work_dir clang_tidy) done)
               (pushed_parts l ++ pushed_parts r) pushed); assoc.
    + exact (Forall_middle _ _ _ Waiting _ Hok I).
    + now rewrite dead_count_app in *.
    + eapply Permutation_trans; [|exact Hperm].
      rewrite !busy_app. cbn [busy].
      apply (perm_move_eq done
               (busy l ++ busy r ++ lost ++ q ++ to_put (mkState m q u l qi))
               (done ++ busy l)
               (busy r ++ lost ++ q ++ to_put (mkState m q u l qi)) name);
        unfold to_put; cbn [main]; assoc.
  - exists done, (name :: lost). split; [exact Hdone|].
    split; [|split; [|split]].
    + now rewrite pushed_parts_app in *.
    + exact (Forall_middle _ _ _ Dead _ Hok I).
    + rewrite dead_count_app in *. cbn [length]. lia.
    + eapply Permutation_trans; [|exact Hperm].
      rewrite !busy_app. cbn [busy].
      apply (perm_move_eq (done ++ busy l ++ busy r)
               (lost ++ q ++ to_put (mkState m q u l qi))
               (done ++ busy l)
               (busy r ++ lost ++ q ++ to_put (mkState m q u l qi)) name);
        unfold to_put; cbn [main]; assoc.
  - exists done, lost. now repeat split.
  - exists done, lost. repeat split; try assumption.
    now rewrite <- app_assoc.
  - exists done, lost. now repeat split.
Qed.

Lemma step_returned_empty L work_dir workers clang_tidy s s' :
  step L work_dir workers clang_tidy s s' -> balanced s ->
  (forall found, main s = Returned found -> queue_issues s = []) ->
  forall found, main s' = Returned found -> queue_issues s' = [].
Proof.
  unfold balanced.
  destruct 1; cbn [main queue_workers queue_issues threads unfinished_tasks];
    intros [Hb Hm] Hret found E; try discriminate E; try reflexivity;
    try (now apply (Hret found)).
  subst m. rewrite owed_app in Hb. lia.
Qed.

Lemma busy_repeat n : busy (repeat Waiting n) = [].
Proof. induction n; [reflexivity|exact IHn]. Qed.

Lemma pushed_parts_repeat n : pushed_parts (repeat Waiting n) = [].
Proof. induction n; [reflexivity|exact IHn]. Qed.

Lemma dead_count_repeat n : dead_count (repeat Waiting n) = 0%nat.
Proof. unfold dead_count. induction n; [reflexivity|exact IHn]. Qed.

Lemma run_accounted L work_dir workers clang_tidy
    files database_files todo s0 s :
  enqueued files database_files = Some (Ok todo) ->
  run_start workers files database_files = Some s0 ->
  steps L work_dir workers clang_tidy s0 s ->
  balanced s /\ accounted L work_dir clang_tidy todo s /\
  (forall found, main s = Returned found -> queue_issues s = []).
Proof.
  intros Henq Hstart Hsteps.
  induction Hsteps as [|s1 s2 s3 _ IH Hstep].
  - split; [exact (run_start_balanced _ _ _ _ Hstart)|].
    unfold run_start in Hstart. rewrite Henq in Hstart.
    injection Hstart as <-. split; [|discriminate].
    exists [], []. cbn [collected to_put main queue_issues threads
                        queue_workers map length app].
    rewrite busy_repeat, pushed_parts_repeat, dead_count_repeat.
    split; [constructor|]. split; [apply interleaved_nil; constructor|].
    split; [|now split].
    apply Forall_forall. intros w Hw. apply repeat_spec in Hw. now subst w.
  - destruct (IH Hstart) as (Hb & Ha & Hr). split; [|split].
    + eapply step_balanced; eassumption.
    + eapply step_accounted; eassumption.
    + eapply step_returned_empty; eassumption.
Qed.

(** X11: when a run returns, the list it returns is made of the issues of
    the files that were put on the queue, each file once, merged: the
    issues of a file keep their order, and the issues of two files can be
    mixed, as the threads put them one at a time.  The list has the same
    issues as the lists of the files in a row, each as often; and on every
    file the invocation gave a list of issues. *)
Theorem run_returns_every_file L work_dir workers clang_tidy
    files database_files todo s0 s issues :
  enqueued files database_files = Some (Ok todo) ->
  run_start workers files database_files = Some s0 ->
  steps L work_dir workers clang_tidy s0 s ->
  main s = Returned issues ->
  interleaved (map (issues_of L work_dir clang_tidy) todo) issues /\
  Permutation issues (flat_map (issues_of L work_dir clang_tidy) todo) /\
  Forall (fun name =>
            exists found,
              tidy_issues L work_dir clang_tidy name = Some (Ok found)) todo.
Proof.
  intros Henq Hstart Hsteps Hmain.
  destruct (run_accounted _ _ _ _ _ _ _ _ _ Henq Hstart Hsteps)
    as ([Hb Hm] & (done & lost & Hdone & Hil & _ & Hlost & Hperm) & Hqi).
  rewrite Hmain in Hm.
  assert (Hq : queue_workers s = [] /\ owed (threads s) = 0%nat).
  { rewrite Hm in Hb. destruct (queue_workers s); [|simpl in Hb; lia].
    simpl in Hb. now split. }
  destruct Hq as [Hq Howed].
  apply owed_zero in Howed as (Hbusy & Hparts & Hdead).
  rewrite Hdead in Hlost. destruct lost; [|discriminate Hlost].
  unfold collected, to_put in *. rewrite Hmain in *.
  rewrite (Hqi issues eq_refl), app_nil_r in Hil.
  rewrite Hparts, app_nil_r in Hil.
  rewrite Hbusy, Hq in Hperm. cbn [app] in Hperm. rewrite app_nil_r in Hperm.
  assert (Hall : interleaved (map (issues_of L work_dir clang_tidy) todo)
                   issues).
  { eapply interleaved_perm; [exact Hil|]. now apply Permutation_map. }
  split; [exact Hall|]. split.
  - rewrite flat_map_concat_map. symmetry. now apply interleaved_concat.
  - eapply Permutation_Forall; [exact Hperm|].
    eapply Forall_impl; [|exact Hdone]. intros name H. eexists. exact H.
Qed.

(** *** A run to its end *)

Lemma steps_trans L work_dir workers clang_tidy s1 s2 s3 :
  steps L work_dir workers clang_tidy s1 s2 ->
  steps L work_dir workers clang_tidy s2 s3 ->
  steps L work_dir workers clang_tidy s1 s3.
Proof.
  intros H12. induction 1 as [|s2 s3 s4 _ IH Hstep]; [exact H12|].
  eapply steps_step; [exact (IH H12)|exact Hstep].
Qed.

Lemma steps_first L work_dir workers clang_tidy s1 s2 s3 :
  step L work_dir workers clang_tidy s1 s2 ->
  steps L work_dir workers clang_tidy s2 s3 ->
  steps L work_dir workers clang_tidy s1 s3.
Proof.
  intros H. apply steps_trans. eapply steps_step; [apply steps_refl|exact H].
Qed.

Lemma run_returns_every_file_witness :
  interleaved
    (map (issues_of 4300 [] two_files_tool)
       [str "/src/a.cpp"; str "/src/b.cpp"])
    (first_warning :: example_issues ++ [second_warning]) /\
  Permutation (first_warning :: example_issues ++ [second_warning])
    (flat_map (issues_of 4300 [] two_files_tool)
       [str "/src/a.cpp"; str "/src/b.cpp"]).
Proof.
  pose (a := str "/src/a.cpp"). pose (b := str "/src/b.cpp").
  pose (w1 := first_warning). pose (w2 := second_warning).
  pose (e := hd first_warning example_issues).
  destruct (run_returns_every_file 4300 [] 2 two_files_tool
              [str "src/"] [a; b] [a; b]
              (mkState (Filling [a; b]) [] 0 [Waiting; Waiting] [])
              (mkState (Returned [w1; e; w2]) [] 0 [Waiting; Waiting] [])
              [w1; e; w2]) as (H1 & H2 & _).
  - vm_compute. reflexivity.
  - vm_compute. reflexivity.
  - eapply steps_first.
    { apply (step_put _ _ 2 _ a [b] [] 0 [Waiting; Waiting] []).
      simpl. lia. }
    eapply steps_first.
    { apply (step_put _ _ 2 _ b [] [a] 1 [Waiting; Waiting] []).
      simpl. lia. }
    eapply steps_first.
    { apply (step_filled _ _ 2 _ [a; b] 2 [Waiting; Waiting] []). }
    eapply steps_first.
    { apply (step_get _ _ 2 _ Joining a [b] 2 [] [Waiting] []). }
    eapply steps_first.
    { apply (step_get _ _ 2 _ Joining b [] 2 [Running a] [] []). }
    eapply steps_first.
    { apply (step_parsed _ _ 2 _ Joining [] 2 [Running a] b [] [] [w1; w2]).
      vm_compute. reflexivity. }
    eapply steps_first.
    { apply (step_push _ _ 2 _ Joining [] 2 [Running a] b [] w1 [w2] [] []). }
    eapply steps_first.
    { apply (step_parsed _ _ 2 _ Joining [] 2 [] a [Pushing b [w1] [w2]]
               [w1] [e]).
      vm_compute. reflexivity. }
    eapply steps_first.
    { apply (step_push _ _ 2 _ Joining [] 2 [] a [] e []
               [Pushing b [w1] [w2]] [w1]). }
    eapply steps_first.
    { apply (step_push _ _ 2 _ Joining [] 2 [Pushing a [e] []] b [w1] w2 []
               [] [w1; e]). }
    eapply steps_first.
    { apply (step_task_done _ _ 2 _ Joining [] 1 [] a [e]
               [Pushing b [w1; w2] []] [w1; e; w2]). }
    eapply steps_first.
    { apply (step_task_done _ _ 2 _ Joining [] 0 [Waiting] b [w1; w2] []
               [w1; e; w2]). }
    eapply steps_first.
    { apply (step_join _ _ 2 _ [] [Waiting; Waiting] [w1; e; w2]). }
    eapply steps_first.
    { apply (step_drain _ _ 2 _ [] [] 0 [Waiting; Waiting] w1 [e; w2]). }
    eapply steps_first.
    { apply (step_drain _ _ 2 _ [w1] [] 0 [Waiting; Waiting] e [w2]). }
    eapply steps_first.
    { apply (step_drain _ _ 2 _ [w1; e] [] 0 [Waiting; Waiting] w2 []). }
    eapply steps_first.
    { apply (step_return _ _ 2 _ [w1; e; w2] [] 0 [Waiting; Waiting]). }
    apply steps_refl.
  - reflexivity.
  - split; [exact H1|exact H2].
Defined.

Lemma total_cost_cons L work_dir clang_tidy k name names :
  total_cost L work_dir clang_tidy k (name :: names)
  = (k + cost L work_dir clang_tidy name
     + total_cost L work_dir clang_tidy k names)%nat.
Proof. reflexivity. Qed.

Lemma total_cost_nil L work_dir clang_tidy k :
  total_cost L work_dir clang_tidy k [] = 0%nat.
Proof. reflexivity. Qed.

Lemma total_cost_app L work_dir clang_tidy k a b :
  total_cost L work_dir clang_tidy k (a ++ b)
  = (total_cost L work_dir clang_tidy k a
     + total_cost L work_dir clang_tidy k b)%nat.
Proof. unfold total_cost. now rewrite map_app, list_sum_app. Qed.

Lemma threads_cost_app L work_dir clang_tidy l w r :
  threads_cost L work_dir clang_tidy (l ++ w :: r)
  = (threads_cost L work_dir clang_tidy l
     + threads_cost L work_dir clang_tidy [w]
     + threads_cost L work_dir clang_tidy r)%nat.
Proof.
  induction l as [|x l IH]; cbn [app].
  - destruct w; cbn [threads_cost]; lia.
  - remember (threads_cost L work_dir clang_tidy [w]) as cw.
    destruct x; cbn [threads_cost]; rewrite IH; lia.
Qed.

Lemma threads_cost_repeat L work_dir clang_tidy n :
  threads_cost L work_dir clang_tidy (repeat Waiting n) = 0%nat.
Proof. induction n; [reflexivity|exact IHn]. Qed.

Lemma held_in_todo L work_dir clang_tidy todo s name :
  accounted L work_dir clang_tidy todo s ->
  In name (busy (threads s)) -> In name todo.
Proof.
  intros (done & lost & _ & _ & _ & _ & Hperm) Hin.
  eapply Permutation_in; [exact Hperm|].
  apply in_or_app. right. apply in_or_app. now left.
Qed.

(** No invocation fails when the tool gives a list of issues on every file
    that was put on the queue. *)
Lemma no_failure L work_dir clang_tidy todo m q u l name r qi e :
  (forall name, In name todo ->
     exists found, tidy_issues L work_dir clang_tidy name = Some (Ok found)) ->
  accounted L work_dir clang_tidy todo
    (mkState m q u (l ++ Running name :: r) qi) ->
  tidy_issues L work_dir clang_tidy name <> Some (Raise e).
Proof.
  intros Hall Ha Htool.
  destruct (Hall name) as (found & E).
  - apply (held_in_todo _ _ _ _ _ _ Ha). cbn [threads].
    rewrite busy_app. apply in_or_app. right. now left.
  - rewrite E in Htool. discriminate Htool.
Qed.

Lemma step_distance L work_dir workers clang_tidy todo s s' :
  (forall name, In name todo ->
     exists found, tidy_issues L work_dir clang_tidy name = Some (Ok found)) ->
  accounted L work_dir clang_tidy todo s ->
  step L work_dir workers clang_tidy s s' ->
  S (distance L work_dir clang_tidy s') = distance L work_dir clang_tidy s.
Proof.
  intros Hall Ha Hstep. unfold distance, to_put.
  destruct Hstep as [name rest q u ts qi Hroom | q u ts qi | m name q u l r qi
                | m q u l name r qi issues Htool
                | m q u l name pushed issue rest r qi
                | m q u l name pushed r qi
                | m q u l name r qi e Htool
                | q ts qi | issues q u ts issue qi | issues q u ts];
    cbn [main queue_workers threads queue_issues phase];
    rewrite ?total_cost_app, ?threads_cost_app, ?length_app;
    rewrite ?total_cost_cons, ?total_cost_nil;
    cbn [threads_cost length]; try lia.
  - unfold cost. rewrite (issues_of_ok _ _ _ _ _ Htool). lia.
  - now destruct (no_failure _ _ _ _ _ _ _ _ _ _ _ e Hall Ha).
Qed.

Lemma step_healthy L work_dir workers clang_tidy todo s s' :
  (forall name, In name todo ->
     exists found, tidy_issues L work_dir clang_tidy name = Some (Ok found)) ->
  accounted L work_dir clang_tidy todo s ->
  step L work_dir workers clang_tidy s s' ->
  healthy workers s -> healthy workers s'.
Proof.
  intros Hall Ha Hstep (Hb & Hd & Hl & Hm).
  split; [eapply step_balanced; eassumption|].
  destruct Hstep as [name rest q u ts qi Hroom | q u ts qi | m name q u l r qi
                | m q u l name r qi issues Htool
                | m q u l name pushed issue rest r qi
                | m q u l name pushed r qi
                | m q u l name r qi e Htool
                | q ts qi | issues q u ts issue qi | issues q u ts];
    cbn [main threads] in *;
    rewrite ?dead_count_app, ?length_app in *; cbn [length] in *;
    try (now repeat split).
  now destruct (no_failure _ _ _ _ _ _ _ _ _ _ _ e Hall Ha).
Qed.

Lemma run_start_healthy workers files database_files todo s0 :
  enqueued files database_files = Some (Ok todo) ->
  run_start workers files database_files = Some s0 ->
  healthy workers s0.
Proof.
  intros Henq Hstart.
  split; [exact (run_start_balanced _ _ _ _ Hstart)|].
  unfold run_start in Hstart. rewrite Henq in Hstart. injection Hstart as <-.
  cbn [threads main]. rewrite dead_count_repeat, repeat_length.
  now repeat split.
Qed.

Lemma run_healthy L work_dir workers clang_tidy
    files database_files todo s0 s :
  (forall name, In name todo ->
     exists found, tidy_issues L work_dir clang_tidy name = Some (Ok found)) ->
  enqueued files database_files = Some (Ok todo) ->
  run_start workers files database_files = Some s0 ->
  steps L work_dir workers clang_tidy s0 s ->
  healthy workers s.
Proof.
  intros Hall Henq Hstart Hsteps.
  induction Hsteps as [|s1 s2 s3 H12 IH Hstep].
  - eapply run_start_healthy; eassumption.
  - eapply step_healthy; [exact Hall| |exact Hstep|exact (IH Hstart)].
    eapply run_accounted; eassumption.
Qed.

Lemma threads_cases ts :
  dead_count ts = 0%nat ->
  (exists l name r, ts = l ++ Running name :: r) \/
  (exists l name pushed rest r, ts = l ++ Pushing name pushed rest :: r) \/
  ts = repeat Waiting (length ts).
Proof.
  unfold dead_count. induction ts as [|w ts IH]; [now right; right|].
  cbn [filter length repeat]. destruct w; cbn [length]; intros H.
  - destruct (IH H)
      as [(l & name & r & ->)|[(l & name & pushed & rest & r & ->)|E]].
    + left. now exists (Waiting :: l), name, r.
    + right. left. now exists (Waiting :: l), name, pushed, rest, r.
    + right. right. now rewrite <- E.
  - left. now exists [], filename, ts.
  - right. left. now exists [], filename, pushed, rest, ts.
  - discriminate H.
Qed.

Lemma owed_repeat n : owed (repeat Waiting n) = 0%nat.
Proof. unfold owed. induction n; [reflexivity|exact IHn]. Qed.

(** Some thread can move when a task is unfinished. *)
Lemma worker_progress L work_dir workers clang_tidy m q u ts qi :
  (forall name, In name (busy ts) ->
     exists found, tidy_issues L work_dir clang_tidy name = Some (Ok found)) ->
  dead_count ts = 0%nat -> (1 <= length ts)%nat ->
  u = (length q + owed ts)%nat -> (1 <= u)%nat ->
  exists s', step L work_dir workers clang_tidy (mkState m q u ts qi) s'.
Proof.
  intros Hall Hd Hl Hb Hu.
  destruct u as [|u]; [lia|].
  destruct (threads_cases ts Hd)
    as [(l & name & r & ->)|[(l & name & pushed & rest & r & ->)|E]].
  - destruct (Hall name) as (found & Htool).
    { rewrite busy_app. apply in_or_app. right. now left. }
    eexists. apply step_parsed. exact Htool.
  - destruct rest as [|issue rest].
    + eexists. apply step_task_done.
    + eexists. apply step_push.
  - rewrite E, owed_repeat in Hb.
    destruct q as [|name q]; [cbn [length] in Hb; lia|].
    rewrite E. destruct (length ts) as [|n]; [lia|]. cbn [repeat].
    eexists. apply (step_get _ _ _ _ m name q (S u) [] (repeat Waiting n) qi).
Qed.

Lemma healthy_progress L work_dir workers clang_tidy todo s :
  (1 <= workers)%nat ->
  (forall name, In name todo ->
     exists found, tidy_issues L work_dir clang_tidy name = Some (Ok found)) ->
  accounted L work_dir clang_tidy todo s ->
  healthy workers s -> pending s ->
  exists s', step L work_dir workers clang_tidy s s'.
Proof.
  intros Hw Hall Ha.
  assert (Hheld : forall name, In name (busy (threads s)) ->
            exists found,
              tidy_issues L work_dir clang_tidy name = Some (Ok found)).
  { intros name Hin. apply Hall. eapply held_in_todo; eassumption. }
  clear Ha. revert Hheld.
  destruct s as [m q u ts qi]. unfold healthy, balanced, pending.
  cbn [main queue_workers unfinished_tasks threads].
  intros Hheld ((Hb & _) & Hd & Hl & _) Hp.
  destruct m as [[|name rest]| |issues|issues|e]; try destruct Hp.
  - eexists. apply step_filled.
  - destruct (Nat.lt_ge_cases (length q) workers) as [Hroom|Hfull].
    + eexists. apply step_put. exact Hroom.
    + eapply worker_progress; try eassumption; lia.
  - destruct u as [|u].
    + eexists. apply step_join.
    + eapply worker_progress; try eassumption; lia.
  - destruct qi as [|issue qi].
    + eexists. apply step_return.
    + eexists. apply step_drain.
Qed.

Lemma healthy_finishes L work_dir workers clang_tidy todo :
  (1 <= workers)%nat ->
  (forall name, In name todo ->
     exists found, tidy_issues L work_dir clang_tidy name = Some (Ok found)) ->
  forall n s,
    (distance L work_dir clang_tidy s <= n)%nat ->
    accounted L work_dir clang_tidy todo s -> healthy workers s ->
    exists s' issues,
      steps L work_dir workers clang_tidy s s' /\ main s' = Returned issues.
Proof.
  intros Hw Hall. induction n as [|n IH]; intros s Hn Ha Hh;
    destruct (main s) as [rest| |found|found|e] eqn:Em.
  all: try (exists s, found; split; [apply steps_refl|exact Em]).
  all: try (destruct Hh as (_ & _ & _ & Hm); rewrite Em in Hm; now destruct Hm).
  all: destruct (healthy_progress L work_dir workers clang_tidy todo s
                   Hw Hall Ha Hh) as (s1 & Hstep);
    [unfold pending; now rewrite Em|];
    pose proof (step_distance _ _ _ _ _ _ _ Hall Ha Hstep) as Hd; try lia.
  all: destruct (IH s1) as (s' & issues & Hsteps & Hret);
    [lia|eapply step_accounted; eassumption
    |eapply step_healthy; eassumption|];
    exists s', issues; split; [eapply steps_first; eassumption|exact Hret].
Qed.

(** X12: with at least one worker, when on every file that is put on the
    queue clang-tidy exits with status 0 and its output is decoded and
    parsed without an exception, a run neither blocks nor goes on for
    ever: in every state it reaches in which the call has not returned,
    the caller or some thread can move; every move, a queue operation or
    an invocation, brings the run one step closer to its end, which at the
    start is 4 steps for each file, 2 for each issue and 3 for the caller
    away; and a state in which the call has returned can be reached. *)
Theorem run_finishes L work_dir workers clang_tidy
    files database_files todo s0 s :
  (1 <= workers)%nat ->
  (forall name, In name todo ->
     exists found, tidy_issues L work_dir clang_tidy name = Some (Ok found)) ->
  enqueued files database_files = Some (Ok todo) ->
  run_start workers files database_files = Some s0 ->
  steps L work_dir workers clang_tidy s0 s ->
  (pending s -> exists s', step L work_dir workers clang_tidy s s') /\
  (forall s', step L work_dir workers clang_tidy s s' ->
     S (distance L work_dir clang_tidy s') = distance L work_dir clang_tidy s) /\
  (distance L work_dir clang_tidy s
   <= total_cost L work_dir clang_tidy 4 todo + 3)%nat /\
  exists s' issues,
    steps L work_dir workers clang_tidy s s' /\ main s' = Returned issues.
Proof.
  intros Hw Hall Henq Hstart Hsteps.
  assert (Hh : healthy workers s) by (eapply run_healthy; eassumption).
  assert (Ha : accounted L work_dir clang_tidy todo s)
    by (eapply run_accounted; eassumption).
  split; [now apply (healthy_progress _ _ _ _ todo)|].
  split; [intros s'; now apply (step_distance _ _ _ _ todo)|].
  split.
  - clear Hh Ha.
    induction Hsteps as [|s1 s2 s3 H12 IH Hstep].
    + unfold run_start in Hstart. rewrite Henq in Hstart.
      injection Hstart as <-. unfold distance, to_put.
      cbn [main queue_workers threads queue_issues phase length].
      rewrite threads_cost_repeat, total_cost_nil. lia.
    + specialize (IH Hstart).
      assert (Ha : accounted L work_dir clang_tidy todo s2)
        by (eapply run_accounted; eassumption).
      pose proof (step_distance _ _ _ _ _ _ _ Hall Ha Hstep). lia.
  - eapply healthy_finishes; [exact Hw|exact Hall|apply Nat.le_refl
                              |exact Ha|exact Hh].
Qed.

Lemma run_finishes_witness :
  exists s' issues,
    steps 4300 [] 1 passing_tool
      (mkState (Filling [str "/src/a.cpp"]) [] 0 [Waiting] []) s' /\
    main s' = Returned issues.
Proof.
  apply (run_finishes 4300 [] 1 passing_tool
           [str "a.cpp"] [str "/src/a.cpp"] [str "/src/a.cpp"]
           (mkState (Filling [str "/src/a.cpp"]) [] 0 [Waiting] [])
           (mkState (Filling [str "/src/a.cpp"]) [] 0 [Waiting] [])).
  - lia.
  - intros name _. eexists. vm_compute. reflexivity.
  - reflexivity.
  - reflexivity.
  - apply steps_refl.
Defined.

(** ** A run after a failed invocation *)

(** X13: when the invocation on a file raises in a worker thread, because
    clang-tidy exits with a status that is not 0, because its output is
    not UTF-8, or because a header of the output has a number over the
    limit of int, that thread ends, and from then on the call of [run]
    never gets past [join]: in every state that follows the caller is
    still filling the queue or waiting in [join], and a task stays
    unfinished. *)
Theorem failed_invocation_blocks L work_dir workers clang_tidy
    files database_files s0 m q u l name r qi e s' :
  run_start workers files database_files = Some s0 ->
  steps L work_dir workers clang_tidy s0
    (mkState m q u (l ++ Running name :: r) qi) ->
  tidy_issues L work_dir clang_tidy name = Some (Raise e) ->
  steps L work_dir workers clang_tidy
    (mkState m q u (l ++ Dead :: r) qi) s' ->
  match main s' with
  | Filling _ | Joining => True
  | _ => False
  end /\
  (1 <= unfinished_tasks s')%nat.
Proof.
  intros Hstart Hs Htool Hs'.
  assert (Hb : balanced s').
  { eapply steps_balanced; [exact Hs'|].
    eapply step_balanced; [apply (step_fail L work_dir workers clang_tidy m q u l name r qi e
               Htool)|].
    eapply steps_balanced; [exact Hs|].
    exact (run_start_balanced _ _ _ _ Hstart). }
  assert (Hd : In Dead (threads s')).
  { eapply steps_dead; [exact Hs'|]. cbn [threads]. apply in_elt. }
  destruct Hb as [Hb Hm]. apply owed_dead in Hd.
  split; [|lia].
  destruct (main s'); try exact I; try lia.
  destruct Hm as [Ht _]. rewrite Ht in Hd. inversion Hd.
Qed.

Lemma failed_invocation_blocks_witness :
  match main blocked_state with
  | Filling _ | Joining => True
  | _ => False
  end /\
  (1 <= unfinished_tasks blocked_state)%nat.
Proof.
  apply (failed_invocation_blocks 4300 [] 1 long_number_tool
           [str "a.cpp"] [str "/src/a.cpp"]
           (mkState (Filling [str "/src/a.cpp"]) [] 0 [Waiting] [])
           Joining [] 1 [] (str "/src/a.cpp") [] [] ValueError).
  - reflexivity.
  - eapply steps_first.
    { apply (step_put _ _ 1 _ (str "/src/a.cpp") [] [] 0 [Waiting] []).
      simpl. lia. }
    eapply steps_first.
    { apply (step_filled _ _ 1 _ [str "/src/a.cpp"] 1 [Waiting] []). }
    eapply steps_first.
    { apply (step_get _ _ 1 _ Joining (str "/src/a.cpp") [] 1 [] [] []). }
    apply steps_refl.
  - vm_compute. reflexivity.
  - apply steps_refl.
Defined.
